(** * h5vcc: the path-operation driver (ShapeOps.cpp) and the autofill scanner

    A shallow embedding of

    - [chrome/browser/autofill/autofill_scanner.cc] (module [Autofill]);
    - [third_party/skia/experimental/Intersection/ShapeOps.cpp]
      (module [ShapeOps]): [findChaseOp], [findSortableTopNew], [bridgeOp]
      and the entry point [operate];
    - [lbshell/src/lb_resource_loader_bridge.cc] (module [LoaderBridge]):
      the perimeter check on responses and the conversion of file requests
      to HTTP and back.

    ShapeOps.cpp textually includes Simplify.cpp, which is not part of the
    excerpt: every function, type and constant it takes from there is a
    field of the record [Simplify] (or a section variable), so that what is
    proved of the driver holds for every implementation of those helpers.
    Module [Caller] has [operate] on the caller's path objects, which it
    takes by reference; module [Intersections] has what section 4.2 of the
    specification says of the intersection test on one pair of contours. *)

From Stdlib Require Import ZArith List Bool Lia.
From Stdlib Require String Ascii.
Import ListNotations.
Local Open Scope Z_scope.

(** ** Runs

    Debug checks ([DCHECK], [NOTREACHED], [SkASSERT]) are compiled out of
    release builds and stop a debug build.  The embedding follows the release
    control flow and records, in order, every check that was violated: the
    debug run is the prefix of the release run up to the first record.
    [Undefined] is undefined behaviour of the C++ (an array read out of
    range); [OutOfFuel] is a loop cut off by the iteration bound of the
    embedding.  All three outcomes keep the state reached. *)

Inductive outcome (S A : Type) : Type :=
| Ret (a : A) (s : S)
| Undefined (s : S)
| OutOfFuel (s : S).

Arguments Ret {S A} a s.
Arguments Undefined {S A} s.
Arguments OutOfFuel {S A} s.

Definition M (S A : Type) : Type := S -> outcome S A.

Definition ret {S A} (a : A) : M S A := fun s => Ret a s.

Definition bind {S A B} (m : M S A) (k : A -> M S B) : M S B :=
  fun s => match m s with
           | Ret a s' => k a s'
           | Undefined s' => Undefined s'
           | OutOfFuel s' => OutOfFuel s'
           end.

Definition undefined {S A} : M S A := fun s => Undefined s.
Definition out_of_fuel {S A} : M S A := fun s => OutOfFuel s.

Definition final {S A} (o : outcome S A) : S :=
  match o with Ret _ s | Undefined s | OutOfFuel s => s end.

Definition returned {S A} (o : outcome S A) : option A :=
  match o with Ret a _ => Some a | _ => None end.

Declare Scope run_scope.
Delimit Scope run_scope with run.
Notation "x <- m ;; k" := (bind m (fun x => k))
  (at level 61, m at next level, right associativity) : run_scope.
Notation "' p <- m ;; k" := (bind m (fun x => let p := x in k))
  (at level 61, p pattern, m at next level, right associativity) : run_scope.
Notation "m ;;; k" := (bind m (fun _ => k))
  (at level 61, right associativity) : run_scope.

(** ** autofill_scanner.cc *)

Module Autofill.

Section Scanner.

(** [const AutofillField*]: [None] is the null pointer. *)
Variable AutofillField : Type.
Definition FieldPtr : Type := option AutofillField.

Inductive check : Type :=
| DCHECK_Advance_not_IsEnd
| NOTREACHED_Cursor
| DCHECK_Rewind_saved_cursor
| DCHECK_RewindTo_index.

(** The members of the class: four iterators, kept as offsets into the
    vector the scanner was built over. *)
Record AutofillScanner : Type := mkScanner {
  cursor_ : Z;
  saved_cursor_ : Z;
  begin_ : Z;
  end_ : Z
}.

(** What a method runs on: the object, the vector its iterators point
    into (owned by the caller) and the checks violated so far. *)
Record Scan : Type := mkScan {
  this : AutofillScanner;
  vector : list FieldPtr;
  violated : list check
}.

Definition update (f : AutofillScanner -> AutofillScanner) : M Scan unit :=
  fun s => Ret tt (mkScan (f (this s)) (vector s) (violated s)).

Definition DCHECK (c : check) (cond : bool) : M Scan unit :=
  fun s => Ret tt (if cond then s
                   else mkScan (this s) (vector s) (violated s ++ [c])).

Definition noted (c : check) (s : Scan) : Scan :=
  mkScan (this s) (vector s) (violated s ++ [c]).

Definition NOTREACHED : M Scan unit := DCHECK NOTREACHED_Cursor false.

(** [AutofillScanner::AutofillScanner(fields)] *)
Definition new (fields : list FieldPtr) : Scan :=
  mkScan (mkScanner 0 0 0 (Z.of_nat (length fields))) fields [].

(** [*it]: a read outside the vector is undefined. *)
Definition deref (it : Z) : M Scan FieldPtr :=
  fun s => if (0 <=? it) && (it <? Z.of_nat (length (vector s)))
           then match nth_error (vector s) (Z.to_nat it) with
                | Some p => Ret p s
                | None => Undefined s
                end
           else Undefined s.

Definition size_t (z : Z) : Z := z mod 2 ^ 64.

Definition IsEnd (s : Scan) : bool := cursor_ (this s) =? end_ (this s).

Local Open Scope run_scope.

Definition Advance : M Scan unit :=
  fun s => (DCHECK DCHECK_Advance_not_IsEnd (negb (IsEnd s)) ;;;
            update (fun t => mkScanner (cursor_ t + 1) (saved_cursor_ t)
                                       (begin_ t) (end_ t))) s.

Definition Cursor : M Scan FieldPtr :=
  fun s => if IsEnd s
           then (NOTREACHED ;;; ret None) s
           else deref (cursor_ (this s)) s.

Definition Rewind : M Scan unit :=
  fun s => (DCHECK DCHECK_Rewind_saved_cursor
                   (negb (saved_cursor_ (this s) =? end_ (this s))) ;;;
            update (fun t => mkScanner (saved_cursor_ t) (end_ t)
                                       (begin_ t) (end_ t))) s.

Definition RewindTo (index : Z) : M Scan unit :=
  fun s => (DCHECK DCHECK_RewindTo_index
                   (index <? size_t (end_ (this s) - begin_ (this s))) ;;;
            update (fun t => mkScanner (begin_ t + index) (end_ t)
                                       (begin_ t) (end_ t))) s.

Definition SaveCursor : M Scan Z :=
  fun s => (update (fun t => mkScanner (cursor_ t) (cursor_ t)
                                       (begin_ t) (end_ t)) ;;;
            fun s' => Ret (size_t (cursor_ (this s') - begin_ (this s'))) s') s.

End Scanner.

Arguments mkScan {AutofillField}.
Arguments this {AutofillField}.
Arguments vector {AutofillField}.
Arguments violated {AutofillField}.
Arguments new {AutofillField}.
Arguments IsEnd {AutofillField}.
Arguments Advance {AutofillField}.
Arguments Cursor {AutofillField}.
Arguments Rewind {AutofillField}.
Arguments RewindTo {AutofillField}.
Arguments SaveCursor {AutofillField}.
Arguments noted {AutofillField}.

End Autofill.

(** ** ShapeOps.cpp *)

Module ShapeOps.

Set Implicit Arguments.

(** [enum ShapeOp] (ShapeOps.h); the driver only passes it on. *)
Inductive ShapeOp : Type :=
| kDifference_Op
| kIntersect_Op
| kUnion_Op
| kXor_Op.

(** The verbs a segment can carry; the driver compares with [kLine_Verb]. *)
Inductive Verb : Type :=
| kLine_Verb
| kQuad_Verb
| kCubic_Verb.

Inductive FillType : Type :=
| kWinding_FillType
| kEvenOdd_FillType.

(** The [SkASSERT]s of the file, by function and asserted condition. *)
Inductive check : Type :=
| findChaseOp_nextIndex_ne_firstIndex
| findSortableTopNew_0
| bridgeOp_not_firstRetry
| bridgeOp_unsortable_or_not_done
| bridgeOp_not_unsortable
| bridgeOp_isClosed
| bridgeOp_unsortable.

Section Driver.

(** Pointers into the contour store ([Contour*], [Segment*], [Span*]), the
    value type [Angle], the store itself and the scalar type. *)
Variables (Contour Segment Span Angle World SkScalar : Type).

Record SkPoint : Type := mkPoint { fX : SkScalar; fY : SkScalar }.

(** Modelled from the spec: [SkPath] (SkPath.h is not in the excerpt), a
    fill convention and a sequence of moveTo, lineTo, quadTo, cubicTo and
    close commands. *)
Inductive PathCmd : Type :=
| moveTo (p : SkPoint)
| lineTo (p : SkPoint)
| quadTo (p1 p2 : SkPoint)
| cubicTo (p1 p2 p3 : SkPoint)
| closePath.

Record SkPath : Type := mkPath {
  fFillType : FillType;
  fVerbs : list PathCmd
}.

(** Modelled from the spec: [SkPath::reset] leaves the path without
    commands, with the default (winding) fill. *)
Definition reset (p : SkPath) : SkPath := mkPath kWinding_FillType [].

Definition setFillType (ft : FillType) (p : SkPath) : SkPath :=
  mkPath ft (fVerbs p).

Definition isEmpty (p : SkPath) : bool :=
  match fVerbs p with [] => true | _ => false end.

(** What [findSortableTop] hands back through its reference parameters.
    [index] and [endIndex] are declared without a value in [bridgeOp], so
    they are results only. *)
Record Top : Type := mkTop {
  top_current : option Segment;
  top_index : Z;
  top_endIndex : Z;
  top_topLeft : SkPoint;
  top_unsortable : bool
}.

(** What [Segment::findNextOp] hands back. *)
Record Next : Type := mkNext {
  next_segment : option Segment;
  next_chase : list Span;
  next_nextStart : Z;
  next_nextEnd : Z;
  next_unsortable : bool
}.

(** What [Segment::setUpWindings] hands back. *)
Record Windings : Type := mkWindings {
  sumMiWinding : Z;
  sumSuWinding : Z;
  maxWinding : Z;
  sumWinding : Z;
  oppMaxWinding : Z;
  oppSumWinding : Z
}.

(** What the driver takes from Simplify.cpp and the Skia headers.  A
    function that takes the store and returns it may change it; the others
    only read. *)
Record Simplify : Type := mkSimplify {
  (* constants and the build switch *)
  SK_MinS32 : Z;
  SK_ScalarMin : SkScalar;
  kEvenOdd_Mask : Z;
  TRY_ROTATE : bool;
  (* class Angle *)
  angle_start : Angle -> Z;
  angle_end : Angle -> Z;
  angle_segment : Angle -> Segment;
  (* struct Span *)
  fOther : Span -> World -> Segment;
  fOtherIndex : Span -> World -> Z;
  (* class Segment *)
  span : Segment -> Z -> World -> Span;
  activeAngle : Segment -> Z -> Z -> list Angle -> World ->
                (bool * Z * list Angle) * World;
  SortAngles : list Angle -> World -> (bool * list Angle) * World;
  windSumAngle : Segment -> Angle -> World -> Z;
  windSum : Segment -> Z -> World -> Z;
  updateWindingReverse : Segment -> Angle -> World -> Z * World;
  updateOppWindingReverse : Segment -> Angle -> World -> Z * World;
  operand : Segment -> World -> bool;
  setUpWindings : Segment -> Z -> Z -> Z -> Z -> World -> Windings * World;
  doneAngle : Segment -> Angle -> World -> bool;
  doneAt : Segment -> Z -> World -> bool;
  done : Segment -> World -> bool;
  markAngle : Segment -> Z -> Z -> Z -> Z -> bool -> Angle -> World -> World;
  initWinding : Segment -> Z -> Z -> Z -> Z -> World -> World;
  computeSum : Segment -> Z -> Z -> bool -> World -> Z * World;
  activeOp : Segment -> Z -> Z -> Z -> Z -> ShapeOp -> World -> bool * World;
  findNextOp : Segment -> list Span -> Z -> Z -> bool -> ShapeOp -> Z -> Z ->
               World -> Next * World;
  verb : Segment -> World -> Verb;
  addCurveTo : Segment -> Z -> Z -> bool -> World -> SkPath -> World * SkPath;
  markDoneBinary : Segment -> Z -> World -> World;
  markAndChaseDoneBinary : Segment -> Z -> Z -> World -> option Span * World;
  (* free functions *)
  findSortableTop : list Contour -> SkPoint -> bool -> bool -> bool ->
                    World -> Top * World;
  innerContourCheck : list Contour -> Segment -> Z -> Z -> bool ->
                      World -> Z * World;
  makeContourList : bool -> bool -> World -> list Contour * World;
  addIntersectTs : Contour -> Contour -> World -> bool * World;
  segments_count : Contour -> World -> Z;
  coincidenceCheck : list Contour -> Z -> World -> World;
  fixOtherTIndex : list Contour -> World -> World;
  sortSegments : list Contour -> World -> World;
  (* class EdgeBuilder *)
  EdgeBuilder : SkPath -> World;
  xorMask : World -> Z;
  addOperand : SkPath -> World -> World;
  finish : World -> World;
  (* class PathWrapper *)
  PathWrapper : World -> World;
  hasMove : World -> SkPath -> bool;
  isClosed : World -> SkPath -> bool;
  close : World -> SkPath -> World * SkPath
}.

Variable H : Simplify.

(** The state of one call of [operate]: the contour store, the caller's
    [result] path (which [simple] wraps) and the violated assertions. *)
Record Mem : Type := mkMem {
  heap : World;
  simple : SkPath;
  asserts : list check
}.

Definition call {A} (f : World -> A * World) : M Mem A :=
  fun m => let (a, w) := f (heap m) in Ret a (mkMem w (simple m) (asserts m)).

Definition exec (f : World -> World) : M Mem unit :=
  fun m => Ret tt (mkMem (f (heap m)) (simple m) (asserts m)).

Definition read {A} (f : World -> A) : M Mem A :=
  fun m => Ret (f (heap m)) m.

Definition readPath {A} (f : World -> SkPath -> A) : M Mem A :=
  fun m => Ret (f (heap m) (simple m)) m.

Definition onPath (f : World -> SkPath -> World * SkPath) : M Mem unit :=
  fun m => let (w, p) := f (heap m) (simple m) in Ret tt (mkMem w p (asserts m)).

Definition SkASSERT (c : check) (cond : bool) : M Mem unit :=
  fun m => Ret tt (if cond then m
                   else mkMem (heap m) (simple m) (asserts m ++ [c])).

Local Open Scope run_scope.

(** *** findChaseOp *)

(** [chase.pop(&span)] takes the last entry of the array; [angles.end() - 1]
    points at the last entry too. *)
Definition pop {A} (chase : list A) : option (A * list A) :=
  match rev chase with
  | [] => None
  | sp :: r => Some (sp, rev r)
  end.

(** [*chase.insert(0) = span] under [TRY_ROTATE], [*chase.append() = span]
    otherwise. *)
Definition putBack (sp : Span) (chase : list Span) : list Span :=
  if TRY_ROTATE H then sp :: chase else chase ++ [sp].

(** [do { angle = sorted[++firstIndex]; ... } while (windSum == SK_MinS32)],
    entered with [firstIndex] one below the index of the head of [sorted]. *)
Fixpoint firstWound (sorted : list Angle) (index : Z) : M Mem (Z * Angle) :=
  match sorted with
  | [] => undefined
  | angle :: rest =>
      ws <- read (windSumAngle H (angle_segment H angle) angle) ;;
      if ws =? SK_MinS32 H then firstWound rest (index + 1)
      else ret (index, angle)
  end.

(** The second loop of [findChaseOp], one iteration per unit of [n]. *)
Fixpoint markAngles (n : nat) (sorted : list Angle)
         (angleCount firstIndex lastIndex nextIndex sumMi sumSu : Z)
         (first : option Segment) (nextStart nextEnd : Z)
  : M Mem (option Segment * Z * Z) :=
  match n with
  | O => out_of_fuel
  | S n' =>
      SkASSERT findChaseOp_nextIndex_ne_firstIndex
               (negb (nextIndex =? firstIndex)) ;;;
      let nextIndex := if nextIndex =? angleCount then 0 else nextIndex in
      match nth_error sorted (Z.to_nat nextIndex) with
      | None => undefined
      | Some angle =>
          let segment := angle_segment H angle in
          let start := angle_start H angle in
          let end_ := angle_end H angle in
          w <- call (setUpWindings H segment start end_ sumMi sumSu) ;;
          d <- read (doneAngle H segment angle) ;;
          r <- (if negb d
                then exec (markAngle H segment (maxWinding w) (sumWinding w)
                                     (oppMaxWinding w) (oppSumWinding w)
                                     true angle) ;;;
                     ret match first with
                         | None => (Some segment, start, end_)
                         | Some _ => (first, nextStart, nextEnd)
                         end
                else ret (first, nextStart, nextEnd)) ;;
          let '(first, nextStart, nextEnd) := r in
          let nextIndex := nextIndex + 1 in
          if nextIndex =? lastIndex then ret (first, nextStart, nextEnd)
          else markAngles n' sorted angleCount firstIndex lastIndex nextIndex
                          (sumMiWinding w) (sumSuWinding w)
                          first nextStart nextEnd
      end
  end.

(** The [while (chase.count())] loop: every iteration that goes round again
    has popped one span, so [n = length chase] iterations are enough. *)
Fixpoint findChaseOp_loop (n : nat) (chase : list Span) (nextStart nextEnd : Z)
  : M Mem (option Segment * list Span * Z * Z) :=
  match n with
  | O => ret (None, chase, nextStart, nextEnd)
  | S n' =>
      match pop chase with
      | None => ret (None, chase, nextStart, nextEnd)
      | Some (sp, chase) =>
          other <- read (fOther H sp) ;;
          otherIndex <- read (fOtherIndex H sp) ;;
          backPtr <- read (span H other otherIndex) ;;
          segment <- read (fOther H backPtr) ;;
          nextStart <- read (fOtherIndex H backPtr) ;;
          a <- call (activeAngle H segment nextStart 0 []) ;;
          let '(active, done_, angles) := a in
          if active then
            match pop angles with
            | None => undefined
            | Some (last, _) =>
                ret (Some (angle_segment H last), putBack sp chase,
                     angle_start H last, angle_end H last)
            end
          else if done_ =? Z.of_nat (length angles) then
            findChaseOp_loop n' chase nextStart nextEnd
          else
            s <- call (SortAngles H angles) ;;
            let '(sortable, sorted) := s in
            let angleCount := Z.of_nat (length sorted) in
            if negb sortable then findChaseOp_loop n' chase nextStart nextEnd
            else
              f <- firstWound sorted 0 ;;
              let '(firstIndex, angle) := f in
              let segment := angle_segment H angle in
              sumMi <- call (updateWindingReverse H segment angle) ;;
              sumSu <- call (updateOppWindingReverse H segment angle) ;;
              isOperand <- read (operand H segment) ;;
              let '(sumMi, sumSu) :=
                if isOperand then (sumSu, sumMi) else (sumMi, sumSu) in
              let nextIndex := firstIndex + 1 in
              let lastIndex :=
                if negb (firstIndex =? 0) then firstIndex else angleCount in
              r <- markAngles (S (length sorted)) sorted angleCount firstIndex
                              lastIndex nextIndex sumMi sumSu
                              None nextStart nextEnd ;;
              let '(first, nextStart, nextEnd) := r in
              match first with
              | Some _ => ret (first, putBack sp chase, nextStart, nextEnd)
              | None => findChaseOp_loop n' chase nextStart nextEnd
              end
      end
  end.

Definition findChaseOp (chase : list Span) (nextStart nextEnd : Z)
  : M Mem (option Segment * list Span * Z * Z) :=
  findChaseOp_loop (length chase) chase nextStart nextEnd.

(** *** findSortableTopNew *)

(** What [findSortableTopNew] returns, with the reference parameters it
    writes. *)
Record TopNew : Type := mkTopNew {
  new_current : option Segment;
  new_firstContour : bool;
  new_index : Z;
  new_endIndex : Z;
  new_topLeft : SkPoint;
  new_unsortable : bool
}.

(** The [do ... while (true)] loop, [allowTies] and [first] being its
    locals; leaving it by [break] runs into [SkASSERT(0)] and returns the
    null [current]. *)
Fixpoint findSortableTopNew_loop (n : nat) (contourList : list Contour)
         (firstContour : bool) (topLeft : SkPoint) (unsortable : bool)
         (allowTies first : bool) : M Mem TopNew :=
  match n with
  | O => out_of_fuel
  | S n' =>
      t <- call (findSortableTop H contourList topLeft unsortable allowTies true) ;;
      let index := top_index t in
      let endIndex := top_endIndex t in
      let topLeft := top_topLeft t in
      let unsortable := top_unsortable t in
      match top_current t with
      | None =>
          if first
          then ret (mkTopNew None firstContour index endIndex topLeft unsortable)
          else
            SkASSERT findSortableTopNew_0 false ;;;
            ret (mkTopNew None firstContour index endIndex topLeft unsortable)
      | Some current =>
          if firstContour then
            exec (initWinding H current index endIndex 0 0) ;;;
            ret (mkTopNew (Some current) false index endIndex topLeft unsortable)
          else
            let minIndex := Z.min index endIndex in
            sumWinding <- read (windSum H current minIndex) ;;
            computed <- (if sumWinding =? SK_MinS32 H
                         then sum <- call (computeSum H current index endIndex true) ;;
                              ret (negb (sum =? SK_MinS32 H))
                         else ret false) ;;
            if computed
            then ret (mkTopNew (Some current) firstContour index endIndex
                               topLeft unsortable)
            else
              contourWinding <-
                call (innerContourCheck H contourList current index endIndex false) ;;
              if contourWinding =? SK_MinS32 H
              then findSortableTopNew_loop n' contourList firstContour topLeft
                                           unsortable false false
              else
                oppContourWinding <-
                  call (innerContourCheck H contourList current index endIndex true) ;;
                if oppContourWinding =? SK_MinS32 H
                then findSortableTopNew_loop n' contourList firstContour topLeft
                                             unsortable false false
                else
                  exec (initWinding H current index endIndex
                                    contourWinding oppContourWinding) ;;;
                  ret (mkTopNew (Some current) firstContour index endIndex
                                topLeft unsortable)
      end
  end.

Definition findSortableTopNew (bound : nat) (contourList : list Contour)
           (firstContour : bool) (topLeft : SkPoint) (unsortable : bool)
  : M Mem TopNew :=
  findSortableTopNew_loop bound contourList firstContour topLeft unsortable
                          true true.

(** *** bridgeOp *)

Section Bridge.

Variables (bound : nat) (contourList : list Contour) (op : ShapeOp)
          (xorMask_ xorOpMask_ : Z).

(** The locals the innermost loop leaves behind. *)
Record Trace : Type := mkTrace {
  tr_active : bool;
  tr_chase : list Span;
  tr_unsortable : bool;
  tr_current : Segment;
  tr_index : Z;
  tr_endIndex : Z
}.

(** The innermost [do ... while (!simple.isClosed() && ...)]: follows one
    output contour from [current]. *)
Fixpoint bridgeOp_trace (n : nat) (chaseArray : list Span) (unsortable : bool)
         (current : Segment) (index endIndex : Z) : M Mem Trace :=
  match n with
  | O => out_of_fuel
  | S n' =>
      d <- read (done H current) ;;
      SkASSERT bridgeOp_unsortable_or_not_done (unsortable || negb d) ;;;
      nx <- call (findNextOp H current chaseArray index endIndex unsortable
                             op xorMask_ xorOpMask_) ;;
      let chaseArray := next_chase nx in
      let unsortable := next_unsortable nx in
      match next_segment nx with
      | None =>
          SkASSERT bridgeOp_not_unsortable (negb unsortable) ;;;
          hm <- readPath (hasMove H) ;;
          v <- read (verb H current) ;;
          ic <- readPath (isClosed H) ;;
          (if negb unsortable && hm
              && negb match v with kLine_Verb => true | _ => false end
              && negb ic
           then onPath (addCurveTo H current index endIndex true) ;;;
                ic' <- readPath (isClosed H) ;;
                SkASSERT bridgeOp_isClosed ic'
           else ret tt) ;;;
          ret (mkTrace false chaseArray unsortable current index endIndex)
      | Some next =>
          onPath (addCurveTo H current index endIndex true) ;;;
          let current := next in
          let index := next_nextStart nx in
          let endIndex := next_nextEnd nx in
          ic <- readPath (isClosed H) ;;
          d <- read (done H current) ;;
          if negb ic && (negb unsortable || negb d)
          then bridgeOp_trace n' chaseArray unsortable current index endIndex
          else ret (mkTrace true chaseArray unsortable current index endIndex)
      end
  end.

(** The [if (current->activeOp(...))] branch: trace a contour, finish it
    when the trace stopped on an unsortable span, close the path. *)
Definition bridgeOp_contour (chaseArray : list Span) (unsortable closable : bool)
           (current : Segment) (index endIndex : Z)
  : M Mem (list Span * bool * bool * Z * Z) :=
  t <- bridgeOp_trace bound chaseArray unsortable current index endIndex ;;
  let current := tr_current t in
  let index := tr_index t in
  let endIndex := tr_endIndex t in
  ic <- readPath (isClosed H) ;;
  closable <- (if tr_active t && negb ic
               then
                 SkASSERT bridgeOp_unsortable (tr_unsortable t) ;;;
                 let min := Z.min index endIndex in
                 d <- read (doneAt H current min) ;;
                 (if negb d
                  then onPath (addCurveTo H current index endIndex true) ;;;
                       exec (markDoneBinary H current min)
                  else ret tt) ;;;
                 ret false
               else ret closable) ;;
  onPath (close H) ;;;
  ret (tr_chase t, tr_unsortable t, closable, index, endIndex).

(** The middle [do ... while (true)]: one span per iteration, the next one
    supplied by [findChaseOp]. *)
Fixpoint bridgeOp_spans (n : nat) (chaseArray : list Span)
         (unsortable closable : bool)
         (current : Segment) (index endIndex : Z) : M Mem (bool * bool) :=
  match n with
  | O => out_of_fuel
  | S n' =>
      a <- call (activeOp H current index endIndex xorMask_ xorOpMask_ op) ;;
      r <- (if a
            then bridgeOp_contour chaseArray unsortable closable
                                  current index endIndex
            else
              last <- call (markAndChaseDoneBinary H current index endIndex) ;;
              ret (match last with
                   | Some sp => chaseArray ++ [sp]
                   | None => chaseArray
                   end, unsortable, closable, index, endIndex)) ;;
      let '(chaseArray, unsortable, closable, index, endIndex) := r in
      c <- findChaseOp chaseArray index endIndex ;;
      let '(current, chaseArray, index, endIndex) := c in
      match current with
      | None => ret (unsortable, closable)
      | Some current =>
          bridgeOp_spans n' chaseArray unsortable closable current index endIndex
      end
  end.

(** The locals of [bridgeOp] that live across its outer loop. *)
Record Frame : Type := mkFrame {
  firstContour : bool;
  unsortable : bool;
  topUnsortable : bool;
  firstRetry : bool;
  closable : bool;
  topLeft : SkPoint
}.

Definition bridgeOp_init : Frame :=
  mkFrame true false false false true (mkPoint (SK_ScalarMin H) (SK_ScalarMin H)).

(** The outer [do ... while (true)]. *)
Fixpoint bridgeOp_loop (n : nat) (fr : Frame) : M Mem bool :=
  match n with
  | O => out_of_fuel
  | S n' =>
      t <- findSortableTopNew bound contourList (firstContour fr) (topLeft fr)
                              (topUnsortable fr) ;;
      match new_current t with
      | None =>
          if new_unsortable t then
            SkASSERT bridgeOp_not_firstRetry (negb (firstRetry fr)) ;;;
            bridgeOp_loop n' (mkFrame (new_firstContour t) (unsortable fr)
                                      false true (closable fr)
                                      (mkPoint (SK_ScalarMin H) (SK_ScalarMin H)))
          else ret (closable fr)
      | Some current =>
          r <- bridgeOp_spans bound [] (unsortable fr) (closable fr)
                              current (new_index t) (new_endIndex t) ;;
          let '(unsortable, closable) := r in
          bridgeOp_loop n' (mkFrame (new_firstContour t) unsortable
                                    (new_unsortable t) (firstRetry fr) closable
                                    (new_topLeft t))
      end
  end.

Definition bridgeOp : M Mem bool := bridgeOp_loop bound bridgeOp_init.

End Bridge.

(** *** operate *)

(** The inner [do { next = *nextPtr++; } while (addIntersectTs(current, next)
    && nextPtr != listEnd)], [nexts] being the list from [nextPtr] on. *)
Fixpoint intersectFrom (current : Contour) (nexts : list Contour) : M Mem unit :=
  match nexts with
  | [] => ret tt
  | next :: rest =>
      more <- call (addIntersectTs H current next) ;;
      if more then intersectFrom current rest else ret tt
  end.

(** The outer [do ... while (currentPtr != listEnd)]: [nextPtr] starts at
    [currentPtr], so [current] is paired with itself first. *)
Fixpoint findIntersections (contourList : list Contour) : M Mem unit :=
  match contourList with
  | [] => ret tt
  | current :: rest =>
      intersectFrom current (current :: rest) ;;;
      findIntersections rest
  end.

(** [for (index = 0; ...) total += contourList[index]->segments().count()] *)
Fixpoint countSegments (contourList : list Contour) (total : Z) : M Mem Z :=
  match contourList with
  | [] => ret total
  | c :: rest =>
      k <- read (segments_count H c) ;;
      countSegments rest (total + k)
  end.

(** What [operate] starts from: [result] reset and set to even-odd, the
    store holding the contours that [EdgeBuilder builder(one, contours)]
    built.  [result] is taken to be another object than [one] and [two];
    module [Caller] has the call on the caller's objects. *)
Definition operate_entry (one : SkPath) (result : SkPath) : Mem :=
  mkMem (EdgeBuilder H one)
        (setFillType kEvenOdd_FillType (reset result))
        [].

(** Lines 269-305: the contour list and the two masks, or [None] when the
    function returns at [if (!currentPtr)]. *)
Definition operate_contours (two : SkPath) : M Mem (option (list Contour * Z * Z)) :=
  xorMask_ <- read (xorMask H) ;;
  exec (addOperand H two) ;;;
  exec (finish H) ;;;
  xorOpMask_ <- read (xorMask H) ;;
  contourList <- call (makeContourList H (xorMask_ =? kEvenOdd_Mask H)
                                       (xorOpMask_ =? kEvenOdd_Mask H)) ;;
  match contourList with
  | [] => ret None
  | _ :: _ =>
      findIntersections contourList ;;;
      total <- countSegments contourList 0 ;;
      exec (coincidenceCheck H contourList total) ;;;
      exec (fixOtherTIndex H contourList) ;;;
      exec (sortSegments H contourList) ;;;
      ret (Some (contourList, xorMask_, xorOpMask_))
  end.

(** [operate]: the value of the call of [bridgeOp] is not used. *)
Definition operate_run (bound : nat) (two : SkPath) (op : ShapeOp) : M Mem unit :=
  c <- operate_contours two ;;
  match c with
  | None => ret tt
  | Some (contourList, xorMask_, xorOpMask_) =>
      exec (PathWrapper H) ;;;
      _ <- bridgeOp bound contourList op xorMask_ xorOpMask_ ;;
      ret tt
  end.

Definition operate (bound : nat) (one two : SkPath) (op : ShapeOp)
           (result : SkPath) : outcome Mem unit :=
  operate_run bound two op (operate_entry one result).

(** The value [bridgeOp] returned inside a call of [operate], when the call
    got that far. *)
Definition operate_closable (bound : nat) (one two : SkPath) (op : ShapeOp)
           (result : SkPath) : outcome Mem (option bool) :=
  (c <- operate_contours two ;;
   match c with
   | None => ret None
   | Some (contourList, xorMask_, xorOpMask_) =>
       exec (PathWrapper H) ;;;
       b <- bridgeOp bound contourList op xorMask_ xorOpMask_ ;;
       ret (Some b)
   end) (operate_entry one result).

End Driver.

Arguments closePath {SkScalar}.

(** *** The contour pairs of the intersection phase *)

(** Every pair of a contour with itself or with a later contour of the
    list, row by row. *)
Fixpoint pairsFrom {Contour} (contourList : list Contour)
  : list (Contour * Contour) :=
  match contourList with
  | [] => []
  | current :: rest =>
      map (pair current) (current :: rest) ++ pairsFrom rest
  end.

(** The store after [addIntersectTs] has been applied to the pairs of a
    list, one after the other. *)
Definition addAll {Contour Segment Span Angle World SkScalar}
           (H : Simplify Contour Segment Span Angle World SkScalar)
           (pairs : list (Contour * Contour)) (w : World) : World :=
  fold_left (fun w p => snd (addIntersectTs H (fst p) (snd p) w)) pairs w.

(** *** Invariants of a run *)

(** [m] leaves a property of the state standing, however it ends. *)
Definition keeps {S A} (P : S -> Prop) (m : M S A) : Prop :=
  forall s, P s -> P (final (m s)).

(** Every value [m] can return has the property [R]. *)
Definition yields {S A} (R : A -> Prop) (m : M S A) : Prop :=
  forall s a s', m s = Ret a s' -> R a.

(** A property of the path [result], as a property of the state. *)
Definition onSimple {World SkScalar} (Q : SkPath SkScalar -> Prop)
           (m : Mem World SkScalar) : Prop :=
  Q (simple m).

(** The assertion [c] appended to the record. *)
Definition noting {World SkScalar} (c : check) (m : Mem World SkScalar)
  : Mem World SkScalar :=
  mkMem (heap m) (simple m) (asserts m ++ [c]).

(** *** Where a winding comes from *)

(** The two ways [findSortableTopNew] has of handing back a segment when
    [firstContour] is off, read off the final store [w']: the sum of the
    span was unset and [computeSum] derived one from the neighbours, or both
    calls of [innerContourCheck] (for the operand and for its opposite)
    gave a winding, and these two went to [initWinding]. *)
Definition derived {Contour Segment Span Angle World SkScalar}
           (H : Simplify Contour Segment Span Angle World SkScalar)
           (contourList : list Contour) (current : Segment)
           (index endIndex : Z) (w' : World) : Prop :=
  (exists w,
      windSum H current (Z.min index endIndex) w = SK_MinS32 H /\
      fst (computeSum H current index endIndex true w) <> SK_MinS32 H /\
      w' = snd (computeSum H current index endIndex true w))
  \/
  (exists w,
      let c := innerContourCheck H contourList current index endIndex false w in
      let o := innerContourCheck H contourList current index endIndex true (snd c) in
      fst c <> SK_MinS32 H /\ fst o <> SK_MinS32 H /\
      w' = initWinding H current index endIndex (fst c) (fst o) (snd o)).

(** *** The active-operator test *)

(** Modelled from the spec: [Segment::activeOp] is defined in Simplify.cpp,
    which is not in the excerpt.  Section 4.6 takes a span to be inside an
    operand when its winding sum for that operand is non-zero, and gives one
    row per operator, each to hold on exactly one side of the edge. *)
Definition inside (windingSum : Z) : bool := negb (windingSum =? 0).

Definition exactlyOneSide (before after : bool) : bool :=
  (before && negb after) || (negb before && after).

Definition IsActive (op : ShapeOp) (beforeA beforeB afterA afterB : Z) : bool :=
  match op with
  | kUnion_Op =>
      exactlyOneSide (inside beforeA || inside beforeB)
                     (inside afterA || inside afterB)
  | kIntersect_Op =>
      exactlyOneSide (inside beforeA && inside beforeB)
                     (inside afterA && inside afterB)
  | kDifference_Op =>
      exactlyOneSide (inside beforeA && negb (inside beforeB))
                     (inside afterA && negb (inside afterB))
  | kXor_Op =>
      exactlyOneSide (xorb (inside beforeA) (inside beforeB))
                     (xorb (inside afterA) (inside afterB))
  end.

(** The set operation each operator stands for, on membership in the two
    operands. *)
Definition predicate (op : ShapeOp) (insideA insideB : bool) : bool :=
  match op with
  | kDifference_Op => insideA && negb insideB
  | kIntersect_Op => insideA && insideB
  | kUnion_Op => insideA || insideB
  | kXor_Op => xorb insideA insideB
  end.

End ShapeOps.

(** ** A small implementation of the helpers

    An executable stand-in for Simplify.cpp, used to run the driver on
    concrete paths.  Scalars are integers.  The operands are read as the
    sequence of events the driver is to meet: [moveTo (s, y)] is a contour
    whose bounds lie at height [y] and whose top segment is [s]; [lineTo
    (s, f)] is the step to segment [s], which brings the contour back to its
    start when [f = 1] and lands on an unsortable, already finished span when
    [f = 2]; [closePath] is a top that cannot be sorted. *)

Module Toy.

Import ShapeOps.

Record Store : Type := mkStore {
  program : list (PathCmd Z);
  heights : list Z;
  tested : list (nat * nat);
  seeded : list (Z * Z * Z);
  finished : list Z;
  shut : bool
}.

Definition MinS32 : Z := -2147483647.

Fixpoint tops (cmds : list (PathCmd Z)) : list Z :=
  match cmds with
  | [] => []
  | moveTo p :: rest => fY p :: tops rest
  | _ :: rest => tops rest
  end.

Definition build (one : SkPath Z) : Store :=
  mkStore (fVerbs one) (tops (fVerbs one)) [] [] [] false.

Definition add (two : SkPath Z) (w : Store) : Store :=
  mkStore (program w ++ fVerbs two) (heights w ++ tops (fVerbs two))
          (tested w) (seeded w) (finished w) (shut w).

Definition with_program (p : list (PathCmd Z)) (w : Store) : Store :=
  mkStore p (heights w) (tested w) (seeded w) (finished w) (shut w).

Definition finish_segment (s : Z) (w : Store) : Store :=
  mkStore (program w) (heights w) (tested w) (seeded w) (s :: finished w) (shut w).

Definition is_finished (s : Z) (w : Store) : bool :=
  existsb (Z.eqb s) (finished w).

Definition top (topLeft : SkPoint Z) (unsortable : bool) (w : Store)
  : Top Z Z * Store :=
  match program w with
  | moveTo p :: rest => (mkTop (Some (fX p)) 0 1 p unsortable, with_program rest w)
  | closePath :: rest => (mkTop None 0 0 topLeft true, with_program rest w)
  | _ => (mkTop None 0 0 topLeft false, w)
  end.

Definition step (chase : list Z) (index endIndex : Z) (unsortable : bool)
           (w : Store) : Next Z Z * Store :=
  match program w with
  | lineTo p :: rest =>
      (mkNext (Some (fX p)) chase 0 1 (unsortable || (fY p =? 2)),
       mkStore rest (heights w) (tested w) (seeded w)
               (if fY p =? 2 then fX p :: finished w else finished w)
               (fY p =? 1))
  | _ => (mkNext None chase index endIndex unsortable, w)
  end.

Definition wound (s : Z) (w : Store) : Z :=
  match find (fun e => fst (fst e) =? s) (seeded w) with
  | Some e => snd (fst e)
  | None => MinS32
  end.

Definition seed (s winding oppWinding : Z) (w : Store) : Store :=
  mkStore (program w) (heights w) (tested w)
          (seeded w ++ [(s, winding, oppWinding)]) (finished w) (shut w).

(** With [boundsCheck], a contour lying wholly above the next one ends its
    row; without it every pair goes on. *)
Definition intersect (boundsCheck : bool) (c n : nat) (w : Store) : bool * Store :=
  (negb (boundsCheck && negb (Nat.eqb c n)
         && (nth c (heights w) 0 <? nth n (heights w) 0)),
   mkStore (program w) (heights w) (tested w ++ [(c, n)]) (seeded w)
           (finished w) (shut w)).

Definition emit (s index : Z) (w : Store) (p : SkPath Z) : Store * SkPath Z :=
  (w, mkPath (fFillType p) (fVerbs p ++ [lineTo (mkPoint s index)])).

Definition shutPath (w : Store) (p : SkPath Z) : Store * SkPath Z :=
  (mkStore (program w) (heights w) (tested w) (seeded w) (finished w) false,
   mkPath (fFillType p) (fVerbs p ++ [closePath])).

Definition env (boundsCheck : bool) : Simplify nat Z Z Z Store Z :=
  mkSimplify (Contour := nat)
    MinS32 (-1000000) 1 false
    (fun a => a) (fun a => a + 1) (fun a => a)
    (fun _ _ => 0) (fun _ _ => 0)
    (fun _ _ _ => 0)
    (fun _ _ _ _ w => ((false, 0, []), w))
    (fun angles w => ((true, angles), w))
    (fun s _ w => wound s w)
    (fun s _ w => wound s w)
    (fun _ _ w => (0, w)) (fun _ _ w => (0, w))
    (fun _ _ => false)
    (fun _ _ _ mi su w => (mkWindings mi su 0 0 0 0, w))
    (fun s _ w => is_finished s w)
    (fun s _ w => is_finished s w)
    (fun s w => is_finished s w)
    (fun _ _ _ _ _ _ _ w => w)
    (fun s _ _ winding oppWinding w => seed s winding oppWinding w)
    (fun _ _ _ _ w => (MinS32, w))
    (fun _ _ _ _ _ _ w => (true, w))
    (fun _ chase index endIndex unsortable _ _ _ w =>
       step chase index endIndex unsortable w)
    (fun _ _ => kLine_Verb)
    (fun s index _ _ w p => emit s index w p)
    (fun s _ w => finish_segment s w)
    (fun s _ _ w => (None, finish_segment s w))
    (fun _ topLeft unsortable _ _ w => top topLeft unsortable w)
    (fun _ s _ _ opp w => (if s <? 0 then MinS32 else if opp then 0 else 1, w))
    (fun _ _ w => (seq 0 (length (heights w)), w))
    (intersect boundsCheck)
    (fun _ _ => 1)
    (fun _ _ w => w) (fun _ w => w) (fun _ w => w)
    build
    (fun _ => -1)
    add
    (fun w => w)
    (fun w => w)
    (fun _ _ => false)
    (fun w _ => shut w)
    shutPath.

Definition path (cmds : list (PathCmd Z)) : SkPath Z :=
  mkPath kWinding_FillType cmds.

(** A triangle-like contour that closes, one whose trace stops on an
    unsortable span, three stacked contours, and the empty path. *)
Definition closing : SkPath Z :=
  path [moveTo (mkPoint 7 0); lineTo (mkPoint 8 1)].
Definition stalling : SkPath Z :=
  path [moveTo (mkPoint 7 0); lineTo (mkPoint 8 2)].
Definition stacked : SkPath Z :=
  path [moveTo (mkPoint 1 0); moveTo (mkPoint 2 5); moveTo (mkPoint 3 9)].
Definition empty : SkPath Z := path [].

(** Something left in [result] by an earlier use. *)
Definition stale : SkPath Z := path [moveTo (mkPoint 4 4); closePath].

(** A scanner over two fields, moved to the end of its list. *)
Definition scannerAtEnd : Autofill.Scan nat :=
  Autofill.mkScan (Autofill.mkScanner 2 0 0 2) [Some 10%nat; Some 11%nat] [].

End Toy.

(** ** What [findChaseOp] leaves behind *)

Module Chase.

Import ShapeOps.

Set Implicit Arguments.

Section Chase.

Variables (Contour Segment Span Angle World SkScalar : Type).
Variable H : Simplify Contour Segment Span Angle World SkScalar.

(** The chase array after a call that started with [chase]: empty when no
    segment is returned; otherwise the spans below the one that led to the
    segment, with that span put back. *)
Definition chaseAfter (chase : list Span) (found : option Segment)
           (chase' : list Span) : Prop :=
  match found with
  | None => chase' = []
  | Some _ =>
      exists below sp popped,
        chase = below ++ sp :: popped /\ chase' = putBack H sp below
  end.

(** How a call of [findChaseOp] can end from the state [m]: it is not cut
    off, it records no assertion and leaves the path alone, and a returned
    chase array is as [chaseAfter] says. *)
Definition chaseEnds (chase : list Span) (m : Mem World SkScalar)
           (o : outcome (Mem World SkScalar)
                        (option Segment * list Span * Z * Z)) : Prop :=
  match o with
  | Ret (found, chase', _, _) m' =>
      asserts m' = asserts m /\ simple m' = simple m /\
      chaseAfter chase found chase'
  | Undefined m' => asserts m' = asserts m /\ simple m' = simple m
  | OutOfFuel _ => False
  end.

End Chase.

End Chase.

(** ** Pre- and postconditions of a run *)

Module Triple.

Import ShapeOps.

(** From a state with [P], [m] returns a value and a state with [Q], and
    ends in a state with [I] when it does not return. *)
Definition triple {S A} (P : S -> Prop) (m : M S A)
           (Q : A -> S -> Prop) (I : S -> Prop) : Prop :=
  forall s, P s ->
    match m s with
    | Ret a s' => Q a s'
    | Undefined s' => I s'
    | OutOfFuel s' => I s'
    end.

(** The assertion [c] has not been violated so far. *)
Definition notRecorded {World SkScalar} (c : check) (m : Mem World SkScalar)
  : Prop :=
  ~ In c (asserts m).

End Triple.

(** ** Other helpers for the small implementation *)

Module Variants.

Import ShapeOps.

Section Variants.

Variables (Contour Segment Span Angle World SkScalar : Type).
Variable H : Simplify Contour Segment Span Angle World SkScalar.

(** [H] with another [Segment::activeOp]. *)
Definition with_activeOp
           (f : Segment -> Z -> Z -> Z -> Z -> ShapeOp -> World -> bool * World)
  : Simplify Contour Segment Span Angle World SkScalar :=
  mkSimplify
    (SK_MinS32 H) (SK_ScalarMin H) (kEvenOdd_Mask H) (TRY_ROTATE H)
    (angle_start H) (angle_end H) (angle_segment H) (fOther H)
    (fOtherIndex H) (span H) (activeAngle H) (SortAngles H) (windSumAngle H)
    (windSum H) (updateWindingReverse H) (updateOppWindingReverse H)
    (operand H) (setUpWindings H) (doneAngle H) (doneAt H) (done H)
    (markAngle H) (initWinding H) (computeSum H) f (findNextOp H) (verb H)
    (addCurveTo H) (markDoneBinary H) (markAndChaseDoneBinary H)
    (findSortableTop H) (innerContourCheck H) (makeContourList H)
    (addIntersectTs H) (segments_count H) (coincidenceCheck H)
    (fixOtherTIndex H) (sortSegments H) (EdgeBuilder H) (xorMask H)
    (addOperand H) (finish H) (PathWrapper H) (hasMove H) (isClosed H)
    (close H).

(** [H] with another [Segment::findNextOp]. *)
Definition with_findNextOp
           (f : Segment -> list Span -> Z -> Z -> bool -> ShapeOp -> Z -> Z ->
                World -> Next Segment Span * World)
  : Simplify Contour Segment Span Angle World SkScalar :=
  mkSimplify
    (SK_MinS32 H) (SK_ScalarMin H) (kEvenOdd_Mask H) (TRY_ROTATE H)
    (angle_start H) (angle_end H) (angle_segment H) (fOther H)
    (fOtherIndex H) (span H) (activeAngle H) (SortAngles H) (windSumAngle H)
    (windSum H) (updateWindingReverse H) (updateOppWindingReverse H)
    (operand H) (setUpWindings H) (doneAngle H) (doneAt H) (done H)
    (markAngle H) (initWinding H) (computeSum H) (activeOp H) f (verb H)
    (addCurveTo H) (markDoneBinary H) (markAndChaseDoneBinary H)
    (findSortableTop H) (innerContourCheck H) (makeContourList H)
    (addIntersectTs H) (segments_count H) (coincidenceCheck H)
    (fixOtherTIndex H) (sortSegments H) (EdgeBuilder H) (xorMask H)
    (addOperand H) (finish H) (PathWrapper H) (hasMove H) (isClosed H)
    (close H).

End Variants.

Arguments with_activeOp {Contour Segment Span Angle World SkScalar}.
Arguments with_findNextOp {Contour Segment Span Angle World SkScalar}.

(** The small implementation with no span active for any operator. *)
Definition inactive : Simplify nat Z Z Z Toy.Store Z :=
  with_activeOp (Toy.env true) (fun _ _ _ _ _ _ w => (false, w)).

(** The small implementation with every vertex sortable: a step that
    would land on an unsortable span ends the contour instead. *)
Definition sortable : Simplify nat Z Z Z Toy.Store Z :=
  with_findNextOp (Toy.env true)
    (fun _ chase index endIndex unsortable _ _ _ w =>
       match Toy.program w with
       | lineTo p :: _ =>
           if fY p =? 2 then (mkNext None chase index endIndex unsortable, w)
           else Toy.step chase index endIndex unsortable w
       | _ => Toy.step chase index endIndex unsortable w
       end).

End Variants.

(** ** The caller's paths

    [operate] takes its three paths by reference, and nothing keeps the
    caller from passing one object twice.  The objects of the caller are
    numbered; a call names the three it passes. *)

Module Caller.

Import ShapeOps.

Set Implicit Arguments.

Section Caller.

Variables (Contour Segment Span Angle World SkScalar : Type).
Variable H : Simplify Contour Segment Span Angle World SkScalar.






End Caller.


End Caller.

(** ** What the intersection test does with a pair of contours *)

Module Intersections.

Import ShapeOps.

Set Implicit Arguments.

Section Spec.

Variables (Contour Segment T : Type).

(** Modelled from the spec: [addIntersectTs] and what it calls are in
    Simplify.cpp, which is not in the excerpt.  Section 4.2 has
    [FindIntersections(segmentA, segmentB)] give a list of parameter pairs
    [(tA, tB)], computed by a root finder and merged within the tolerance
    ("pairs closer than the tolerance are treated as one intersection",
    the first computed being kept), and has it applied to every unordered
    pair of segments, a segment with itself included.  The root finder and
    the closeness test (floating point in the code) are parameters. *)
Variable segments : Contour -> list Segment.
Variable roots : Segment -> Segment -> list (T * T).
Variable closer : T * T -> T * T -> bool.

Definition keepFirst (kept : list (T * T)) (p : T * T) : list (T * T) :=
  if existsb (closer p) kept then kept else kept ++ [p].

Definition mergeRoots (computed : list (T * T)) : list (T * T) :=
  fold_left keepFirst computed [].

Definition FindIntersections (a b : Segment) : list (T * T) :=
  mergeRoots (roots a b).

(** One test of a pair of segments, with the intersections it found. *)
Record Test : Type := mkTest {
  segmentA : Segment;
  segmentB : Segment;
  crossings : list (T * T)
}.

Definition test (p : Segment * Segment) : Test :=
  mkTest (fst p) (snd p) (FindIntersections (fst p) (snd p)).

(** The tests for one pair of contours: for a contour with itself every
    unordered pair of its segments, for two contours every pair of a segment
    of the one and a segment of the other. *)
Definition contourTests (same : bool) (current next : Contour) : list Test :=
  map test (if same then pairsFrom (segments current)
            else list_prod (segments current) (segments next)).

Definition pairTests (same : Contour -> Contour -> bool)
           (pairs : list (Contour * Contour)) : list Test :=
  flat_map (fun p => contourTests (same (fst p) (snd p)) (fst p) (snd p)) pairs.

End Spec.

(** For the small implementation: a contour is one segment, and the tests
    made are read off the contour pairs it recorded. *)
Definition soleSegment (c : nat) : list Z := [Z.of_nat c].

Definition sampleRoots (a b : Z) : list (Z * Z) :=
  if a =? b then [] else [(0, 0); (1, 1); (5, 5); (6, 5)].

Definition within2 (p q : Z * Z) : bool :=
  (Z.abs (fst p - fst q) <? 2) && (Z.abs (snd p - snd q) <? 2).

Definition testsOf (w : Toy.Store) : list (Test Z Z) :=
  pairTests soleSegment sampleRoots within2 Nat.eqb (Toy.tested w).

(** Three contours, each lower than the one before it. *)
Definition descending : SkPath Z :=
  Toy.path [moveTo (mkPoint 1 9); moveTo (mkPoint 2 5); moveTo (mkPoint 3 0)].

End Intersections.

(** ** lb_resource_loader_bridge.cc: the perimeter check and file over HTTP

    The part of the loader bridge that decides on a response and rewrites
    file URLs.  [GURL], the two white lists and the file helpers of [net]
    are outside the excerpt and are variables of the section; the threads
    the methods run on play no part in what each call computes. *)

Module LoaderBridge.

Set Implicit Arguments.

Import String.

Inductive check : Type :=
| DCHECK_file_path_template_not_empty
| DCHECK_http_prefix_valid_http_or_https
| DCHECK_method_GET_POST_or_empty
| DCHECK_not_download_to_file
| DCHECK_starts_with_http_prefix
| NOTREACHED_FileURLToFilePath
| DCHECK_info_headers
| DCHECK_status_404_or_403
| DCHECK_NE_0_content_length.

(** The texts handed to [output_error], by format string. *)
Inductive message : Type :=
| failed_the_whitelist (spec : string)
| is_a_204_with_data_attached (spec : string)
| SSL_requirement_failed (spec : string) (status : Z) (mime_type : string)
| file_request_status_failed (spec : string).

(** [std::string::find] from the start: the index of the first occurrence,
    [None] for [npos]. *)
Definition find (haystack needle : string) : option nat :=
  index 0 needle haystack.

(** [s.replace(0, n, str)]: [n] is cut down to the size of [s]. *)
Definition replace_front (n : nat) (str s : string) : string :=
  append str (substring n (length s - n) s).

(** The positions are [size_t]; a position found plus the size of the needle
    is at most the size of the haystack, so the sum does not wrap. *)
Definition ends_with (haystack needle : string) : bool :=
  match find haystack needle with
  | Some pos => Nat.eqb (pos + length needle) (length haystack)
  | None => false
  end.

Record HttpResponseHeaders : Type := mkHeaders { response_code : Z }.

(** [headers] is a [scoped_refptr], [None] when it holds no object. *)
Record ResourceResponseInfo : Type := mkInfo {
  headers : option HttpResponseHeaders;
  content_length : Z;
  mime_type : string
}.

Section Bridge.

Local Open Scope run_scope.
Local Open Scope bool_scope.

Variable GURL : Type.
Variable newGURL : string -> GURL.
Variable spec : GURL -> string.
Variable host : GURL -> string.
Variable SchemeIs : GURL -> string -> bool.
Variable SchemeIsSecure : GURL -> bool.
Variable SchemeIsFile : GURL -> bool.
Variable is_valid : GURL -> bool.
Variable MatchDomainWhiteList : string -> bool.
Variable MatchMIMEWhiteList : string -> bool.
Variable FilePath : Type.
Variable FileURLToFilePath : GURL -> bool * FilePath.
Variable GetMimeTypeFromFile : FilePath -> string -> string.
Variable LOAD_BYPASS_CACHE : Z.
Variable ERR_FILE_NOT_FOUND : Z.
Variable ERR_ACCESS_DENIED : Z.

(** [__LB_SHELL__ENABLE_CONSOLE__] *)
Variable ENABLE_CONSOLE : bool.

Record FileOverHTTPParams : Type := mkFileOverHTTP {
  file_path_template : string;
  http_prefix : GURL
}.

Record RequestParams : Type := mkParams {
  url : GURL;
  method : string;
  download_to_file : bool;
  first_party_for_cookies : GURL;
  load_flags : Z
}.

(** The globals of the file (the two perimeter flags exist, and are read,
    only with the console compiled in), the two members of [RequestProxy]
    the conversions use, the errors put out and the checks violated. *)
Record Bridge : Type := mkBridge {
  g_perimeter_log_enabled : bool;
  g_perimeter_check_enabled : bool;
  g_file_over_http_params : option FileOverHTTPParams;
  file_url_prefix_ : string;
  failed_file_request_status_ : option Z;
  errors : list message;
  violated : list check
}.

Definition output_error (e : message) : M Bridge unit :=
  fun b => Ret tt (mkBridge (g_perimeter_log_enabled b)
                            (g_perimeter_check_enabled b)
                            (g_file_over_http_params b) (file_url_prefix_ b)
                            (failed_file_request_status_ b)
                            (errors b ++ [e]) (violated b)).

Definition DCHECK (c : check) (cond : bool) : M Bridge unit :=
  fun b => Ret tt (if cond then b
                   else mkBridge (g_perimeter_log_enabled b)
                                 (g_perimeter_check_enabled b)
                                 (g_file_over_http_params b)
                                 (file_url_prefix_ b)
                                 (failed_file_request_status_ b)
                                 (errors b) (violated b ++ [c])).

Definition set_members (prefix : string) (failed : option Z) : M Bridge unit :=
  fun b => Ret tt (mkBridge (g_perimeter_log_enabled b)
                            (g_perimeter_check_enabled b)
                            (g_file_over_http_params b) prefix failed
                            (errors b) (violated b)).

(** [LBResourceLoaderBridge::AllowFileOverHTTP] *)
Definition AllowFileOverHTTP (template : string) (prefix_ : GURL)
  : M Bridge unit :=
  DCHECK DCHECK_file_path_template_not_empty (negb (eqb template "")) ;;;
  DCHECK DCHECK_http_prefix_valid_http_or_https
         (is_valid prefix_
          && (SchemeIs prefix_ "http"%string || SchemeIs prefix_ "https"%string)) ;;;
  fun b => Ret tt (mkBridge (g_perimeter_log_enabled b)
                            (g_perimeter_check_enabled b)
                            (Some (mkFileOverHTTP template prefix_))
                            (file_url_prefix_ b)
                            (failed_file_request_status_ b)
                            (errors b) (violated b)).

Definition SetPerimeterCheckLogging (enabled : bool) : M Bridge unit :=
  fun b => Ret tt (mkBridge enabled (g_perimeter_check_enabled b)
                            (g_file_over_http_params b) (file_url_prefix_ b)
                            (failed_file_request_status_ b)
                            (errors b) (violated b)).

Definition SetPerimeterCheckEnabled (enabled : bool) : M Bridge unit :=
  fun b => Ret tt (mkBridge (g_perimeter_log_enabled b) enabled
                            (g_file_over_http_params b) (file_url_prefix_ b)
                            (failed_file_request_status_ b)
                            (errors b) (violated b)).

Definition output_whitelist_error (e : message) : M Bridge unit :=
  fun b => if ENABLE_CONSOLE
           then (if g_perimeter_log_enabled b then output_error e b
                 else Ret tt b)
           else output_error e b.

(** [info.headers->response_code()]: undefined without headers. *)
Definition headers_response_code (info : ResourceResponseInfo) : M Bridge Z :=
  match headers info with
  | Some h => ret (response_code h)
  | None => undefined
  end.

Definition is_204 (response : ResourceResponseInfo) : M Bridge bool :=
  code <- headers_response_code response ;;
  ret (code =? 204)%Z.

Definition whitelisted (u : GURL) (response : ResourceResponseInfo)
  : M Bridge bool :=
  if MatchDomainWhiteList (host u) then ret true
  else output_whitelist_error (failed_the_whitelist (spec u)) ;;; ret false.

Definition NeedsSSL (mime : string) : bool := negb (MatchMIMEWhiteList mime).

(** What the check returns where it does not pass: with the console
    compiled in, the negation of [g_perimeter_check_enabled]. *)
Definition not_enforced : M Bridge bool :=
  fun b => Ret (if ENABLE_CONSOLE then negb (g_perimeter_check_enabled b)
                else false) b.

Definition DoesHttpResponsePassSecurityCheck (u : GURL)
           (info : ResourceResponseInfo) : M Bridge bool :=
  if SchemeIs u "local"%string then ret true
  else
    no_content <- is_204 info ;;
    if no_content && (content_length info =? 0)%Z then ret true
    else
      listed <- whitelisted u info ;;
      if negb listed then not_enforced
      else
        no_content <- is_204 info ;;
        if no_content then
          DCHECK DCHECK_NE_0_content_length (negb (0 =? content_length info)%Z) ;;;
          output_whitelist_error (is_a_204_with_data_attached (spec u)) ;;;
          ret false
        else if NeedsSSL (mime_type info) && negb (SchemeIsSecure u) then
          code <- headers_response_code info ;;
          output_whitelist_error
            (SSL_requirement_failed (spec u) code (mime_type info)) ;;;
          not_enforced
        else ret true.

(** [RequestProxy::ConvertRequestParamsForFileOverHTTPIfNeeded]; the
    parameters are changed in place, so they are returned. *)
Definition ConvertRequestParamsForFileOverHTTPIfNeeded (params : RequestParams)
  : M Bridge RequestParams :=
  set_members ""%string None ;;;
  fun b =>
    match g_file_over_http_params b with
    | None => Ret params b
    | Some g =>
        if negb (SchemeIsFile (url params)) then Ret params b
        else
          (DCHECK DCHECK_method_GET_POST_or_empty
                  (eqb (method params) "GET" || eqb (method params) "POST"
                   || eqb (method params) "") ;;;
           DCHECK DCHECK_not_download_to_file (negb (download_to_file params)) ;;;
           let method_ := if eqb (method params) "" then "GET"%string
                          else method params in
           let params := mkParams (url params) method_ (download_to_file params)
                                  (first_party_for_cookies params)
                                  (load_flags params) in
           let original_request := spec (url params) in
           match find original_request (file_path_template g) with
           | None => ret params
           | Some found =>
               let found := (found + length (file_path_template g))%nat in
               set_members (substring 0 found original_request) None ;;;
               let original_request :=
                 replace_front found (spec (http_prefix g)) original_request in
               let u := newGURL original_request in
               ret (mkParams u method_ (download_to_file params) u
                             LOAD_BYPASS_CACHE)
           end) b
    end.

(** [RequestProxy::ConvertResponseInfoForFileOverHTTPIfNeeded];
    [request_url] is [request->url()]. *)
Definition ConvertResponseInfoForFileOverHTTPIfNeeded (request_url : GURL)
           (info : ResourceResponseInfo)
  : M Bridge (bool * ResourceResponseInfo) :=
  fun b =>
    match g_file_over_http_params b with
    | None => Ret (false, info) b
    | Some g =>
        if eqb (file_url_prefix_ b) "" then Ret (false, info) b
        else
          (let original_request := spec request_url in
           let http_prefix_ := spec (http_prefix g) in
           DCHECK DCHECK_starts_with_http_prefix
                  (negb (eqb original_request "")
                   && prefix http_prefix_ original_request) ;;;
           let original_request :=
             replace_front (length http_prefix_) (file_url_prefix_ b)
                           original_request in
           let converted := FileURLToFilePath (newGURL original_request) in
           DCHECK NOTREACHED_FileURLToFilePath (fst converted) ;;;
           let file_path := snd converted in
           DCHECK DCHECK_info_headers
                  (match headers info with Some _ => true | None => false end) ;;;
           status_code <- headers_response_code info ;;
           if (200 =? status_code)%Z
           then ret (true, mkInfo None (content_length info)
                                  (GetMimeTypeFromFile file_path ""%string))
           else
             DCHECK DCHECK_status_404_or_403
                    ((status_code =? 404)%Z || (status_code =? 403)%Z) ;;;
             set_members (file_url_prefix_ b)
                         (Some (if (status_code =? 404)%Z
                                then ERR_FILE_NOT_FOUND
                                else ERR_ACCESS_DENIED)) ;;;
             ret (true, mkInfo None (content_length info) ""%string)) b
    end.

(** What [OnResponseStarted] goes on to do. *)
Inductive action : Type :=
| Done
| AsyncCancel
| OnReceivedResponse_AsyncReadData (info : ResourceResponseInfo).

(** [RequestProxy::OnResponseStarted]: [success] is
    [request->status().is_success()], [populated] the info that
    [PopulateResponseInfo] fills in from the request. *)
Definition OnResponseStarted (success : bool) (request_url : GURL)
           (populated : ResourceResponseInfo) : M Bridge action :=
  if success then
    c <- ConvertResponseInfoForFileOverHTTPIfNeeded request_url populated ;;
    let '(converted, info) := c in
    failed <- (fun b => Ret (failed_file_request_status_ b) b) ;;
    error <- (if converted
                 && match failed with Some _ => true | None => false end
              then output_error (file_request_status_failed (spec request_url)) ;;;
                   ret true
              else
                pass <- DoesHttpResponsePassSecurityCheck request_url info ;;
                ret (negb pass)) ;;
    if error then ret AsyncCancel
    else ret (OnReceivedResponse_AsyncReadData info)
  else ret Done.

End Bridge.

End LoaderBridge.

(** A plain instance of what the loader bridge takes from elsewhere, to run
    it: a URL is its text, a scheme is a prefix of it, the host is the whole
    text, and a file path is the text of its URL. *)

Module Plain.

Import String LoaderBridge.
Local Open Scope string_scope.

Definition GURL : Type := string.
Definition newGURL (s : string) : GURL := s.
Definition spec (u : GURL) : string := u.
Definition host (u : GURL) : string := u.
Definition SchemeIs (u : GURL) (scheme : string) : bool :=
  prefix (append scheme ":") u.
Definition SchemeIsSecure (u : GURL) : bool := SchemeIs u "https".
Definition SchemeIsFile (u : GURL) : bool := SchemeIs u "file".
Definition MatchDomainWhiteList (h : string) : bool :=
  prefix "https://listed.example/" h || prefix "http://listed.example/" h.
Definition MatchMIMEWhiteList (m : string) : bool := eqb m "image/png".
Definition FileURLToFilePath (u : GURL) : bool * string := (SchemeIsFile u, u).
Definition GetMimeTypeFromFile (p : string) (m : string) : string :=
  if prefix "file:///content/a.css" p then "text/css" else m.
Definition LOAD_BYPASS_CACHE : Z := 2.
Definition ERR_FILE_NOT_FOUND : Z := -6.
Definition ERR_ACCESS_DENIED : Z := -10.

(** The state a process starts in. *)
Definition start : Bridge GURL := mkBridge true true None "" None [] [].

(** After [AllowFileOverHTTP("/content/", "http://dev.example/")] and the
    conversion of a request for [file:///content/a.css]. *)
Definition serving : Bridge GURL :=
  mkBridge true true
           (Some (mkFileOverHTTP "/content/" "http://dev.example/"))
           "file:///content/" None [] [].

Definition html (code length : Z) : ResourceResponseInfo :=
  mkInfo (Some (mkHeaders code)) length "text/html".

End Plain.

(** ** Uses of the scanner

    The callers of [AutofillScanner] (the form-field parsers) are not part
    of the excerpt; a use of the class is a sequence of calls of its public
    methods. *)

Module Scanning.

Import Autofill.

Inductive method : Type :=
| callAdvance
| callCursor
| callIsEnd
| callRewind
| callRewindTo (index : N)
| callSaveCursor.

Section Scanning.

Variable AutofillField : Type.

Local Open Scope run_scope.

(** One call, its value dropped. [RewindTo] takes a [size_t]. *)
Definition invoke (c : method) : M (Scan AutofillField) unit :=
  match c with
  | callAdvance => Advance
  | callCursor => _ <- Cursor ;; ret tt
  | callIsEnd => ret tt
  | callRewind => Rewind
  | callRewindTo index => RewindTo (Z.of_N index)
  | callSaveCursor => _ <- SaveCursor ;; ret tt
  end.

Fixpoint invokeAll (calls : list method) : M (Scan AutofillField) unit :=
  match calls with
  | [] => ret tt
  | c :: rest => invoke c ;;; invokeAll rest
  end.

(** [n] calls of [Advance] in a row. *)
Fixpoint advances (n : nat) : M (Scan AutofillField) unit :=
  match n with
  | O => ret tt
  | S n' => Advance ;;; advances n'
  end.

(** The iterators of a scanner are those of its vector: [begin_] and
    [end_] delimit it, the cursor and the saved cursor lie within. *)
Definition inVector (s : Scan AutofillField) : Prop :=
  begin_ (this s) = 0 /\
  end_ (this s) = Z.of_nat (length (vector s)) /\
  0 <= cursor_ (this s) <= end_ (this s) /\
  0 <= saved_cursor_ (this s) <= end_ (this s).

End Scanning.

Arguments invoke {AutofillField}.
Arguments invokeAll {AutofillField}.
Arguments advances {AutofillField}.
Arguments inVector {AutofillField}.

End Scanning.

(** * Properties *)

(** ** The scanner *)

Module AutofillFacts.

Import Autofill.

Section Facts.

Variable AutofillField : Type.
Implicit Type s : Scan AutofillField.

Lemma IsEnd_new (fields : list (FieldPtr AutofillField)) :
  IsEnd (new fields) = match fields with [] => true | _ => false end.
Proof.
  unfold IsEnd, new. destruct fields; reflexivity.
Qed.

(** Away from the end, on a scanner whose iterators are those of its
    vector, [Cursor] reads the element under the cursor. *)
Lemma Cursor_in_range s :
  begin_ (this s) = 0 -> end_ (this s) = Z.of_nat (length (vector s)) ->
  0 <= cursor_ (this s) < end_ (this s) ->
  exists p, Cursor s = Ret p s /\
            nth_error (vector s) (Z.to_nat (cursor_ (this s))) = Some p.
Proof.
  intros _ He Hc. unfold Cursor, IsEnd.
  destruct (Z.eqb_spec (cursor_ (this s)) (end_ (this s))) as [E|_]; [lia|].
  unfold deref.
  assert (Hlt : (Z.to_nat (cursor_ (this s)) < length (vector s))%nat) by lia.
  destruct (nth_error (vector s) (Z.to_nat (cursor_ (this s)))) as [p|] eqn:E.
  - exists p. split; [|reflexivity].
    replace (0 <=? cursor_ (this s)) with true by (symmetry; apply Z.leb_le; lia).
    replace (cursor_ (this s) <? Z.of_nat (length (vector s))) with true
      by (symmetry; apply Z.ltb_lt; lia).
    reflexivity.
  - apply nth_error_None in E. lia.
Qed.

(** C9. With the cursor at the end of the list, [Cursor] hands back the
    null pointer without reading the vector (the state is untouched but for
    the [NOTREACHED] that is noted), and [Advance] notes the violation of its
    [DCHECK(!IsEnd())]; with the cursor elsewhere [Advance] violates nothing
    and moves the cursor on by one. *)
Theorem Cursor_at_end_is_null s :
  (IsEnd s = true ->
     Cursor s = Ret None (noted NOTREACHED_Cursor s) /\
     violated (final (Advance s)) = violated s ++ [DCHECK_Advance_not_IsEnd]) /\
  (IsEnd s = false ->
     Advance s = Ret tt (mkScan (mkScanner (cursor_ (this s) + 1)
                                           (saved_cursor_ (this s))
                                           (begin_ (this s)) (end_ (this s)))
                                (vector s) (violated s))).
Proof.
  split; intros E.
  - split.
    + unfold Cursor. rewrite E. reflexivity.
    + unfold Advance, bind, DCHECK. rewrite E. reflexivity.
  - unfold Advance, bind, DCHECK. rewrite E. simpl. destruct s; reflexivity.
Qed.

End Facts.

Lemma Cursor_at_end_is_null_witness :
  IsEnd Toy.scannerAtEnd = true /\
  Cursor Toy.scannerAtEnd
  = Ret None (mkScan (mkScanner 2 0 0 2) [Some 10%nat; Some 11%nat]
                     [NOTREACHED_Cursor]) /\
  violated (final (Advance Toy.scannerAtEnd)) = [DCHECK_Advance_not_IsEnd].
Proof.
  split; [reflexivity|].
  apply (proj1 (Cursor_at_end_is_null nat Toy.scannerAtEnd)). reflexivity.
Defined.

End AutofillFacts.

(** ** The path-operation driver *)

Module ShapeOpsFacts.

Import ShapeOps.

(** C4. For each of the four operators and all winding sums on the two
    sides of an edge, the active-operator test of section 4.6 holds exactly
    when the operator's predicate on (inside A, inside B) takes different
    values before and after the edge, a span being inside an operand when
    its winding sum for it is non-zero. *)
Theorem IsActive_iff_predicate_differs (op : ShapeOp)
        (beforeA beforeB afterA afterB : Z) :
  IsActive op beforeA beforeB afterA afterB = true <->
  predicate op (inside beforeA) (inside beforeB)
  <> predicate op (inside afterA) (inside afterB).
Proof.
  unfold IsActive, predicate, exactlyOneSide.
  destruct op, (inside beforeA), (inside beforeB), (inside afterA),
    (inside afterB); simpl; split; intro E;
    solve [reflexivity | discriminate | exfalso; apply E; reflexivity].
Qed.

(** The sixteen-by-four truth table of the test, counted: six active
    transitions for union, intersection and difference, eight for xor. *)
Lemma IsActive_table_counts :
  let sides := [(0, 0); (0, 1); (1, 0); (1, 1)] in
  let count op :=
    length (filter (fun t => IsActive op (fst (fst t)) (snd (fst t))
                                      (fst (snd t)) (snd (snd t)))
                   (list_prod sides sides)) in
  (count kUnion_Op, count kIntersect_Op, count kDifference_Op, count kXor_Op)
  = (6%nat, 6%nat, 6%nat, 8%nat).
Proof. reflexivity. Qed.

Section Facts.

Variables (Contour Segment Span Angle World SkScalar : Type).
Variable H : Simplify Contour Segment Span Angle World SkScalar.

(** *** The empty contour list *)

(** C10. When [makeContourList] yields no contour, [operate] returns at
    once, for every iteration bound: [result] is the path without commands
    and with even-odd fill, the store is the one [makeContourList] left, so
    that no later phase has touched it, and nothing is asserted. *)
Theorem operate_empty_contour_list (bound : nat) (one two result : SkPath SkScalar)
        (op : ShapeOp) :
  let w0 := EdgeBuilder H one in
  let w1 := finish H (addOperand H two w0) in
  let made := makeContourList H (xorMask H w0 =? kEvenOdd_Mask H)
                              (xorMask H w1 =? kEvenOdd_Mask H) w1 in
  fst made = [] ->
  operate H bound one two op result
  = Ret tt (mkMem (snd made) (mkPath kEvenOdd_FillType []) []) /\
  operate_closable H bound one two op result
  = Ret None (mkMem (snd made) (mkPath kEvenOdd_FillType []) []).
Proof.
  intros w0 w1 made E.
  unfold operate, operate_closable, operate_run, operate_contours, operate_entry,
    bind, read, exec, call; simpl.
  fold w0. fold w1. fold made.
  destruct made as [cl w2]. simpl in E. subst cl. split; reflexivity.
Qed.

(** *** The intersection phase *)

Lemma addAll_app (l1 l2 : list (Contour * Contour)) (w : World) :
  addAll H (l1 ++ l2) w = addAll H l2 (addAll H l1 w).
Proof. unfold addAll. apply fold_left_app. Qed.

Lemma pairsFrom_row (current c : Contour) (rest : list Contour) :
  In c (current :: rest) -> In (current, c) (pairsFrom (current :: rest)).
Proof.
  intros Hin. cbn [pairsFrom]. apply in_or_app. left.
  apply in_map. exact Hin.
Qed.

Lemma pairsFrom_complete (contourList : list Contour) :
  forall i j ci cj, (i <= j)%nat ->
    nth_error contourList i = Some ci -> nth_error contourList j = Some cj ->
    In (ci, cj) (pairsFrom contourList).
Proof.
  induction contourList as [|current rest IH]; intros i j ci cj Hle Hi Hj.
  - destruct i; discriminate.
  - destruct i as [|i].
    + injection Hi as <-. apply pairsFrom_row.
      eapply nth_error_In; eassumption.
    + destruct j as [|j]; [lia|].
      cbn [pairsFrom]. apply in_or_app. right.
      apply (IH i j); [lia|assumption|assumption].
Qed.

(** *** What the driver leaves standing in [result] *)

Lemma keeps_ret {S A} (P : S -> Prop) (a : A) : keeps P (ret a).
Proof. intros s Hs. exact Hs. Qed.

Lemma keeps_undefined {S A} (P : S -> Prop) : keeps P (@undefined S A).
Proof. intros s Hs. exact Hs. Qed.

Lemma keeps_out_of_fuel {S A} (P : S -> Prop) : keeps P (@out_of_fuel S A).
Proof. intros s Hs. exact Hs. Qed.

Lemma keeps_bind {S A B} (P : S -> Prop) (m : M S A) (k : A -> M S B) :
  keeps P m -> (forall a, keeps P (k a)) -> keeps P (bind m k).
Proof.
  intros Hm Hk s Hs. unfold bind. specialize (Hm s Hs).
  destruct (m s) as [a s'|s'|s']; simpl in *; try apply Hk; assumption.
Qed.

Section Path.

(** A property of the path that the two writers of [PathWrapper] used by
    the driver pass on. *)
Variable Q : SkPath SkScalar -> Prop.
Hypothesis Q_addCurveTo :
  forall s index endIndex active w p,
    Q p -> Q (snd (addCurveTo H s index endIndex active w p)).
Hypothesis Q_close : forall w p, Q p -> Q (snd (close H w p)).

Let P : Mem World SkScalar -> Prop := onSimple Q.

Lemma keeps_call {A} (f : World -> A * World) : keeps P (call f).
Proof. intros m Hm. unfold call. destruct (f (heap m)). exact Hm. Qed.

Lemma keeps_exec (f : World -> World) : keeps P (exec (SkScalar:=SkScalar) f).
Proof. intros m Hm. exact Hm. Qed.

Lemma keeps_read {A} (f : World -> A) : keeps P (read f).
Proof. intros m Hm. exact Hm. Qed.

Lemma keeps_readPath {A} (f : World -> SkPath SkScalar -> A) :
  keeps P (readPath f).
Proof. intros m Hm. exact Hm. Qed.

Lemma keeps_SkASSERT (c : check) (cond : bool) : keeps P (SkASSERT c cond).
Proof. intros m Hm. unfold SkASSERT. destruct cond; exact Hm. Qed.

Lemma keeps_addCurveTo s index endIndex active :
  keeps P (onPath (addCurveTo H s index endIndex active)).
Proof.
  intros m Hm. unfold onPath.
  pose proof (Q_addCurveTo s index endIndex active (heap m) (simple m) Hm) as Hq.
  destruct (addCurveTo H s index endIndex active (heap m) (simple m)).
  exact Hq.
Qed.

Lemma keeps_close : keeps P (onPath (close H)).
Proof.
  intros m Hm. unfold onPath.
  pose proof (Q_close (heap m) (simple m) Hm) as Hq.
  destruct (close H (heap m) (simple m)). exact Hq.
Qed.

Ltac keeps_step :=
  match goal with
  | |- keeps _ (bind _ _) => apply keeps_bind; [|intro]
  | |- keeps _ (ret _) => apply keeps_ret
  | |- keeps _ undefined => apply keeps_undefined
  | |- keeps _ out_of_fuel => apply keeps_out_of_fuel
  | |- keeps _ (call _) => apply keeps_call
  | |- keeps _ (exec _) => apply keeps_exec
  | |- keeps _ (read _) => apply keeps_read
  | |- keeps _ (readPath _) => apply keeps_readPath
  | |- keeps _ (SkASSERT _ _) => apply keeps_SkASSERT
  | |- keeps _ (onPath (addCurveTo _ _ _ _ _)) => apply keeps_addCurveTo
  | |- keeps _ (onPath (close _)) => apply keeps_close
  | IH : forall _, _ |- keeps _ _ => solve [apply IH]
  | |- keeps _ (match ?x with _ => _ end) => destruct x
  end.

Ltac keeps_all := repeat keeps_step.

Lemma keeps_firstWound sorted index : keeps P (firstWound H sorted index).
Proof.
  revert index. induction sorted as [|angle rest IH]; intros index;
    cbn [firstWound]; keeps_all.
Qed.

Lemma keeps_markAngles n sorted angleCount firstIndex lastIndex nextIndex
      sumMi sumSu first nextStart nextEnd :
  keeps P (markAngles H n sorted angleCount firstIndex lastIndex nextIndex
                      sumMi sumSu first nextStart nextEnd).
Proof.
  revert nextIndex sumMi sumSu first nextStart nextEnd.
  induction n as [|n IH]; intros; cbn [markAngles]; keeps_all.
Qed.

Lemma keeps_findChaseOp chase nextStart nextEnd :
  keeps P (findChaseOp H chase nextStart nextEnd).
Proof.
  unfold findChaseOp. generalize (length chase) as n.
  intros n. revert chase nextStart nextEnd.
  induction n as [|n IH]; intros; cbn [findChaseOp_loop]; keeps_all;
    try apply keeps_firstWound; try apply keeps_markAngles; keeps_all.
Qed.

Lemma keeps_findSortableTopNew bound contourList firstContour topLeft unsortable :
  keeps P (findSortableTopNew H bound contourList firstContour topLeft unsortable).
Proof.
  unfold findSortableTopNew. generalize true at 1 2 as allowTies.
  intros allowTies. generalize allowTies at 2 as first. intros first.
  revert firstContour topLeft unsortable allowTies first.
  induction bound as [|n IH]; intros; cbn [findSortableTopNew_loop]; keeps_all.
Qed.

Lemma keeps_bridgeOp_trace op xm xom n chase unsortable current index endIndex :
  keeps P (bridgeOp_trace H op xm xom n chase unsortable current index endIndex).
Proof.
  revert chase unsortable current index endIndex.
  induction n as [|n IH]; intros; cbn [bridgeOp_trace]; keeps_all.
Qed.

Lemma keeps_bridgeOp_contour bound op xm xom chase unsortable closable
      current index endIndex :
  keeps P (bridgeOp_contour H bound op xm xom chase unsortable closable
                            current index endIndex).
Proof.
  unfold bridgeOp_contour. keeps_all.
  apply keeps_bridgeOp_trace.
Qed.

Lemma keeps_bridgeOp_spans bound op xm xom n chase unsortable closable
      current index endIndex :
  keeps P (bridgeOp_spans H bound op xm xom n chase unsortable closable
                          current index endIndex).
Proof.
  revert chase unsortable closable current index endIndex.
  induction n as [|n IH]; intros; cbn [bridgeOp_spans]; keeps_all;
    try apply keeps_bridgeOp_contour; try apply keeps_findChaseOp; keeps_all.
Qed.

Lemma keeps_bridgeOp_loop bound contourList op xm xom n fr :
  keeps P (bridgeOp_loop H bound contourList op xm xom n fr).
Proof.
  revert fr.
  induction n as [|n IH]; intros; cbn [bridgeOp_loop]; keeps_all;
    try apply keeps_findSortableTopNew; try apply keeps_bridgeOp_spans;
    keeps_all.
Qed.

Lemma keeps_intersectFrom current nexts : keeps P (intersectFrom H current nexts).
Proof.
  induction nexts as [|next rest IH]; cbn [intersectFrom]; keeps_all.
  exact IH.
Qed.

Lemma keeps_findIntersections contourList :
  keeps P (findIntersections H contourList).
Proof.
  induction contourList as [|current rest IH]; cbn [findIntersections];
    keeps_all; [apply keeps_intersectFrom|exact IH].
Qed.

Lemma keeps_countSegments contourList total :
  keeps P (countSegments H contourList total).
Proof.
  revert total.
  induction contourList as [|c rest IH]; intros; cbn [countSegments]; keeps_all.
Qed.

Lemma keeps_operate_run bound two op : keeps P (operate_run H bound two op).
Proof.
  unfold operate_run, operate_contours, bridgeOp. keeps_all;
    try apply keeps_findIntersections; try apply keeps_countSegments;
    try apply keeps_bridgeOp_loop; keeps_all.
Qed.

End Path.

(** C7. Provided the two writers of [PathWrapper] the driver calls,
    [addCurveTo] and [close], keep the fill type of the path they write to,
    [result] has the even-odd fill type in whatever state [operate] ends,
    for all operands, operators and iteration bounds and whatever the fill
    type of [one], [two] and of the previous [result]. *)
Theorem operate_result_even_odd (bound : nat)
        (one two result : SkPath SkScalar) (op : ShapeOp) :
  (forall s index endIndex active w p,
     fFillType (snd (addCurveTo H s index endIndex active w p)) = fFillType p) ->
  (forall w p, fFillType (snd (close H w p)) = fFillType p) ->
  fFillType (simple (final (operate H bound one two op result)))
  = kEvenOdd_FillType.
Proof.
  intros Hadd Hclose. unfold operate.
  apply (keeps_operate_run (fun p => fFillType p = kEvenOdd_FillType)).
  - intros s index endIndex active w p Hp. rewrite Hadd. exact Hp.
  - intros w p Hp. rewrite Hclose. exact Hp.
  - reflexivity.
Qed.

(** *** Seeding of the winding *)


Ltac derive_tail IH Hrun Hcur :=
  unfold bind at 1 in Hrun; unfold call at 1 in Hrun; cbn [heap] in Hrun;
  match type of Hrun with
  | context [innerContourCheck H ?cl ?cur ?i ?e false ?w] =>
      let cw := fresh "cw" in
      let w3 := fresh "w" in
      let Ec := fresh "Ec" in
      let Ecw := fresh "Ecw" in
      destruct (innerContourCheck H cl cur i e false w) as [cw w3] eqn:Ec;
      destruct (cw =? SK_MinS32 H) eqn:Ecw;
      [ exact (IH _ _ _ _ _ _ _ _ Hrun Hcur)
      | unfold bind at 1 in Hrun; unfold call at 1 in Hrun; cbn [heap] in Hrun;
        let ow := fresh "ow" in
        let w4 := fresh "w" in
        let Eo := fresh "Eo" in
        let Eow := fresh "Eow" in
        destruct (innerContourCheck H cl cur i e true w3) as [ow w4] eqn:Eo;
        destruct (ow =? SK_MinS32 H) eqn:Eow;
        [ exact (IH _ _ _ _ _ _ _ _ Hrun Hcur)
        | cbn in Hrun; injection Hrun as <- <-; cbn in Hcur |- *;
          injection Hcur as <-; split; [reflexivity|];
          right; exists w; cbn; rewrite Ec; cbn; rewrite Eo; cbn;
          apply Z.eqb_neq in Ecw; apply Z.eqb_neq in Eow; auto ] ]
  end.

Lemma findSortableTopNew_derived (n : nat) (contourList : list Contour) :
  forall (topLeft : SkPoint SkScalar) (unsortable allowTies first : bool)
         (m m' : Mem World SkScalar) (t : TopNew Segment SkScalar)
         (current : Segment),
    findSortableTopNew_loop H n contourList false topLeft unsortable
                            allowTies first m = Ret t m' ->
    new_current t = Some current ->
    new_firstContour t = false /\
    derived H contourList current (new_index t) (new_endIndex t) (heap m').
Proof.
  induction n as [|n IH]; intros topLeft unsortable allowTies first m m' t
                                 current Hrun Hcur.
  - discriminate Hrun.
  - cbn [findSortableTopNew_loop] in Hrun. unfold bind at 1 in Hrun.
    unfold call at 1 in Hrun.
    destruct (findSortableTop H contourList topLeft unsortable allowTies true
                              (heap m)) as [tp w1].
    destruct (top_current tp) as [cur|] eqn:Etop.
    + cbn [negb] in Hrun. unfold bind at 1 in Hrun. unfold read at 1 in Hrun.
      cbn [heap] in Hrun. unfold bind at 1 in Hrun.
      destruct (windSum H cur (Z.min (top_index tp) (top_endIndex tp)) w1
                =? SK_MinS32 H) eqn:Esum.
      * unfold bind at 1 in Hrun. unfold call at 1 in Hrun. cbn [heap] in Hrun.
        destruct (computeSum H cur (top_index tp) (top_endIndex tp) true w1)
          as [sum w2] eqn:Ecomp.
        unfold ret at 1 in Hrun.
        destruct (sum =? SK_MinS32 H) eqn:Esum2; cbn [negb] in Hrun.
        -- derive_tail IH Hrun Hcur.
        -- injection Hrun as <- <-. cbn in Hcur |- *. injection Hcur as <-.
           split; [reflexivity|]. left. exists w1.
           apply Z.eqb_eq in Esum. apply Z.eqb_neq in Esum2.
           rewrite Ecomp. cbn. auto.
      * unfold ret at 1 in Hrun. derive_tail IH Hrun Hcur.
    + destruct first; cbn in Hrun; injection Hrun as <- <-; discriminate Hcur.
Qed.

(** *** The value of [bridgeOp] *)

Lemma yields_bind {S A B} (R : B -> Prop) (m : M S A) (k : A -> M S B) :
  (forall a, yields R (k a)) -> yields R (bind m k).
Proof.
  intros Hk s b s' E. unfold bind in E.
  destruct (m s) as [a s1|s1|s1]; try discriminate E.
  exact (Hk a s1 b s' E).
Qed.

Lemma yields_bind_with {S A B} (R1 : A -> Prop) (R : B -> Prop)
      (m : M S A) (k : A -> M S B) :
  yields R1 m -> (forall a, R1 a -> yields R (k a)) -> yields R (bind m k).
Proof.
  intros Hm Hk s b s' E. unfold bind in E.
  destruct (m s) as [a s1|s1|s1] eqn:Em; try discriminate E.
  exact (Hk a (Hm s a s1 Em) s1 b s' E).
Qed.

Lemma yields_ret {S A} (R : A -> Prop) (a : A) : R a -> yields R (@ret S A a).
Proof. intros Ha s a' s' E. injection E as <- _. exact Ha. Qed.

Lemma yields_out_of_fuel {S A} (R : A -> Prop) : yields R (@out_of_fuel S A).
Proof. intros s a s' E. discriminate E. Qed.

Ltac yields_step :=
  match goal with
  | |- yields _ (bind _ _) => apply yields_bind; intro
  | |- yields _ (ret _) => apply yields_ret
  | |- yields _ out_of_fuel => apply yields_out_of_fuel
  | IH : forall _, _ |- yields _ _ => solve [apply IH]
  | |- yields _ (match ?x with _ => _ end) => destruct x
  end.

(** A contour traced with [closable] off leaves it off. *)
Lemma bridgeOp_contour_stays_false bound op xm xom chase unsortable
      current index endIndex :
  yields (fun r => snd (fst (fst r)) = false)
         (bridgeOp_contour H bound op xm xom chase unsortable false
                           current index endIndex).
Proof.
  unfold bridgeOp_contour.
  apply yields_bind; intro t. apply yields_bind; intro ic.
  apply (yields_bind_with (fun c => c = false)).
  - destruct (tr_active t && negb ic); repeat yields_step; reflexivity.
  - intros c ->. repeat yields_step. reflexivity.
Qed.

Lemma bridgeOp_spans_stays_false bound op xm xom n :
  forall chase uns current index endIndex,
    yields (fun r => snd r = false)
           (bridgeOp_spans H bound op xm xom n chase uns false
                           current index endIndex).
Proof.
  induction n as [|n IH]; intros chase uns current index endIndex;
    cbn [bridgeOp_spans].
  - apply yields_out_of_fuel.
  - apply yields_bind; intros a.
    apply (yields_bind_with (fun r => snd (fst (fst r)) = false)).
    + destruct a.
      * apply bridgeOp_contour_stays_false.
      * repeat yields_step; reflexivity.
    + intros [[[[ch u] c] i] e] Hc. simpl in Hc. subst c.
      repeat yields_step. reflexivity.
Qed.

Lemma bridgeOp_loop_stays_false bound contourList op xm xom n :
  forall fr, closable fr = false ->
    yields (fun b => b = false)
           (bridgeOp_loop H bound contourList op xm xom n fr).
Proof.
  induction n as [|n IH]; intros fr Hfr; cbn [bridgeOp_loop].
  - apply yields_out_of_fuel.
  - apply yields_bind; intros t. destruct (new_current t) as [current|].
    + rewrite Hfr. apply (yields_bind_with (fun r => snd r = false)).
      * apply bridgeOp_spans_stays_false.
      * intros [u c] Hc. simpl in Hc. subst c. apply IH. reflexivity.
    + destruct (new_unsortable t).
      * apply yields_bind; intros _. apply IH. exact Hfr.
      * apply yields_ret. exact Hfr.
Qed.

Lemma operate_as_closable (bound : nat) (one two result : SkPath SkScalar)
      (op : ShapeOp) :
  operate H bound one two op result
  = match operate_closable H bound one two op result with
    | Ret _ m => Ret tt m
    | Undefined m => Undefined m
    | OutOfFuel m => OutOfFuel m
    end.
Proof.
  unfold operate, operate_closable, operate_run, bind.
  destruct (operate_contours H two (operate_entry H one result))
    as [[[[cl xm] xom]|] s1|s1|s1]; try reflexivity.
  unfold exec.
  destruct (bridgeOp H bound cl op xm xom _); reflexivity.
Qed.

End Facts.

(** A later contour of the small implementation: its winding comes from the
    two containment checks. *)
Lemma later_contour_is_derived :
  let m := mkMem (Toy.mkStore [moveTo (mkPoint 2 5)] [0; 5] [] [(7, 0, 0)] [] false)
                 (mkPath kEvenOdd_FillType []) [] in
  Toy.seeded (heap (final (findSortableTopNew (Toy.env true) 3 [0; 1]%nat false
                                              (mkPoint 0 0) false m)))
  = [(7, 0, 0); (2, 1, 0)] /\
  derived (Toy.env true) [0; 1]%nat 2 0 1
          (Toy.mkStore [] [0; 5] [] [(7, 0, 0); (2, 1, 0)] [] false).
Proof.
  intros m. split; [reflexivity|].
  refine (proj2 (findSortableTopNew_derived _ _ _ _ _ _ (Toy.env true) 3
                   [0; 1]%nat (mkPoint 0 0) false true true m
                   (mkMem (Toy.mkStore [] [0; 5] [] [(7, 0, 0); (2, 1, 0)] [] false)
                          (mkPath kEvenOdd_FillType []) [])
                   (mkTopNew (Some 2) false 0 1 (mkPoint 2 5) false)
                   2 _ _)); reflexivity.
Qed.

(** C1, as stated, fails: one contour that closes and one whose trace
    stops open make [bridgeOp] return true and false, and the caller of
    [operate] gets the same thing back in both cases, the same path and no
    flag. *)
Lemma operate_hides_closable :
  let closed := Toy.closing in
  let open := Toy.stalling in
  returned (operate_closable (Toy.env true) 5 closed Toy.empty kUnion_Op Toy.stale)
  = Some (Some true) /\
  returned (operate_closable (Toy.env true) 5 open Toy.empty kUnion_Op Toy.stale)
  = Some (Some false) /\
  returned (operate (Toy.env true) 5 closed Toy.empty kUnion_Op Toy.stale)
  = returned (operate (Toy.env true) 5 open Toy.empty kUnion_Op Toy.stale) /\
  simple (final (operate (Toy.env true) 5 closed Toy.empty kUnion_Op Toy.stale))
  = simple (final (operate (Toy.env true) 5 open Toy.empty kUnion_Op Toy.stale)).
Proof. repeat split; reflexivity. Qed.

Lemma operate_result_even_odd_witness :
  (forall s index endIndex active w p,
     fFillType (snd (addCurveTo (Toy.env true) s index endIndex active w p))
     = fFillType p) /\
  (forall w p, fFillType (snd (close (Toy.env true) w p)) = fFillType p) /\
  fFillType (simple (final (operate (Toy.env true) 5 Toy.stalling Toy.closing
                                    kIntersect_Op Toy.stale)))
  = kEvenOdd_FillType.
Proof.
  split; [intros; reflexivity|]. split; [intros; reflexivity|].
  apply (operate_result_even_odd _ _ _ _ _ _ (Toy.env true) 5 Toy.stalling
           Toy.closing Toy.stale kIntersect_Op); intros; reflexivity.
Defined.

(** C5, as stated, fails: with three contours stacked one above the other,
    [addIntersectTs] answers false on the pair of the first with the second,
    and the pair of the first with the third is never handed to it. *)
Lemma findIntersections_skips_pair :
  let run := operate (Toy.env true) 5 Toy.stacked Toy.empty kUnion_Op Toy.stale in
  fst (makeContourList (Toy.env true) false false
         (heap (operate_entry (Toy.env true) Toy.stacked Toy.stale)))
  = [0; 1; 2]%nat /\
  In (0, 2)%nat (pairsFrom [0; 1; 2]%nat) /\
  Toy.tested (heap (final run)) = [(0, 0); (0, 1); (1, 1); (1, 2); (2, 2)]%nat /\
  ~ In (0, 2)%nat (Toy.tested (heap (final run))).
Proof.
  split; [reflexivity|]. split; [simpl; tauto|]. split; [reflexivity|].
  vm_compute. intros E.
  repeat (destruct E as [E|E]; [discriminate E|]). exact E.
Qed.

Lemma operate_empty_contour_list_witness :
  fst (makeContourList (Toy.env true) false false
         (finish (Toy.env true)
            (addOperand (Toy.env true) Toy.empty
               (EdgeBuilder (Toy.env true) Toy.empty)))) = [] /\
  operate (Toy.env true) 0 Toy.empty Toy.empty kXor_Op Toy.stale
  = Ret tt (mkMem (Toy.mkStore [] [] [] [] [] false)
                  (mkPath kEvenOdd_FillType []) []).
Proof.
  split; [reflexivity|].
  apply (operate_empty_contour_list _ _ _ _ _ _ (Toy.env true) 0 Toy.empty
           Toy.empty Toy.stale kXor_Op).
  reflexivity.
Defined.

End ShapeOpsFacts.

(** ** Uses of the scanner *)

Module ScanningFacts.

Import Autofill Scanning.

Section Facts.

Variable AutofillField : Type.
Implicit Type s : Scan AutofillField.

Lemma inVector_new (fields : list (FieldPtr AutofillField)) :
  inVector (new fields).
Proof. unfold inVector, new; simpl. lia. Qed.

Lemma size_t_le (z : Z) : 0 <= z -> 0 <= size_t z <= z.
Proof.
  intros Hz. unfold size_t. split.
  - apply Z.mod_pos_bound. lia.
  - apply Z.mod_le; lia.
Qed.

(** From a scanner within its vector, one call returns, and leaves the
    scanner within its vector unless it violates a check. *)
Lemma invoke_inVector (c : method) s :
  inVector s ->
  exists s', invoke c s = Ret tt s' /\
             (inVector s' \/ violated s' <> []) /\
             vector s' = vector s.
Proof.
  intros (Hb & He & Hc & Hs). destruct c; cbn [invoke].
  - (* Advance *)
    unfold Advance, bind, DCHECK, update, IsEnd.
    destruct (Z.eqb_spec (cursor_ (this s)) (end_ (this s))) as [E|E];
      cbn [negb]; eexists; (split; [reflexivity|]); cbn [this vector violated];
      (split; [|reflexivity]).
    + right. destruct (violated s); discriminate.
    + left. unfold inVector; cbn. lia.
  - (* Cursor *)
    unfold bind, Cursor, IsEnd.
    destruct (Z.eqb_spec (cursor_ (this s)) (end_ (this s))) as [E|E].
    + unfold NOTREACHED, DCHECK, ret; cbn.
      eexists; split; [reflexivity|]. split; [|reflexivity].
      right. cbn. destruct (violated s); discriminate.
    + unfold deref.
      replace (0 <=? cursor_ (this s)) with true by (symmetry; apply Z.leb_le; lia).
      replace (cursor_ (this s) <? Z.of_nat (length (vector s))) with true
        by (symmetry; apply Z.ltb_lt; lia).
      cbn [andb].
      destruct (nth_error (vector s) (Z.to_nat (cursor_ (this s)))) as [p|] eqn:En.
      * exists s. split; [reflexivity|]. split; [|reflexivity].
        left. unfold inVector. auto.
      * apply nth_error_None in En. lia.
  - (* IsEnd *)
    exists s. split; [reflexivity|]. split; [|reflexivity].
    left. unfold inVector. auto.
  - (* Rewind *)
    unfold Rewind, bind, DCHECK, update.
    destruct (Z.eqb_spec (saved_cursor_ (this s)) (end_ (this s))) as [E|E];
      cbn [negb]; eexists; (split; [reflexivity|]); cbn [this vector violated];
      (split; [|reflexivity]).
    + right. destruct (violated s); discriminate.
    + left. unfold inVector; cbn. lia.
  - (* RewindTo *)
    unfold RewindTo, bind, DCHECK, update.
    pose proof (size_t_le (end_ (this s) - begin_ (this s))) as Hsz.
    destruct (Z.ltb_spec (Z.of_N index) (size_t (end_ (this s) - begin_ (this s))))
      as [E|E]; eexists; (split; [reflexivity|]); cbn [this vector violated];
      (split; [|reflexivity]).
    + left. unfold inVector; cbn. lia.
    + right. destruct (violated s); discriminate.
  - (* SaveCursor *)
    unfold bind, SaveCursor, update, ret. cbn.
    eexists; split; [reflexivity|]. split; [|reflexivity].
    left. unfold inVector; cbn. lia.
Qed.

(** No call removes a recorded violation. *)
Lemma invoke_violated (c : method) s :
  violated s <> [] -> violated (final (invoke c s)) <> [].
Proof.
  intros Hv.
  assert (Happ : forall l : list check, violated s ++ l <> []).
  { intros l. destruct (violated s); [contradiction|discriminate]. }
  destruct c; cbn [invoke].
  - unfold Advance, bind, DCHECK, update.
    destruct (negb (IsEnd s)); cbn; auto.
  - unfold bind, Cursor. destruct (IsEnd s).
    + cbn. auto.
    + unfold deref.
      destruct ((0 <=? cursor_ (this s))
                && (cursor_ (this s) <? Z.of_nat (length (vector s)))); cbn; auto.
      destruct (nth_error (vector s) (Z.to_nat (cursor_ (this s)))); cbn; auto.
  - cbn. auto.
  - unfold Rewind, bind, DCHECK, update.
    destruct (negb (saved_cursor_ (this s) =? end_ (this s))); cbn; auto.
  - unfold RewindTo, bind, DCHECK, update.
    destruct (Z.of_N index <? size_t (end_ (this s) - begin_ (this s))); cbn; auto.
  - unfold bind, SaveCursor, update, ret. cbn. auto.
Qed.

Lemma invokeAll_violated (calls : list method) :
  forall s, violated s <> [] -> violated (final (invokeAll calls s)) <> [].
Proof.
  induction calls as [|c rest IH]; intros s Hv; cbn [invokeAll].
  - exact Hv.
  - unfold bind. pose proof (invoke_violated c s Hv) as Hc.
    destruct (invoke c s) as [[] s'|s'|s']; cbn in *; auto.
Qed.

(** The methods have no loop. *)
Lemma invoke_ends (c : method) s :
  match invoke c s with OutOfFuel _ => False | _ => True end.
Proof.
  destruct c; cbn [invoke].
  - unfold Advance, bind, DCHECK, update. exact I.
  - unfold bind, Cursor. destruct (IsEnd s).
    + exact I.
    + unfold deref.
      destruct ((0 <=? cursor_ (this s))
                && (cursor_ (this s) <? Z.of_nat (length (vector s)))); [|exact I].
      destruct (nth_error (vector s) (Z.to_nat (cursor_ (this s)))); exact I.
  - exact I.
  - unfold Rewind, bind, DCHECK, update. exact I.
  - unfold RewindTo, bind, DCHECK, update. exact I.
  - unfold bind, SaveCursor, update, ret. exact I.
Qed.

Lemma invokeAll_ends (calls : list method) :
  forall s, match invokeAll calls s with OutOfFuel _ => False | _ => True end.
Proof.
  induction calls as [|c rest IH]; intros s; cbn [invokeAll].
  - exact I.
  - unfold bind. pose proof (invoke_ends c s) as Hc.
    destruct (invoke c s) as [[] s'|s'|s']; [apply IH|exact I|contradiction].
Qed.

Lemma invokeAll_inVector (calls : list method) :
  forall s, inVector s ->
    match invokeAll calls s with
    | Ret _ s' => inVector s' \/ violated s' <> []
    | Undefined s' => violated s' <> []
    | OutOfFuel s' => False
    end.
Proof.
  induction calls as [|c rest IH]; intros s Hs; cbn [invokeAll].
  - left. exact Hs.
  - unfold bind. destruct (invoke_inVector c s Hs) as (s' & -> & [Hin|Hv] & _).
    + apply IH. exact Hin.
    + pose proof (invokeAll_violated rest s' Hv) as Hf.
      pose proof (invokeAll_ends rest s') as Hn.
      destruct (invokeAll rest s') as [[] s''|s''|s'']; cbn in Hf; auto.
Qed.

(** Whatever a caller does with a scanner built over a vector, as long as
    none of the checks of the class is violated every call returns and the
    iterators stay within the vector: a read outside the vector happens only
    after a [DCHECK] or the [NOTREACHED] has been violated. *)
Theorem scanner_stays_in_vector (fields : list (FieldPtr AutofillField))
        (calls : list method) :
  match invokeAll calls (new fields) with
  | Ret _ s' => violated s' = [] -> inVector s' /\ vector s' = fields
  | Undefined s' => violated s' <> []
  | OutOfFuel _ => False
  end.
Proof.
  assert (Hvec : forall calls s, inVector s ->
            match invokeAll calls s with
            | Ret _ s' => violated s' = [] -> vector s' = vector s
            | _ => True
            end).
  { clear. intros calls. induction calls as [|c rest IH]; intros s Hs;
      cbn [invokeAll].
    - unfold ret. intros _. reflexivity.
    - unfold bind. destruct (invoke_inVector c s Hs) as (s' & -> & [Hin|Hv] & Hvs).
      + specialize (IH s' Hin). rewrite <- Hvs.
        destruct (invokeAll rest s'); auto.
      + pose proof (invokeAll_violated rest s' Hv) as Hf.
        destruct (invokeAll rest s') as [[] s''|s''|s'']; auto.
        intros E. cbn in Hf. contradiction. }
  pose proof (invokeAll_inVector calls (new fields) (inVector_new fields)) as Hin.
  specialize (Hvec calls (new fields) (inVector_new fields)).
  destruct (invokeAll calls (new fields)) as [[] s'|s'|s']; auto.
  intros E. split; [|exact (Hvec E)].
  destruct Hin as [Hin|Hv]; [exact Hin|contradiction].
Qed.

(** [advances] moves the cursor alone, and violates no check other than
    that of [Advance]. *)
Lemma advances_frame (n : nat) :
  forall s, exists k,
    advances n s
    = Ret tt (mkScan (mkScanner (cursor_ (this s) + Z.of_nat n)
                                (saved_cursor_ (this s))
                                (begin_ (this s)) (end_ (this s)))
                     (vector s)
                     (violated s ++ repeat DCHECK_Advance_not_IsEnd k)).
Proof.
  induction n as [|n IH]; intros s.
  - exists 0%nat. cbn. rewrite Z.add_0_r, app_nil_r. destruct s as [[] ? ?].
    reflexivity.
  - cbn [advances]. unfold bind. unfold Advance at 1. unfold bind, DCHECK, update.
    destruct (negb (IsEnd s));
      cbn [this vector violated cursor_ saved_cursor_ begin_ end_].
    + destruct (IH (mkScan (mkScanner (cursor_ (this s) + 1) (saved_cursor_ (this s))
                                      (begin_ (this s)) (end_ (this s)))
                           (vector s) (violated s))) as (k & ->).
      exists k. cbn. do 3 f_equal. lia.
    + destruct (IH (mkScan (mkScanner (cursor_ (this s) + 1) (saved_cursor_ (this s))
                                      (begin_ (this s)) (end_ (this s)))
                           (vector s) (violated s ++ [DCHECK_Advance_not_IsEnd])))
        as (k & ->).
      exists (S k). cbn. rewrite <- app_assoc. do 3 f_equal. lia.
Qed.

Lemma advances_in_range (n : nat) :
  forall s, cursor_ (this s) + Z.of_nat n <= end_ (this s) ->
    advances n s
    = Ret tt (mkScan (mkScanner (cursor_ (this s) + Z.of_nat n)
                                (saved_cursor_ (this s))
                                (begin_ (this s)) (end_ (this s)))
                     (vector s) (violated s)).
Proof.
  induction n as [|n IH]; intros s Hn.
  - cbn. rewrite Z.add_0_r. destruct s as [[] ? ?]. reflexivity.
  - cbn [advances]. unfold bind. unfold Advance at 1. unfold bind, DCHECK, update, IsEnd.
    destruct (Z.eqb_spec (cursor_ (this s)) (end_ (this s))) as [E|E]; [lia|].
    cbn [negb]. rewrite IH by (cbn; lia). cbn. do 3 f_equal. lia.
Qed.

(** Scanning a list from its start: after [k] calls of [Advance] on a new
    scanner, [Cursor] is the [k]-th field of the list, and no check has been
    violated; after as many calls as there are fields the scanner is at its
    end. *)
Theorem Cursor_after_advances (fields : list (FieldPtr AutofillField))
        (k : nat) (p : FieldPtr AutofillField) :
  (nth_error fields k = Some p ->
   bind (advances k) (fun _ => Cursor) (new fields)
   = Ret p (mkScan (mkScanner (Z.of_nat k) 0 0 (Z.of_nat (length fields)))
                   fields [])) /\
  (exists s', advances (length fields) (new fields) = Ret tt s' /\
              IsEnd s' = true /\ violated s' = []).
Proof.
  split.
  - intros Hk.
    assert (Hlt : (k < length fields)%nat)
      by (apply nth_error_Some; rewrite Hk; discriminate).
    unfold bind. rewrite advances_in_range by (cbn; lia). cbn.
    unfold Cursor, IsEnd. cbn.
    destruct (Z.eqb_spec (Z.of_nat k) (Z.of_nat (length fields))) as [E|_]; [lia|].
    unfold deref. cbn.
    replace (0 <=? Z.of_nat k) with true by (symmetry; apply Z.leb_le; lia).
    replace (Z.of_nat k <? Z.of_nat (length fields)) with true
      by (symmetry; apply Z.ltb_lt; lia).
    cbn. rewrite Nat2Z.id, Hk. reflexivity.
  - eexists. split; [apply advances_in_range; cbn; lia|].
    split; [|reflexivity]. unfold IsEnd. cbn. apply Z.eqb_refl.
Qed.

Lemma In_app_repeat_other (c c' : check) (l : list check) (k : nat) :
  c <> c' -> (In c (l ++ repeat c' k) <-> In c l).
Proof.
  intros Hne. rewrite in_app_iff. split; [|auto].
  intros [Hl|Hr]; [exact Hl|]. apply repeat_spec in Hr. contradiction.
Qed.

Lemma SaveCursor_advances (n : nat) s :
  exists k,
    bind SaveCursor (fun index => bind (advances n) (fun _ => ret index)) s
    = Ret (size_t (cursor_ (this s) - begin_ (this s)))
          (mkScan (mkScanner (cursor_ (this s) + Z.of_nat n) (cursor_ (this s))
                             (begin_ (this s)) (end_ (this s)))
                  (vector s)
                  (violated s ++ repeat DCHECK_Advance_not_IsEnd k)).
Proof.
  destruct (advances_frame n
              (mkScan (mkScanner (cursor_ (this s)) (cursor_ (this s))
                                 (begin_ (this s)) (end_ (this s)))
                      (vector s) (violated s))) as (k & Hadv).
  cbn [this cursor_ saved_cursor_ begin_ end_ vector violated] in Hadv.
  exists k. unfold SaveCursor, update. unfold bind, ret. cbv beta iota.
  cbn [this cursor_ saved_cursor_ begin_ end_ vector violated].
  rewrite Hadv. reflexivity.
Qed.

(** [Rewind] goes back to where [SaveCursor] was called, however many
    calls of [Advance] lie between the two, and uses the saved cursor up: it
    violates its check exactly when the cursor was saved at the end of the
    list, and a [Rewind] that follows a [Rewind] always violates it. *)
Theorem Rewind_returns_to_SaveCursor s (n : nat) :
  let s' := final (bind SaveCursor
                        (fun _ => bind (advances n) (fun _ => Rewind)) s) in
  (cursor_ (this s') = cursor_ (this s) /\
   saved_cursor_ (this s') = end_ (this s) /\
   (In DCHECK_Rewind_saved_cursor (violated s') <->
    IsEnd s = true \/ In DCHECK_Rewind_saved_cursor (violated s))) /\
  In DCHECK_Rewind_saved_cursor
     (violated (final (bind Rewind (fun _ => Rewind) s))).
Proof.
  intros s'. split.
  - destruct (SaveCursor_advances n s) as (k & Hsa).
    assert (Hs' : s' = final (Rewind
                     (mkScan (mkScanner (cursor_ (this s) + Z.of_nat n)
                                        (cursor_ (this s))
                                        (begin_ (this s)) (end_ (this s)))
                             (vector s)
                             (violated s ++ repeat DCHECK_Advance_not_IsEnd k)))).
    { subst s'. unfold bind in Hsa |- *.
      destruct (SaveCursor s) as [i s1|s1|s1]; try discriminate Hsa.
      destruct (advances n s1) as [[] s2|s2|s2]; try discriminate Hsa.
      injection Hsa as _ ->. reflexivity. }
    rewrite Hs'. clear Hs' s' Hsa.
    unfold Rewind, bind, DCHECK, update, IsEnd.
    cbn [this cursor_ saved_cursor_ begin_ end_ vector violated].
    destruct (Z.eqb_spec (cursor_ (this s)) (end_ (this s))) as [E|E];
      cbn [negb final this cursor_ saved_cursor_ begin_ end_ vector violated].
    + split; [reflexivity|]. split; [reflexivity|].
      split; [auto|]. intros _. apply in_or_app. right. left. reflexivity.
    + split; [reflexivity|]. split; [reflexivity|].
      rewrite In_app_repeat_other by discriminate.
      split; [auto|]. intros [Hf|Hin]; [discriminate|exact Hin].
  - unfold Rewind, bind, DCHECK, update.
    destruct (negb (saved_cursor_ (this s) =? end_ (this s)));
      cbn [this cursor_ saved_cursor_ begin_ end_ vector violated final];
      rewrite Z.eqb_refl; cbn; apply in_or_app; right; left; reflexivity.
Qed.

(** [RewindTo] with the index [SaveCursor] returned goes back to where
    [SaveCursor] was called, for a scanner within a vector whose size fits a
    [size_t]; its check is violated exactly when the cursor was saved at the
    end of the list. *)
Theorem RewindTo_returns_to_SaveCursor s (n : nat) :
  inVector s ->
  end_ (this s) < 2 ^ 64 ->
  let s' := final (bind SaveCursor
                        (fun index => bind (advances n)
                                           (fun _ => RewindTo index)) s) in
  cursor_ (this s') = cursor_ (this s) /\
  (In DCHECK_RewindTo_index (violated s') <->
   IsEnd s = true \/ In DCHECK_RewindTo_index (violated s)).
Proof.
  intros (Hb & He & Hc & Hs) Hsz s'.
  destruct (SaveCursor_advances n s) as (k & Hsa).
  assert (Hs' : s' = final (RewindTo (size_t (cursor_ (this s) - begin_ (this s)))
                   (mkScan (mkScanner (cursor_ (this s) + Z.of_nat n)
                                      (cursor_ (this s))
                                      (begin_ (this s)) (end_ (this s)))
                           (vector s)
                           (violated s ++ repeat DCHECK_Advance_not_IsEnd k)))).
  { subst s'. unfold bind in Hsa |- *.
    destruct (SaveCursor s) as [i s1|s1|s1]; try discriminate Hsa.
    destruct (advances n s1) as [[] s2|s2|s2]; try discriminate Hsa.
    injection Hsa as -> ->. reflexivity. }
  rewrite Hs'. clear Hs' s' Hsa.
  unfold RewindTo, bind, DCHECK, update, IsEnd.
  cbn [this cursor_ saved_cursor_ begin_ end_ vector violated].
  rewrite Hb, !Z.sub_0_r. unfold size_t.
  rewrite !Z.mod_small by lia.
  destruct (Z.ltb_spec (cursor_ (this s)) (end_ (this s))) as [E|E];
    cbn [final this cursor_ begin_ violated].
  - split; [lia|]. rewrite In_app_repeat_other by discriminate.
    destruct (Z.eqb_spec (cursor_ (this s)) (end_ (this s))); [lia|].
    split; [auto|]. intros [Hf|Hin]; [discriminate|exact Hin].
  - split; [lia|].
    destruct (Z.eqb_spec (cursor_ (this s)) (end_ (this s))); [|lia].
    split; [auto|]. intros _. apply in_or_app. right. left. reflexivity.
Qed.

End Facts.

Lemma scanner_stays_in_vector_witness :
  let calls := [callSaveCursor; callAdvance; callCursor; callAdvance;
                callRewind; callCursor] in
  let fields := [Some 10%nat; Some 11%nat] in
  invokeAll calls (new fields) = Ret tt (mkScan (mkScanner 0 2 0 2) fields []) /\
  inVector (mkScan (mkScanner 0 2 0 2) fields []).
Proof.
  intros calls fields.
  assert (E : invokeAll calls (new fields)
              = Ret tt (mkScan (mkScanner 0 2 0 2) fields [])) by reflexivity.
  split; [exact E|].
  pose proof (scanner_stays_in_vector nat fields calls) as Hs.
  rewrite E in Hs. exact (proj1 (Hs eq_refl)).
Defined.

Lemma Cursor_after_advances_witness :
  nth_error [Some 10%nat; None; Some 12%nat] 2 = Some (Some 12%nat) /\
  bind (advances 2) (fun _ => Cursor) (new [Some 10%nat; None; Some 12%nat])
  = Ret (Some 12%nat)
        (mkScan (mkScanner 2 0 0 3) [Some 10%nat; None; Some 12%nat] []).
Proof.
  split; [reflexivity|].
  apply (proj1 (Cursor_after_advances nat [Some 10%nat; None; Some 12%nat] 2
                  (Some 12%nat))).
  reflexivity.
Defined.

Lemma RewindTo_returns_to_SaveCursor_witness :
  let s := mkScan (mkScanner 1 0 0 2) [Some 10%nat; Some 11%nat] [] in
  inVector s /\ end_ (this s) < 2 ^ 64 /\
  cursor_ (this (final (bind SaveCursor
                             (fun index => bind (advances 1)
                                                (fun _ => RewindTo index)) s)))
  = 1.
Proof.
  intros s. split; [unfold inVector; cbn; lia|]. split; [reflexivity|].
  apply (RewindTo_returns_to_SaveCursor nat s 1).
  - unfold inVector; cbn; lia.
  - reflexivity.
Defined.

End ScanningFacts.

(** ** More on the driver: [findChaseOp] *)

Module ChaseFacts.

Import ShapeOps.

Section Facts.

Variables (Contour Segment Span Angle World SkScalar : Type).
Variable H : Simplify Contour Segment Span Angle World SkScalar.

Implicit Type m : Mem World SkScalar.

(** How a run goes on after each kind of step. *)
Lemma bind_ret {A B} (a : A) (k : A -> M (Mem World SkScalar) B) m :
  bind (ret a) k m = k a m.
Proof. reflexivity. Qed.

Lemma bind_assoc {A B C} (f : M (Mem World SkScalar) A)
      (g : A -> M (Mem World SkScalar) B) (k : B -> M (Mem World SkScalar) C) m :
  bind (bind f g) k m = bind f (fun a => bind (g a) k) m.
Proof. unfold bind. destruct (f m); reflexivity. Qed.

Lemma bind_call {A B} (f : World -> A * World)
      (k : A -> M (Mem World SkScalar) B) m :
  bind (call f) k m
  = k (fst (f (heap m))) (mkMem (snd (f (heap m))) (simple m) (asserts m)).
Proof. unfold bind, call. destruct (f (heap m)). reflexivity. Qed.

Lemma bind_exec {B} (f : World -> World) (k : unit -> M (Mem World SkScalar) B) m :
  bind (exec f) k m = k tt (mkMem (f (heap m)) (simple m) (asserts m)).
Proof. reflexivity. Qed.

Lemma bind_read {A B} (f : World -> A) (k : A -> M (Mem World SkScalar) B) m :
  bind (read f) k m = k (f (heap m)) m.
Proof. reflexivity. Qed.

Lemma bind_readPath {A B} (f : World -> SkPath SkScalar -> A)
      (k : A -> M (Mem World SkScalar) B) m :
  bind (readPath f) k m = k (f (heap m) (simple m)) m.
Proof. reflexivity. Qed.

Lemma bind_onPath {B} (f : World -> SkPath SkScalar -> World * SkPath SkScalar)
      (k : unit -> M (Mem World SkScalar) B) m :
  bind (onPath f) k m
  = k tt (mkMem (fst (f (heap m) (simple m))) (snd (f (heap m) (simple m)))
                (asserts m)).
Proof. unfold bind, onPath. destruct (f (heap m) (simple m)). reflexivity. Qed.

Lemma bind_SkASSERT {B} (c : check) (cond : bool)
      (k : unit -> M (Mem World SkScalar) B) m :
  bind (SkASSERT c cond) k m = k tt (if cond then m else noting c m).
Proof. reflexivity. Qed.

(** [firstWound] changes nothing and, when it returns, returns an index
    within [sorted], counted from [index]. *)
Lemma firstWound_spec (sorted : list Angle) :
  forall index m,
    (exists k angle,
        firstWound H sorted index m = Ret (index + Z.of_nat k, angle) m /\
        nth_error sorted k = Some angle) \/
    firstWound H sorted index m = Undefined m.
Proof.
  induction sorted as [|a rest IH]; intros index m; cbn [firstWound].
  - right. reflexivity.
  - rewrite bind_read.
    destruct (windSumAngle H (angle_segment H a) a (heap m) =? SK_MinS32 H).
    + destruct (IH (index + 1) m) as [(k & angle & E & Hk)|E].
      * left. exists (S k), angle. split; [|exact Hk].
        replace (index + Z.of_nat (S k)) with (index + 1 + Z.of_nat k) by lia.
        exact E.
      * right. exact E.
    + left. exists 0%nat, a. split; [|reflexivity].
      replace (index + Z.of_nat 0) with index by lia. reflexivity.
Qed.

(** The second loop of [findChaseOp], entered after [firstWound]: however
    the helpers answer it returns within [angleCount] iterations, its
    assertion holds at every iteration and every read of [sorted] is in
    range. The indices it visits run from [firstIndex + 1] upwards, wrap at
    [angleCount] and stop before [firstIndex]. *)
Lemma markAngles_returns (sorted : list Angle) (angleCount firstIndex lastIndex : Z) :
  angleCount = Z.of_nat (length sorted) ->
  0 <= firstIndex < angleCount ->
  lastIndex = (if negb (firstIndex =? 0) then firstIndex else angleCount) ->
  forall (n : nat) nextIndex sumMi sumSu first nextStart nextEnd m,
    (firstIndex = 0 /\ angleCount = 1 /\ nextIndex = 1 /\ 1 <= Z.of_nat n) \/
    (firstIndex = 0 /\ 1 <= nextIndex <= angleCount - 1 /\
     angleCount - nextIndex <= Z.of_nat n) \/
    (0 < firstIndex < nextIndex /\ nextIndex <= angleCount /\
     angleCount - nextIndex + firstIndex <= Z.of_nat n) \/
    (1 <= nextIndex < firstIndex /\ firstIndex - nextIndex <= Z.of_nat n) ->
    exists r m',
      markAngles H n sorted angleCount firstIndex lastIndex nextIndex
                 sumMi sumSu first nextStart nextEnd m = Ret r m' /\
      asserts m' = asserts m /\ simple m' = simple m.
Proof.
  intros Hcount Hfirst Hlast n.
  induction n as [|n IH];
    intros nextIndex sumMi sumSu first nextStart nextEnd m Hinv.
  - exfalso. cbn in Hinv. lia.
  - cbn [markAngles]. rewrite bind_SkASSERT.
    assert (Hne : (nextIndex =? firstIndex) = false) by (apply Z.eqb_neq; lia).
    rewrite Hne. cbn [negb].
    set (wrapped := if nextIndex =? angleCount then 0 else nextIndex).
    assert (Hw : 0 <= wrapped < angleCount).
    { subst wrapped. destruct (Z.eqb_spec nextIndex angleCount); lia. }
    destruct (nth_error sorted (Z.to_nat wrapped)) as [angle|] eqn:Enth;
      [|apply nth_error_None in Enth; lia].
    rewrite bind_call.
    set (w := setUpWindings H (angle_segment H angle) (angle_start H angle)
                            (angle_end H angle) sumMi sumSu (heap m)).
    rewrite bind_read. cbn [heap].
    assert (Hgo : forall first' nextStart' nextEnd' m1,
               asserts m1 = asserts m -> simple m1 = simple m ->
               exists r m',
                 (if wrapped + 1 =? lastIndex
                  then ret (first', nextStart', nextEnd')
                  else markAngles H n sorted angleCount firstIndex lastIndex
                                  (wrapped + 1) (sumMiWinding (fst w))
                                  (sumSuWinding (fst w))
                                  first' nextStart' nextEnd') m1 = Ret r m' /\
                 asserts m' = asserts m /\ simple m' = simple m).
    { intros first' nextStart' nextEnd' m1 Ha Hs.
      destruct (Z.eqb_spec (wrapped + 1) lastIndex) as [E|E].
      - exists (first', nextStart', nextEnd'), m1. auto.
      - destruct (IH (wrapped + 1) (sumMiWinding (fst w)) (sumSuWinding (fst w))
                     first' nextStart' nextEnd' m1) as (r & m' & Er & Ha' & Hs').
        + subst wrapped lastIndex.
          destruct (Z.eqb_spec nextIndex angleCount);
            destruct (Z.eqb_spec firstIndex 0); cbn [negb] in E; lia.
        + exists r, m'. rewrite Er, Ha', Hs'. auto. }
    destruct (negb (doneAngle H (angle_segment H angle) angle (snd w))).
    + rewrite bind_assoc, bind_exec, bind_ret. cbn [heap simple asserts].
      destruct first as [seg|]; apply Hgo; reflexivity.
    + rewrite bind_ret. apply Hgo; reflexivity.
Qed.

Lemma pop_spec {A} (l : list A) :
  match pop l with
  | None => l = []
  | Some (x, rest) => l = rest ++ [x]
  end.
Proof.
  unfold pop. destruct (rev l) as [|x r] eqn:E.
  - apply (f_equal (@rev A)) in E. rewrite rev_involutive in E. exact E.
  - apply (f_equal (@rev A)) in E. rewrite rev_involutive in E. exact E.
Qed.

Lemma chaseEnds_after_pop (chase rest : list Span) (sp : Span)
      (m m1 : Mem World SkScalar) o :
  chase = rest ++ [sp] ->
  asserts m1 = asserts m -> simple m1 = simple m ->
  Chase.chaseEnds H rest m1 o -> Chase.chaseEnds H chase m o.
Proof.
  intros -> Ha Hs. unfold Chase.chaseEnds.
  destruct o as [[[[found chase'] ns] ne] m'|m'|m']; [|rewrite Ha, Hs; auto|auto].
  rewrite Ha, Hs. intros (-> & -> & Hc). split; [reflexivity|].
  split; [reflexivity|].
  destruct found as [seg|]; cbn in Hc |- *; [|exact Hc].
  destruct Hc as (below & sp' & popped & -> & ->).
  exists below, sp', (popped ++ [sp]). split; [|reflexivity].
  rewrite <- app_assoc. reflexivity.
Qed.

Lemma findChaseOp_loop_ends (n : nat) :
  forall chase nextStart nextEnd m,
    n = length chase ->
    Chase.chaseEnds H chase m (findChaseOp_loop H n chase nextStart nextEnd m).
Proof.
  induction n as [|n IH]; intros chase nextStart nextEnd m Hn.
  - destruct chase; [|discriminate Hn]. cbn. auto.
  - cbn [findChaseOp_loop]. pose proof (pop_spec chase) as Hpop.
    destruct (pop chase) as [[sp rest]|]; [|subst chase; cbn; auto].
    assert (Hrest : n = length rest).
    { subst chase. rewrite length_app in Hn. cbn in Hn. lia. }
    rewrite !bind_read, bind_call.
    destruct (activeAngle H _ _ 0 [] (heap m)) as [[[active done_] angles] w1].
    cbn [fst snd].
    destruct active.
    { destruct (pop angles) as [[last ?]|]; cbn; [|auto].
      split; [reflexivity|]. split; [reflexivity|].
      exists rest, sp, []. auto. }
    destruct (done_ =? Z.of_nat (length angles)).
    { eapply chaseEnds_after_pop; [exact Hpop| | |apply IH; exact Hrest];
        reflexivity. }
    rewrite bind_call. cbn [heap simple asserts].
    destruct (SortAngles H angles w1) as [[sortable sorted] w2]. cbn [fst snd].
    destruct sortable; cbn [negb].
    2:{ eapply chaseEnds_after_pop; [exact Hpop| | |apply IH; exact Hrest];
        reflexivity. }
    unfold bind at 1.
    destruct (firstWound_spec sorted 0 (mkMem w2 (simple m) (asserts m)))
      as [(k & angle & -> & Hk)| ->]; [|cbn; auto].
    rewrite !bind_call, bind_read. cbn [heap simple asserts fst snd].
    set (w3 := snd (updateWindingReverse H (angle_segment H angle) angle w2)).
    set (w4 := snd (updateOppWindingReverse H (angle_segment H angle) angle w3)).
    set (sumMi := fst (updateWindingReverse H (angle_segment H angle) angle w2)).
    set (sumSu := fst (updateOppWindingReverse H (angle_segment H angle) angle w3)).
    assert (Hlt : (k < length sorted)%nat)
      by (apply nth_error_Some; rewrite Hk; discriminate).
    destruct (operand H (angle_segment H angle) w4).
    + unfold bind at 1.
      destruct (markAngles_returns sorted (Z.of_nat (length sorted))
                  (0 + Z.of_nat k)
                  (if negb (0 + Z.of_nat k =? 0) then 0 + Z.of_nat k
                   else Z.of_nat (length sorted))
                  eq_refl ltac:(lia) eq_refl
                  (S (length sorted)) (0 + Z.of_nat k + 1) sumSu sumMi None
                  (fOtherIndex H (span H (fOther H sp (heap m))
                                       (fOtherIndex H sp (heap m)) (heap m))
                               (heap m))
                  nextEnd (mkMem w4 (simple m) (asserts m)))
        as ([[first ns] ne] & m' & -> & Ha & Hs).
      { destruct k; [destruct (length sorted) as [|[|l]]|]; lia. }
      cbn [asserts simple] in Ha, Hs.
      destruct first as [seg|].
      * cbn. split; [exact Ha|]. split; [exact Hs|].
        exists rest, sp, []. auto.
      * eapply chaseEnds_after_pop; [exact Hpop|exact Ha|exact Hs|].
        apply IH. exact Hrest.
    + unfold bind at 1.
      destruct (markAngles_returns sorted (Z.of_nat (length sorted))
                  (0 + Z.of_nat k)
                  (if negb (0 + Z.of_nat k =? 0) then 0 + Z.of_nat k
                   else Z.of_nat (length sorted))
                  eq_refl ltac:(lia) eq_refl
                  (S (length sorted)) (0 + Z.of_nat k + 1) sumMi sumSu None
                  (fOtherIndex H (span H (fOther H sp (heap m))
                                       (fOtherIndex H sp (heap m)) (heap m))
                               (heap m))
                  nextEnd (mkMem w4 (simple m) (asserts m)))
        as ([[first ns] ne] & m' & -> & Ha & Hs).
      { destruct k; [destruct (length sorted) as [|[|l]]|]; lia. }
      cbn [asserts simple] in Ha, Hs.
      destruct first as [seg|].
      * cbn. split; [exact Ha|]. split; [exact Hs|].
        exists rest, sp, []. auto.
      * eapply chaseEnds_after_pop; [exact Hpop|exact Ha|exact Hs|].
        apply IH. exact Hrest.
Qed.

(** [findChaseOp] always comes to an end, whatever the helpers answer: its
    first loop pops a span at every turn and its second loop stops within
    [angleCount] turns. It then has returned, or has read past the end of
    [sorted] or before the start of an empty [angles]; its
    [SkASSERT(nextIndex != firstIndex)] has held throughout, and the path
    is as it was. When it returns no segment the chase array is empty; when
    it returns one, the span that led to it has been put back on the spans
    below it, the spans above being dropped. *)
Theorem findChaseOp_ends (chase : list Span) (nextStart nextEnd : Z)
        (m : Mem World SkScalar) :
  Chase.chaseEnds H chase m (findChaseOp H chase nextStart nextEnd m).
Proof. apply findChaseOp_loop_ends. reflexivity. Qed.

End Facts.

End ChaseFacts.

(** ** More on the driver: assertions that cannot fail *)

Module AssertFacts.

Import ShapeOps Triple.

Lemma triple_bind {S A B} (P : S -> Prop) (m : M S A) (k : A -> M S B)
      (Q1 : A -> S -> Prop) (Q : B -> S -> Prop) (I : S -> Prop) :
  triple P m Q1 I -> (forall a, triple (Q1 a) (k a) Q I) ->
  triple P (bind m k) Q I.
Proof.
  intros Hm Hk s Hs. unfold bind. specialize (Hm s Hs).
  destruct (m s) as [a s'|s'|s']; [apply (Hk a s' Hm)|exact Hm|exact Hm].
Qed.

Lemma triple_keeps {S A} (P : S -> Prop) (m : M S A) :
  keeps P m -> triple P m (fun _ => P) P.
Proof.
  intros Hm s Hs. specialize (Hm s Hs). destruct (m s); exact Hm.
Qed.

Lemma keeps_triple {S A} (P : S -> Prop) (m : M S A) (Q : A -> S -> Prop) :
  triple P m Q P -> (forall a s, Q a s -> P s) -> keeps P m.
Proof.
  intros Hm HQ s Hs. specialize (Hm s Hs).
  destruct (m s) as [a s'|s'|s']; cbn; [apply (HQ a)| |]; exact Hm.
Qed.

Lemma triple_weaken {S A} (P : S -> Prop) (m : M S A)
      (Q Q' : A -> S -> Prop) (I : S -> Prop) :
  triple P m Q I -> (forall a s, Q a s -> Q' a s) -> triple P m Q' I.
Proof.
  intros Hm HQ s Hs. specialize (Hm s Hs).
  destruct (m s) as [a s'|s'|s']; [apply HQ| |]; exact Hm.
Qed.

Lemma triple_keeps_yields {S A} (P : S -> Prop) (R : A -> Prop) (m : M S A) :
  keeps P m -> yields R m -> triple P m (fun a s => P s /\ R a) P.
Proof.
  intros Hk Hy s Hs. specialize (Hk s Hs). specialize (Hy s).
  destruct (m s) as [a s'|s'|s']; [|exact Hk|exact Hk].
  split; [exact Hk|]. exact (Hy a s' eq_refl).
Qed.

Ltac yields_step :=
  match goal with
  | |- yields _ (bind _ _) => apply ShapeOpsFacts.yields_bind; intro
  | |- yields _ (ret _) => apply ShapeOpsFacts.yields_ret
  | |- yields _ out_of_fuel => apply ShapeOpsFacts.yields_out_of_fuel
  | IH : forall _, _ |- yields _ _ => solve [apply IH]
  | |- yields _ (match ?x with _ => _ end) => destruct x
  end.

Section Facts.

Variables (Contour Segment Span Angle World SkScalar : Type).
Variable H : Simplify Contour Segment Span Angle World SkScalar.

Implicit Type m : Mem World SkScalar.

Section NotRecorded.

Variable c0 : check.

Let P : Mem World SkScalar -> Prop := notRecorded c0.

Lemma nr_call {A} (f : World -> A * World) : keeps P (call f).
Proof. intros m Hm. unfold call. destruct (f (heap m)). exact Hm. Qed.

Lemma nr_exec (f : World -> World) : keeps P (exec (SkScalar:=SkScalar) f).
Proof. intros m Hm. exact Hm. Qed.

Lemma nr_read {A} (f : World -> A) : keeps P (read f).
Proof. intros m Hm. exact Hm. Qed.

Lemma nr_readPath {A} (f : World -> SkPath SkScalar -> A) : keeps P (readPath f).
Proof. intros m Hm. exact Hm. Qed.

Lemma nr_onPath (f : World -> SkPath SkScalar -> World * SkPath SkScalar) :
  keeps P (onPath f).
Proof.
  intros m Hm. unfold onPath. destruct (f (heap m) (simple m)). exact Hm.
Qed.

Lemma nr_SkASSERT (c : check) (cond : bool) :
  c <> c0 \/ cond = true -> keeps P (SkASSERT c cond).
Proof.
  intros Hc m Hm. unfold SkASSERT. destruct cond; [exact Hm|].
  destruct Hc as [Hc|Hc]; [|discriminate Hc].
  cbn. unfold P, notRecorded in *. cbn. rewrite in_app_iff.
  intros [Hin|[Hin|[]]]; [exact (Hm Hin)|exact (Hc Hin)].
Qed.

Lemma nr_findChaseOp chase nextStart nextEnd :
  keeps P (findChaseOp H chase nextStart nextEnd).
Proof.
  intros m Hm.
  pose proof (ChaseFacts.findChaseOp_loop_ends _ _ _ _ _ _ H (length chase) chase
                nextStart nextEnd m eq_refl) as He.
  change (findChaseOp_loop H (length chase) chase nextStart nextEnd m)
    with (findChaseOp H chase nextStart nextEnd m) in He.
  unfold Chase.chaseEnds in He. unfold P, notRecorded in *.
  destruct (findChaseOp H chase nextStart nextEnd m)
    as [[[[found chase'] ns] ne] m'|m'|m']; cbn.
  - destruct He as (-> & _). exact Hm.
  - destruct He as (-> & _). exact Hm.
  - contradiction.
Qed.

Ltac nr_step :=
  match goal with
  | |- keeps _ (bind _ _) => apply ShapeOpsFacts.keeps_bind; [|intro]
  | |- keeps _ (ret _) => apply ShapeOpsFacts.keeps_ret
  | |- keeps _ undefined => apply ShapeOpsFacts.keeps_undefined
  | |- keeps _ out_of_fuel => apply ShapeOpsFacts.keeps_out_of_fuel
  | |- keeps _ (call _) => apply nr_call
  | |- keeps _ (exec _) => apply nr_exec
  | |- keeps _ (read _) => apply nr_read
  | |- keeps _ (readPath _) => apply nr_readPath
  | |- keeps _ (onPath _) => apply nr_onPath
  | |- keeps _ (SkASSERT _ _) => apply nr_SkASSERT; left; assumption
  | |- keeps _ (findChaseOp _ _ _ _) => apply nr_findChaseOp
  | IH : forall _, _ |- keeps _ _ => solve [apply IH]
  | |- keeps _ (match ?x with _ => _ end) => destruct x
  end.

Lemma nr_findSortableTopNew bound contourList firstContour topLeft uns :
  findSortableTopNew_0 <> c0 ->
  keeps P (findSortableTopNew H bound contourList firstContour topLeft uns).
Proof.
  intros Hne. unfold findSortableTopNew. generalize true at 1 2 as allowTies.
  intros allowTies. generalize allowTies at 2 as first. intros first.
  revert firstContour topLeft uns allowTies first.
  induction bound as [|n IH]; intros; cbn [findSortableTopNew_loop];
    repeat nr_step.
Qed.

Lemma nr_intersectFrom current nexts : keeps P (intersectFrom H current nexts).
Proof.
  induction nexts as [|next rest IH]; cbn [intersectFrom]; repeat nr_step.
  exact IH.
Qed.

Lemma nr_findIntersections contourList :
  keeps P (findIntersections H contourList).
Proof.
  induction contourList as [|current rest IH]; cbn [findIntersections];
    repeat nr_step; [apply nr_intersectFrom|exact IH].
Qed.

Lemma nr_countSegments contourList total :
  keeps P (countSegments H contourList total).
Proof.
  revert total.
  induction contourList as [|c rest IH]; intros; cbn [countSegments];
    repeat nr_step.
Qed.

Hypothesis not_done : bridgeOp_unsortable_or_not_done <> c0.
Hypothesis not_unsortable : bridgeOp_not_unsortable <> c0.
Hypothesis closed : bridgeOp_isClosed <> c0.

(** The trace loop: when it is left with [active] still on and the path
    not closed, [unsortable] is on. *)
Lemma trace_open_is_unsortable op xm xom n :
  forall chase uns current index endIndex,
    triple P (bridgeOp_trace H op xm xom n chase uns current index endIndex)
           (fun t m' =>
              P m' /\
              (tr_active t = true ->
               isClosed H (heap m') (simple m') = false ->
               tr_unsortable t = true))
           P.
Proof.
  induction n as [|n IH]; intros chase uns current index endIndex;
    cbn [bridgeOp_trace].
  - intros m Hm. exact Hm.
  - eapply triple_bind; [apply triple_keeps, nr_read|intros d].
    eapply triple_bind;
      [apply triple_keeps, nr_SkASSERT; left; exact not_done|intros ?].
    eapply triple_bind; [apply triple_keeps, nr_call|intros nx].
    destruct (next_segment nx) as [next|].
    + eapply triple_bind; [apply triple_keeps, nr_onPath|intros ?].
      intros m Hm. rewrite ChaseFacts.bind_readPath, ChaseFacts.bind_read.
      destruct (isClosed H (heap m) (simple m)) eqn:Eic; cbn [negb andb].
      * unfold ret. split; [exact Hm|]. intros _ E. rewrite Eic in E.
        discriminate E.
      * destruct (next_unsortable nx) eqn:Euns; cbn [negb orb].
        -- destruct (done H next (heap m)); cbn [negb].
           ++ unfold ret. split; [exact Hm|]. intros _ _. reflexivity.
           ++ apply IH. exact Hm.
        -- apply IH. exact Hm.
    + apply triple_weaken with (Q := fun t s => P s /\ tr_active t = false).
      * apply triple_keeps_yields; [repeat nr_step|].
        repeat yields_step; reflexivity.
      * intros t s (Hs & Ht). split; [exact Hs|]. rewrite Ht. discriminate.
Qed.

Lemma nr_bridgeOp_contour bound op xm xom chase uns clos current index endIndex :
  keeps P (bridgeOp_contour H bound op xm xom chase uns clos
                            current index endIndex).
Proof.
  unfold bridgeOp_contour.
  eapply keeps_triple with (Q := fun _ => P); [|auto].
  eapply triple_bind; [apply trace_open_is_unsortable|intros t].
  intros m (Hm & Hopen). rewrite ChaseFacts.bind_readPath.
  destruct (tr_active t) eqn:Eact; cbn [andb].
  - destruct (isClosed H (heap m) (simple m)) eqn:Eic; cbn [negb].
    + apply (triple_keeps P); [|exact Hm]. repeat nr_step.
    + rewrite (Hopen eq_refl eq_refl).
      apply (triple_keeps P); [|exact Hm].
      apply ShapeOpsFacts.keeps_bind; [|intro; repeat nr_step].
      apply ShapeOpsFacts.keeps_bind; [|intro; repeat nr_step].
      apply nr_SkASSERT. right. reflexivity.
  - apply (triple_keeps P); [|exact Hm]. repeat nr_step.
Qed.

Lemma nr_bridgeOp_spans bound op xm xom n :
  forall chase uns clos current index endIndex,
    keeps P (bridgeOp_spans H bound op xm xom n chase uns clos
                            current index endIndex).
Proof.
  induction n as [|n IH]; intros; cbn [bridgeOp_spans]; repeat nr_step;
    try apply nr_bridgeOp_contour; repeat nr_step.
Qed.

Hypothesis not_top : findSortableTopNew_0 <> c0.
Hypothesis not_retry : bridgeOp_not_firstRetry <> c0.

Lemma nr_bridgeOp_loop bound contourList op xm xom n :
  forall fr, keeps P (bridgeOp_loop H bound contourList op xm xom n fr).
Proof.
  induction n as [|n IH]; intros; cbn [bridgeOp_loop]; repeat nr_step;
    try (apply nr_findSortableTopNew; exact not_top);
    try apply nr_bridgeOp_spans; repeat nr_step.
Qed.

Lemma nr_operate_run bound two op : keeps P (operate_run H bound two op).
Proof.
  unfold operate_run, operate_contours, bridgeOp. repeat nr_step;
    try apply nr_findIntersections; try apply nr_countSegments;
    try apply nr_bridgeOp_loop; repeat nr_step.
Qed.

End NotRecorded.

(** Two assertions of the driver hold in every run of [operate], whatever
    the helpers answer and however the run ends: [SkASSERT(unsortable)] of
    [bridgeOp] (a contour left open by the trace loop is always an
    unsortable one) and [SkASSERT(nextIndex != firstIndex)] of
    [findChaseOp]. *)
Theorem operate_assertions_hold (bound : nat) (one two result : SkPath SkScalar)
        (op : ShapeOp) :
  let violated := asserts (final (operate H bound one two op result)) in
  ~ In bridgeOp_unsortable violated /\
  ~ In findChaseOp_nextIndex_ne_firstIndex violated.
Proof.
  split.
  - refine (nr_operate_run bridgeOp_unsortable _ _ _ _ _ bound two op
                           (operate_entry H one result) _);
      try discriminate.
    intros [].
  - refine (nr_operate_run findChaseOp_nextIndex_ne_firstIndex _ _ _ _ _
                           bound two op (operate_entry H one result) _);
      try discriminate.
    intros [].
Qed.

End Facts.

End AssertFacts.

(** ** More on the driver: the top search and the value of [bridgeOp] *)

Module BridgeFacts.

Import ShapeOps Triple.

Section Facts.

Variables (Contour Segment Span Angle World SkScalar : Type).
Variable H : Simplify Contour Segment Span Angle World SkScalar.

Implicit Type m : Mem World SkScalar.

(** After its first search, [findSortableTopNew] hands back a segment
    without any assertion, or no segment and [SkASSERT(0)]. *)
Lemma findSortableTopNew_later (n : nat) (contourList : list Contour) :
  forall firstContour (topLeft : SkPoint SkScalar) uns allowTies m t m',
    findSortableTopNew_loop H n contourList firstContour topLeft uns
                            allowTies false m = Ret t m' ->
    simple m' = simple m /\
    match new_current t with
    | Some _ => asserts m' = asserts m
    | None => asserts m' = asserts m ++ [findSortableTopNew_0]
    end.
Proof.
  induction n as [|n IH]; intros firstContour topLeft uns allowTies m t m' Hrun.
  - discriminate Hrun.
  - cbn [findSortableTopNew_loop] in Hrun.
    rewrite ChaseFacts.bind_call in Hrun.
    destruct (findSortableTop H contourList topLeft uns allowTies true (heap m))
      as [tp w1]. cbn [fst snd] in Hrun.
    destruct (top_current tp) as [cur|].
    + destruct firstContour.
      * rewrite ChaseFacts.bind_exec in Hrun. injection Hrun as <- <-.
        cbn. auto.
      * rewrite ChaseFacts.bind_read in Hrun. cbn [heap] in Hrun.
        assert (Htail : forall w,
                   (contourWinding <-
                      call (innerContourCheck H contourList cur (top_index tp)
                                              (top_endIndex tp) false) ;;
                    if contourWinding =? SK_MinS32 H
                    then findSortableTopNew_loop H n contourList false
                           (top_topLeft tp) (top_unsortable tp) false false
                    else
                      oppContourWinding <-
                        call (innerContourCheck H contourList cur (top_index tp)
                                                (top_endIndex tp) true) ;;
                      if oppContourWinding =? SK_MinS32 H
                      then findSortableTopNew_loop H n contourList false
                             (top_topLeft tp) (top_unsortable tp) false false
                      else
                        exec (initWinding H cur (top_index tp) (top_endIndex tp)
                                          contourWinding oppContourWinding) ;;;
                        ret (mkTopNew (Some cur) false (top_index tp)
                                      (top_endIndex tp) (top_topLeft tp)
                                      (top_unsortable tp)))%run
                     (mkMem w (simple m) (asserts m)) = Ret t m' ->
                   simple m' = simple m /\
                   match new_current t with
                   | Some _ => asserts m' = asserts m
                   | None => asserts m' = asserts m ++ [findSortableTopNew_0]
                   end).
        { intros w Ht. rewrite ChaseFacts.bind_call in Ht. cbn [heap simple asserts] in Ht.
          destruct (fst (innerContourCheck H contourList cur (top_index tp)
                                           (top_endIndex tp) false w)
                    =? SK_MinS32 H).
          - exact (IH _ _ _ _ _ _ _ Ht).
          - rewrite ChaseFacts.bind_call in Ht. cbn [heap simple asserts] in Ht.
            match type of Ht with
            | (if ?c then _ else _) _ = _ => destruct c
            end.
            + exact (IH _ _ _ _ _ _ _ Ht).
            + rewrite ChaseFacts.bind_exec in Ht. injection Ht as <- <-.
              cbn. auto. }
        destruct (windSum H cur (Z.min (top_index tp) (top_endIndex tp)) w1
                  =? SK_MinS32 H).
        -- rewrite ChaseFacts.bind_assoc, ChaseFacts.bind_call,
             ChaseFacts.bind_ret in Hrun.
           cbn [heap simple asserts] in Hrun.
           destruct (negb (fst (computeSum H cur (top_index tp) (top_endIndex tp)
                                           true w1) =? SK_MinS32 H)).
           ++ injection Hrun as <- <-. cbn. auto.
           ++ exact (Htail _ Hrun).
        -- rewrite ChaseFacts.bind_ret in Hrun. exact (Htail _ Hrun).
    + rewrite ChaseFacts.bind_SkASSERT in Hrun. injection Hrun as <- <-.
      cbn. auto.
Qed.

(** When [findSortableTopNew] returns a segment it has violated no
    assertion. When it returns none, either its first search found nothing,
    and then it has done nothing but that search, or the first search found
    a segment that the winding sums and containment checks did not settle,
    and then it has run into [SkASSERT(0)]: there is no other way for it to
    give up. The path is left alone in every case. *)
Theorem findSortableTopNew_gives_up (bound : nat) (contourList : list Contour)
        (firstContour : bool) (topLeft : SkPoint SkScalar) (uns : bool)
        (m m' : Mem World SkScalar) (t : TopNew Segment SkScalar) :
  findSortableTopNew H bound contourList firstContour topLeft uns m = Ret t m' ->
  let first := findSortableTop H contourList topLeft uns true true (heap m) in
  simple m' = simple m /\
  match new_current t with
  | Some _ => asserts m' = asserts m
  | None =>
      (top_current (fst first) = None /\
       m' = mkMem (snd first) (simple m) (asserts m) /\
       new_firstContour t = firstContour) \/
      (top_current (fst first) <> None /\ firstContour = false /\
       asserts m' = asserts m ++ [findSortableTopNew_0])
  end.
Proof.
  intros Hrun. cbv zeta. unfold findSortableTopNew in Hrun.
  destruct bound as [|n]; [discriminate Hrun|].
  cbn [findSortableTopNew_loop] in Hrun.
  rewrite ChaseFacts.bind_call in Hrun.
  destruct (findSortableTop H contourList topLeft uns true true (heap m))
    as [tp w1] eqn:Ef.
  cbn [fst snd] in Hrun |- *.
  destruct (top_current tp) as [cur|] eqn:Etop.
  - destruct firstContour.
    + rewrite ChaseFacts.bind_exec in Hrun. injection Hrun as <- <-. cbn. auto.
    + (* the later searches are those of the loop with [first] off *)
      assert (Hsame :
                findSortableTopNew_loop H (S n) contourList false topLeft uns
                                        true false m = Ret t m').
      { cbn [findSortableTopNew_loop]. rewrite ChaseFacts.bind_call.
        rewrite Ef. cbn [fst snd]. rewrite Etop. exact Hrun. }
      destruct (findSortableTopNew_later _ _ _ _ _ _ _ _ _ Hsame) as (Hs & Ha).
      split; [exact Hs|].
      destruct (new_current t); [exact Ha|].
      right. split; [discriminate|]. auto.
  - injection Hrun as <- <-. cbn. split; [reflexivity|]. left. auto.
Qed.

(** *** No active span *)

Ltac keeps_path :=
  match goal with
  | |- keeps _ (bind _ _) => apply ShapeOpsFacts.keeps_bind; [|intro]
  | |- keeps _ (ret _) => apply ShapeOpsFacts.keeps_ret
  | |- keeps _ (call _) => apply ShapeOpsFacts.keeps_call
  | |- keeps _ (exec _) => apply ShapeOpsFacts.keeps_exec
  | |- keeps _ (read _) => apply ShapeOpsFacts.keeps_read
  | |- keeps _ (SkASSERT _ _) => apply ShapeOpsFacts.keeps_SkASSERT
  | |- keeps _ (findIntersections _ _) =>
      apply ShapeOpsFacts.keeps_findIntersections
  | |- keeps _ (countSegments _ _ _) => apply ShapeOpsFacts.keeps_countSegments
  | |- keeps _ (match ?x with _ => _ end) => destruct x
  end.

Lemma keeps_operate_contours (Q : SkPath SkScalar -> Prop) two :
  keeps (onSimple Q) (operate_contours H two).
Proof. unfold operate_contours. repeat keeps_path. Qed.

Section Inactive.

Hypothesis inactive :
  forall s index endIndex xm xom op w,
    fst (activeOp H s index endIndex xm xom op w) = false.

Variable p0 : SkPath SkScalar.

Let P : Mem World SkScalar -> Prop := onSimple (fun p => p = p0).

Lemma spans_inactive bound op xm xom n :
  forall chase uns clos current index endIndex,
    triple P (bridgeOp_spans H bound op xm xom n chase uns clos
                             current index endIndex)
           (fun r s => P s /\ r = (uns, clos)) P.
Proof.
  induction n as [|n IH]; intros chase uns clos current index endIndex m Hm.
  - exact Hm.
  - cbn [bridgeOp_spans]. rewrite ChaseFacts.bind_call, inactive.
    rewrite ChaseFacts.bind_assoc, ChaseFacts.bind_call, ChaseFacts.bind_ret.
    cbn [heap simple asserts].
    set (m1 := mkMem _ (simple m) (asserts m)).
    set (chase1 := match fst (markAndChaseDoneBinary H current index endIndex _)
                   with Some sp => chase ++ [sp] | None => chase end).
    assert (Hm1 : P m1) by exact Hm.
    pose proof (ShapeOpsFacts.keeps_findChaseOp _ _ _ _ _ _ H (fun p => p = p0)
                  chase1 index endIndex m1 Hm1) as Hc.
    unfold bind.
    destruct (findChaseOp H chase1 index endIndex m1)
      as [[[[cur' chase'] index'] endIndex'] m2|m2|m2]; cbn in Hc;
      [|exact Hc|exact Hc].
    destruct cur' as [cur'|].
    + apply IH. exact Hc.
    + cbn. auto.
Qed.

Lemma loop_inactive bound contourList op xm xom n :
  forall fr,
    triple P (bridgeOp_loop H bound contourList op xm xom n fr)
           (fun b s => P s /\ b = closable fr) P.
Proof.
  induction n as [|n IH]; intros fr m Hm.
  - exact Hm.
  - cbn [bridgeOp_loop]. unfold bind at 1.
    pose proof (ShapeOpsFacts.keeps_findSortableTopNew _ _ _ _ _ _ H
                  (fun p => p = p0) bound contourList (firstContour fr)
                  (topLeft fr) (topUnsortable fr) m Hm) as Ht.
    destruct (findSortableTopNew H bound contourList (firstContour fr)
                                 (topLeft fr) (topUnsortable fr) m)
      as [t m1|m1|m1]; cbn in Ht; [|exact Ht|exact Ht].
    destruct (new_current t) as [current|].
    + unfold bind at 1.
      pose proof (spans_inactive bound op xm xom bound [] (unsortable fr)
                                 (closable fr) current (new_index t)
                                 (new_endIndex t) m1 Ht) as Hs.
      destruct (bridgeOp_spans H bound op xm xom bound [] (unsortable fr)
                               (closable fr) current (new_index t)
                               (new_endIndex t) m1)
        as [[u c] m2|m2|m2]; [|exact Hs|exact Hs].
      destruct Hs as (Hm2 & Er). injection Er as -> ->.
      exact (IH _ m2 Hm2).
    + destruct (new_unsortable t).
      * rewrite ChaseFacts.bind_SkASSERT.
        refine (IH (mkFrame _ _ _ _ _ _) _ _).
        destruct (negb (firstRetry fr)); exact Ht.
      * cbn. auto.
Qed.

End Inactive.

(** When [activeOp] holds for no span, [bridgeOp] emits nothing and closes
    nothing: however [operate] ends, [result] is the empty even-odd path;
    and a [bridgeOp] that returns has returned true. *)
Theorem operate_without_active_span (bound : nat)
        (one two result : SkPath SkScalar) (op : ShapeOp) :
  (forall s index endIndex xm xom op w,
      fst (activeOp H s index endIndex xm xom op w) = false) ->
  simple (final (operate H bound one two op result))
  = mkPath kEvenOdd_FillType [] /\
  (forall b m', operate_closable H bound one two op result = Ret (Some b) m' ->
                b = true).
Proof.
  intros Hin.
  set (p0 := mkPath (SkScalar:=SkScalar) kEvenOdd_FillType []).
  assert (Hentry : onSimple (fun p => p = p0) (operate_entry H one result))
    by reflexivity.
  split.
  - unfold operate.
    assert (Hk : keeps (onSimple (fun p => p = p0)) (operate_run H bound two op)).
    { unfold operate_run. apply ShapeOpsFacts.keeps_bind.
      - apply keeps_operate_contours.
      - intros [[[cl xm] xom]|]; [|apply ShapeOpsFacts.keeps_ret].
        apply ShapeOpsFacts.keeps_bind; [apply ShapeOpsFacts.keeps_exec|intros _].
        apply ShapeOpsFacts.keeps_bind; [|intro; apply ShapeOpsFacts.keeps_ret].
        apply AssertFacts.keeps_triple
          with (Q := fun b s => onSimple (fun p => p = p0) s
                                /\ b = closable (bridgeOp_init H)).
        + apply loop_inactive. exact Hin.
        + intros b s (Hs & _). exact Hs. }
    exact (Hk _ Hentry).
  - intros b m' E. unfold operate_closable in E. unfold bind at 1 in E.
    pose proof (keeps_operate_contours (fun p => p = p0) two _ Hentry) as Hc.
    destruct (operate_contours H two (operate_entry H one result))
      as [[[[cl xm] xom]|] m1|m1|m1]; try discriminate E.
    rewrite ChaseFacts.bind_exec in E. unfold bind in E.
    pose proof (loop_inactive Hin p0 bound cl op xm xom bound (bridgeOp_init H)
                              (mkMem (PathWrapper H (heap m1)) (simple m1)
                                     (asserts m1)) Hc) as Hl.
    unfold bridgeOp in E.
    destruct (bridgeOp_loop H bound cl op xm xom bound (bridgeOp_init H) _)
      as [b' m2|m2|m2]; try discriminate E.
    injection E as <- _. destruct Hl as (_ & ->). reflexivity.
Qed.

(** *** Every vertex sortable *)

Section Sortable.

Hypothesis sortable :
  forall current chase index endIndex op xm xom w,
    next_unsortable (fst (findNextOp H current chase index endIndex false
                                     op xm xom w)) = false.

Lemma trace_sortable op xm xom n :
  forall chase current index endIndex m t m',
    bridgeOp_trace H op xm xom n chase false current index endIndex m = Ret t m' ->
    tr_unsortable t = false /\
    (tr_active t = true -> isClosed H (heap m') (simple m') = true).
Proof.
  induction n as [|n IH]; intros chase current index endIndex m t m' Hrun.
  - discriminate Hrun.
  - cbn [bridgeOp_trace] in Hrun.
    rewrite ChaseFacts.bind_read, ChaseFacts.bind_SkASSERT in Hrun.
    cbn [orb] in Hrun.
    set (m0 := if negb (done H current (heap m)) then m
               else noting bridgeOp_unsortable_or_not_done m) in Hrun.
    assert (Hh : heap m0 = heap m) by (subst m0; destruct (negb _); reflexivity).
    clearbody m0.
    rewrite ChaseFacts.bind_call in Hrun. rewrite Hh in Hrun.
    pose proof (sortable current chase index endIndex op xm xom (heap m)) as Hu.
    set (nx := fst (findNextOp H current chase index endIndex false op xm xom
                               (heap m))) in *.
    destruct (next_segment nx) as [next|].
    + rewrite ChaseFacts.bind_onPath, ChaseFacts.bind_readPath,
        ChaseFacts.bind_read in Hrun.
      cbn [heap simple asserts] in Hrun. rewrite Hu in Hrun.
      cbn [negb orb] in Hrun. rewrite Bool.andb_true_r in Hrun.
      match type of Hrun with
      | (if negb ?c then _ else _) _ = _ => destruct c eqn:Eic
      end; cbn [negb] in Hrun.
      * injection Hrun as <- <-. cbn [tr_unsortable tr_active heap simple].
        split; [reflexivity|]. intros _. exact Eic.
      * exact (IH _ _ _ _ _ _ _ Hrun).
    + assert (Hy : yields (fun t => tr_active t = false
                                    /\ tr_unsortable t = next_unsortable nx)
                     (SkASSERT bridgeOp_not_unsortable (negb (next_unsortable nx)) ;;;
                      hm <- readPath (hasMove H) ;;
                      v <- read (verb H current) ;;
                      ic <- readPath (isClosed H) ;;
                      (if negb (next_unsortable nx) && hm
                          && negb match v with kLine_Verb => true | _ => false end
                          && negb ic
                       then onPath (addCurveTo H current index endIndex true) ;;;
                            ic' <- readPath (isClosed H) ;;
                            SkASSERT bridgeOp_isClosed ic'
                       else ret tt) ;;;
                      ret (mkTrace false (next_chase nx) (next_unsortable nx)
                                   current index endIndex))%run).
      { repeat AssertFacts.yields_step; auto. }
      destruct (Hy _ _ _ Hrun) as (Ha & Hn). rewrite Hn, Ha.
      split; [exact Hu|]. discriminate.
Qed.

Lemma contour_sortable bound op xm xom chase clos current index endIndex :
  yields (fun r => snd (fst (fst (fst r))) = false /\ snd (fst (fst r)) = clos)
         (bridgeOp_contour H bound op xm xom chase false clos
                           current index endIndex).
Proof.
  intros m r m' Hrun. unfold bridgeOp_contour in Hrun.
  unfold bind at 1 in Hrun.
  destruct (bridgeOp_trace H op xm xom bound chase false current index endIndex m)
    as [t m1|m1|m1] eqn:Et; try discriminate Hrun.
  destruct (trace_sortable _ _ _ _ _ _ _ _ _ _ _ Et) as (Hu & Hc).
  rewrite ChaseFacts.bind_readPath in Hrun.
  assert (Hcond : tr_active t && negb (isClosed H (heap m1) (simple m1)) = false).
  { destruct (tr_active t); [|reflexivity]. rewrite (Hc eq_refl). reflexivity. }
  rewrite Hcond, ChaseFacts.bind_ret, ChaseFacts.bind_onPath in Hrun.
  injection Hrun as <- _. cbn. auto.
Qed.

Lemma spans_sortable bound op xm xom n :
  forall chase clos current index endIndex,
    yields (fun r => r = (false, clos))
           (bridgeOp_spans H bound op xm xom n chase false clos
                           current index endIndex).
Proof.
  induction n as [|n IH]; intros chase clos current index endIndex;
    cbn [bridgeOp_spans].
  - apply ShapeOpsFacts.yields_out_of_fuel.
  - apply ShapeOpsFacts.yields_bind; intros a.
    apply (ShapeOpsFacts.yields_bind_with
             (fun r => snd (fst (fst (fst r))) = false
                       /\ snd (fst (fst r)) = clos)).
    + destruct a.
      * apply contour_sortable.
      * repeat AssertFacts.yields_step; cbn; auto.
    + intros [[[[ch u] c] i] e] (Hu & Hc). cbn in Hu, Hc. subst u c.
      repeat AssertFacts.yields_step. reflexivity.
Qed.

Lemma loop_sortable bound contourList op xm xom n :
  forall fr, unsortable fr = false ->
    yields (fun b => b = closable fr)
           (bridgeOp_loop H bound contourList op xm xom n fr).
Proof.
  induction n as [|n IH]; intros fr Hfr; cbn [bridgeOp_loop].
  - apply ShapeOpsFacts.yields_out_of_fuel.
  - apply ShapeOpsFacts.yields_bind; intros t.
    destruct (new_current t) as [current|].
    + rewrite Hfr.
      apply (ShapeOpsFacts.yields_bind_with (fun r => r = (false, closable fr))).
      * apply spans_sortable.
      * intros r ->. exact (IH (mkFrame _ _ _ _ _ _) eq_refl).
    + destruct (new_unsortable t).
      * apply ShapeOpsFacts.yields_bind; intros ?.
        exact (IH (mkFrame _ _ _ _ _ _) Hfr).
      * apply ShapeOpsFacts.yields_ret. reflexivity.
Qed.

End Sortable.

(** The flag of [bridgeOp] is cleared on the unsortable path only: when
    [findNextOp], called with [unsortable] off, never turns it on, a
    [bridgeOp] that returns has returned true, for every store and path it
    starts from, and so has the one inside [operate]. *)
Theorem bridgeOp_closable_when_sortable (bound : nat)
        (contourList : list Contour) (op : ShapeOp) (xm xom : Z)
        (one two result : SkPath SkScalar) :
  (forall current chase index endIndex op xm xom w,
      next_unsortable (fst (findNextOp H current chase index endIndex false
                                       op xm xom w)) = false) ->
  (forall m b m', bridgeOp H bound contourList op xm xom m = Ret b m' ->
                  b = true) /\
  (forall b m', operate_closable H bound one two op result = Ret (Some b) m' ->
                b = true).
Proof.
  intros Hso.
  assert (Hb : forall cl xm xom m b m',
             bridgeOp H bound cl op xm xom m = Ret b m' -> b = true).
  { intros cl xm' xom' m b m' E.
    exact (loop_sortable Hso bound cl op xm' xom' bound (bridgeOp_init H)
                         eq_refl m b m' E). }
  split; [apply Hb|].
  intros b m' E. unfold operate_closable in E. unfold bind at 1 in E.
  destruct (operate_contours H two (operate_entry H one result))
    as [[[[cl xm'] xom']|] m1|m1|m1]; try discriminate E.
  rewrite ChaseFacts.bind_exec in E. unfold bind in E.
  destruct (bridgeOp H bound cl op xm' xom' _) as [b' m2|m2|m2] eqn:Eb;
    try discriminate E.
  injection E as <- _. exact (Hb _ _ _ _ _ _ Eb).
Qed.

End Facts.

Lemma sortable_never_unsortable :
  forall current chase index endIndex op xm xom w,
    next_unsortable (fst (findNextOp Variants.sortable current chase index
                                     endIndex false op xm xom w)) = false.
Proof.
  intros current chase index endIndex op xm xom w.
  unfold Variants.sortable, Variants.with_findNextOp.
  cbn [findNextOp]. unfold Toy.step.
  destruct (Toy.program w) as [|[p|p|p1 p2|p1 p2 p3|] rest]; try reflexivity.
  destruct (fY p =? 2) eqn:E; reflexivity.
Qed.

Lemma bridgeOp_closable_when_sortable_witness :
  (forall current chase index endIndex op xm xom w,
      next_unsortable (fst (findNextOp Variants.sortable current chase index
                                       endIndex false op xm xom w)) = false) /\
  operate_closable Variants.sortable 5 Toy.stalling Toy.closing kUnion_Op Toy.stale
  = Ret (Some true)
        (final (operate_closable Variants.sortable 5 Toy.stalling Toy.closing
                                 kUnion_Op Toy.stale)).
Proof.
  split; [exact sortable_never_unsortable|].
  assert (E : exists b,
             operate_closable Variants.sortable 5 Toy.stalling Toy.closing
                              kUnion_Op Toy.stale
             = Ret (Some b)
                   (final (operate_closable Variants.sortable 5 Toy.stalling
                                            Toy.closing kUnion_Op Toy.stale)))
    by (exists true; reflexivity).
  destruct E as (b & E).
  rewrite (proj2 (bridgeOp_closable_when_sortable _ _ _ _ _ _ Variants.sortable
                    5 [] kUnion_Op 0 0 Toy.stalling Toy.closing Toy.stale
                    sortable_never_unsortable) b _ E) in E.
  exact E.
Defined.

Lemma operate_without_active_span_witness :
  (forall s index endIndex xm xom op w,
      fst (activeOp Variants.inactive s index endIndex xm xom op w) = false) /\
  simple (final (operate Variants.inactive 5 Toy.closing Toy.stacked kUnion_Op
                         Toy.stale))
  = mkPath kEvenOdd_FillType [].
Proof.
  split; [intros; reflexivity|].
  apply (operate_without_active_span _ _ _ _ _ _ Variants.inactive 5 Toy.closing
           Toy.stacked Toy.stale kUnion_Op).
  intros; reflexivity.
Defined.

Lemma findSortableTopNew_gives_up_witness :
  let m := mkMem (Toy.mkStore [moveTo (mkPoint (-3) 4)] [0; 4] [] [(7, 0, 0)] []
                              false)
                 (mkPath kEvenOdd_FillType []) [] in
  let run := findSortableTopNew (Toy.env true) 3 [0; 1]%nat false (mkPoint 0 0)
                                false m in
  run = Ret (mkTopNew None false 0 0 (mkPoint (-3) 4) false) (final run) /\
  asserts (final run) = [findSortableTopNew_0].
Proof.
  intros m run.
  assert (E : run = Ret (mkTopNew None false 0 0 (mkPoint (-3) 4) false)
                        (final run)) by reflexivity.
  split; [exact E|].
  destruct (findSortableTopNew_gives_up _ _ _ _ _ _ (Toy.env true) 3 [0; 1]%nat
              false (mkPoint 0 0) false m (final run) _ E) as (_ & Hn).
  reflexivity.
Defined.

End BridgeFacts.

(** ** The loader bridge: the perimeter check and file over HTTP *)

Module LoaderFacts.

Import String LoaderBridge.

Lemma length_append (a b : string) :
  length (append a b) = (length a + length b)%nat.
Proof. induction a as [|c a IH]; cbn; [reflexivity | now rewrite IH]. Qed.

Lemma prefix_append (a b : string) : prefix a (append a b) = true.
Proof.
  induction a as [|c a IH]; cbn; [destruct b; reflexivity|].
  destruct (Ascii.ascii_dec c c) as [_|N]; [exact IH | now elim N].
Qed.

Lemma find_prefixed (needle rest : string) :
  find (append needle rest) needle = Some 0%nat.
Proof.
  unfold find. pose proof (prefix_append needle rest) as P.
  destruct (append needle rest) as [|c s].
  - destruct needle; [reflexivity | discriminate].
  - cbn [index]. now rewrite P.
Qed.

Lemma substring_all (s : string) : substring 0 (length s) s = s.
Proof. induction s as [|c s IH]; cbn; [reflexivity | now rewrite IH]. Qed.

Lemma substring_split (s : string) (m : nat) :
  append (substring 0 m s) (substring m (length s - m) s) = s.
Proof.
  revert m; induction s as [|c s IH]; intros [|m]; cbn; try reflexivity.
  - now rewrite substring_all.
  - now rewrite IH.
Qed.

Lemma substring_skip (a b : string) (k : nat) :
  substring (length a) k (append a b) = substring 0 k b.
Proof. induction a as [|c a IH]; cbn; [reflexivity | exact IH]. Qed.

Lemma length_substring (s : string) (n m : nat) :
  length (substring n m s) = Nat.min m (length s - n).
Proof.
  revert n m; induction s as [|c s IH]; intros [|n] [|m]; cbn;
    try reflexivity; rewrite IH; try reflexivity.
  now rewrite Nat.sub_0_r.
Qed.

Lemma length_0 (s : string) : length s = 0%nat <-> s = EmptyString.
Proof. destruct s; cbn; split; congruence. Qed.

(** [ends_with] answers for the first place the needle is found at, and for
    no other: it holds exactly when the haystack is some text followed by
    the needle and the needle is not found before the end of that text. *)
Theorem ends_with_first_occurrence (haystack needle : string) :
  ends_with haystack needle = true <->
  exists front, haystack = append front needle /\
                find haystack needle = Some (length front).
Proof.
  unfold ends_with. split.
  - destruct (find haystack needle) as [pos|] eqn:E; [|discriminate].
    intros Hl. apply Nat.eqb_eq in Hl.
    exists (substring 0 pos haystack). split.
    + pose proof (index_correct1 _ _ _ _ E) as Hs.
      rewrite <- (substring_split haystack pos) at 1.
      f_equal. replace (length haystack - pos)%nat with (length needle) by lia.
      exact Hs.
    + f_equal. rewrite length_substring. lia.
  - intros (front & -> & ->). rewrite length_append. apply Nat.eqb_refl.
Qed.

(** A haystack that starts with the needle is found to end with it only
    when it is the needle itself: the needle at the end of a longer text is
    missed when the text starts with it too, and the empty needle ends the
    empty haystack only. *)
Theorem ends_with_prefixed (needle rest : string) :
  ends_with (append needle rest) needle = true <-> rest = EmptyString.
Proof.
  unfold ends_with. rewrite find_prefixed, length_append, Nat.eqb_eq.
  rewrite <- length_0. lia.
Qed.

Lemma round_trip_text (http_prefix_ s : string) (found : nat) :
  replace_front (length http_prefix_) (substring 0 found s)
                (replace_front found http_prefix_ s) = s.
Proof.
  unfold replace_front.
  rewrite substring_skip, length_append.
  replace (length http_prefix_
           + length (substring found (length s - found) s)
           - length http_prefix_)%nat
    with (length (substring found (length s - found) s)) by lia.
  rewrite substring_all. apply substring_split.
Qed.

Lemma found_prefix_not_empty (template s : string) (found : nat) :
  template <> EmptyString ->
  find s template = Some found ->
  eqb (substring 0 (found + length template) s) "" = false.
Proof.
  intros Ht Hf. apply eqb_neq. intros E.
  apply length_0 in E. rewrite length_substring in E.
  apply index_correct1 in Hf.
  assert (L : length (substring found (length template) s) = length template)
    by now rewrite Hf.
  rewrite length_substring in L.
  assert (length template <> 0)%nat by (rewrite length_0; exact Ht).
  lia.
Qed.

Section Facts.

Variable GURL : Type.
Variable newGURL : string -> GURL.
Variable spec : GURL -> string.
Variable host : GURL -> string.
Variable SchemeIs : GURL -> string -> bool.
Variable SchemeIsSecure : GURL -> bool.
Variable SchemeIsFile : GURL -> bool.
Variable MatchDomainWhiteList : string -> bool.
Variable MatchMIMEWhiteList : string -> bool.
Variable FilePath : Type.
Variable FileURLToFilePath : GURL -> bool * FilePath.
Variable GetMimeTypeFromFile : FilePath -> string -> string.
Variable LOAD_BYPASS_CACHE : Z.
Variable ERR_FILE_NOT_FOUND : Z.
Variable ERR_ACCESS_DENIED : Z.
Variable ENABLE_CONSOLE : bool.

Local Abbreviation SecurityCheck :=
  (DoesHttpResponsePassSecurityCheck spec host SchemeIs SchemeIsSecure
     MatchDomainWhiteList MatchMIMEWhiteList ENABLE_CONSOLE).
Local Abbreviation ConvertRequest :=
  (ConvertRequestParamsForFileOverHTTPIfNeeded newGURL spec SchemeIsFile
     LOAD_BYPASS_CACHE).
Local Abbreviation ConvertResponse :=
  (ConvertResponseInfoForFileOverHTTPIfNeeded newGURL spec FileURLToFilePath
     GetMimeTypeFromFile ERR_FILE_NOT_FOUND ERR_ACCESS_DENIED).
Local Abbreviation ResponseStarted :=
  (OnResponseStarted newGURL spec host SchemeIs SchemeIsSecure
     MatchDomainWhiteList MatchMIMEWhiteList FileURLToFilePath
     GetMimeTypeFromFile ERR_FILE_NOT_FOUND ERR_ACCESS_DENIED ENABLE_CONSOLE).

Ltac run_check :=
  unfold DoesHttpResponsePassSecurityCheck, is_204, whitelisted, not_enforced,
    headers_response_code, output_whitelist_error, output_error, DCHECK,
    bind, ret, undefined.

(** The security check changes nothing but the list of errors, to which it
    adds one message at most, and none where logging is off; the check
    [DCHECK_NE(0, info.content_length)] of its 204 branch cannot fail. *)
Theorem SecurityCheck_only_logs (u : GURL) (info : ResourceResponseInfo)
        (b : Bridge GURL) :
  let b' := final (SecurityCheck u info b) in
  exists logged,
    b' = mkBridge (g_perimeter_log_enabled b) (g_perimeter_check_enabled b)
                  (g_file_over_http_params b) (file_url_prefix_ b)
                  (failed_file_request_status_ b)
                  (errors b ++ logged) (violated b) /\
    (List.length logged <= 1)%nat /\
    (ENABLE_CONSOLE = true -> g_perimeter_log_enabled b = false ->
     logged = []).
Proof.
  assert (Same : exists logged,
             b = mkBridge (g_perimeter_log_enabled b)
                          (g_perimeter_check_enabled b)
                          (g_file_over_http_params b) (file_url_prefix_ b)
                          (failed_file_request_status_ b)
                          (errors b ++ logged) (violated b) /\
             (List.length logged <= 1)%nat /\
             (ENABLE_CONSOLE = true -> g_perimeter_log_enabled b = false ->
              logged = [])).
  { exists []. rewrite app_nil_r. destruct b; cbn. auto. }
  cbv zeta. run_check.
  destruct (SchemeIs u "local"); [exact Same|].
  destruct (headers info) as [[code]|]; [|exact Same].
  cbn [response_code final].
  destruct (code =? 204) eqn:E204; cbn [andb].
  - destruct (content_length info =? 0) eqn:Elen; [exact Same|].
    rewrite Z.eqb_sym in Elen.
    destruct (MatchDomainWhiteList (host u)); cbn [negb];
      destruct ENABLE_CONSOLE; try destruct (g_perimeter_log_enabled b) eqn:El;
      cbn [final]; rewrite ?E204, ?Elen; cbn [negb final];
      rewrite ?El; cbn [final g_perimeter_log_enabled g_perimeter_check_enabled
                         g_file_over_http_params file_url_prefix_
                         failed_file_request_status_ errors violated];
      first [ exact Same
            | eexists [_]; split; [reflexivity|];
              split; [cbn; lia | congruence] ].
  - destruct (MatchDomainWhiteList (host u)); cbn [negb];
      destruct (NeedsSSL MatchMIMEWhiteList (mime_type info)
                && negb (SchemeIsSecure u));
      destruct ENABLE_CONSOLE; try destruct (g_perimeter_log_enabled b) eqn:El;
      cbn [final]; rewrite ?E204; cbn [negb final];
      rewrite ?El; cbn [final g_perimeter_log_enabled g_perimeter_check_enabled
                         g_file_over_http_params file_url_prefix_
                         failed_file_request_status_ errors violated];
      first [ exact Same
            | eexists [_]; split; [reflexivity|];
              split; [cbn; lia | congruence] ].
Qed.

(** With the perimeter check in force (always without the console, and with
    it unless [SetPerimeterCheckEnabled(false)] was called), a response with
    headers passes exactly when the URL is local, or the response is a 204
    without content, or the host is on the white list, the response is not
    a 204, and the MIME type is on its white list or the scheme is secure.
    A response that passes puts out no error. *)
Theorem SecurityCheck_enforced (u : GURL) (info : ResourceResponseInfo)
        (h : HttpResponseHeaders) (b : Bridge GURL) :
  negb ENABLE_CONSOLE || g_perimeter_check_enabled b = true ->
  headers info = Some h ->
  let is204 := (response_code h =? 204) in
  let pass :=
    SchemeIs u "local"
    || is204 && (content_length info =? 0)
    || MatchDomainWhiteList (host u) && negb is204
       && (MatchMIMEWhiteList (mime_type info) || SchemeIsSecure u) in
  returned (SecurityCheck u info b) = Some pass /\
  (pass = true -> SecurityCheck u info b = Ret true b).
Proof.
  intros Hon Hh. cbv zeta. run_check. unfold NeedsSSL. rewrite Hh.
  destruct h as [code]. cbn [response_code].
  destruct (SchemeIs u "local"); [now split|].
  rewrite ?(Z.eqb_sym 0 (content_length info)).
  destruct (code =? 204) eqn:E204;
    destruct (content_length info =? 0) eqn:Elen;
    destruct (MatchDomainWhiteList (host u));
    destruct (MatchMIMEWhiteList (mime_type info));
    destruct (SchemeIsSecure u);
    destruct ENABLE_CONSOLE;
    destruct (g_perimeter_log_enabled b) eqn:El;
    destruct (g_perimeter_check_enabled b) eqn:Eon;
    try discriminate Hon;
    cbn [andb orb negb returned]; rewrite ?E204;
    cbn [andb orb negb returned g_perimeter_check_enabled
         g_perimeter_log_enabled];
    rewrite ?El, ?Eon;
    cbn [andb orb negb returned g_perimeter_check_enabled
         g_perimeter_log_enabled];
    rewrite ?El, ?Eon;
    split; try reflexivity; try discriminate.
Qed.

(** With the perimeter check switched off (possible with the console only)
    the check still fails one kind of response: a 204 that has content and
    comes from a host on the white list.  Everything else passes, the same
    204 from a host that is not on the list included. *)
Theorem SecurityCheck_not_enforced (u : GURL) (info : ResourceResponseInfo)
        (h : HttpResponseHeaders) (b : Bridge GURL) :
  ENABLE_CONSOLE = true ->
  g_perimeter_check_enabled b = false ->
  headers info = Some h ->
  returned (SecurityCheck u info b)
  = Some (negb (negb (SchemeIs u "local")
                && MatchDomainWhiteList (host u)
                && (response_code h =? 204)
                && negb (content_length info =? 0))).
Proof.
  intros Hc Hoff Hh. run_check. unfold NeedsSSL. rewrite Hh, Hc.
  destruct h as [code]. cbn [response_code].
  destruct (SchemeIs u "local"); [reflexivity|].
  rewrite ?(Z.eqb_sym 0 (content_length info)).
  destruct (code =? 204) eqn:E204;
    destruct (content_length info =? 0) eqn:Elen;
    destruct (MatchDomainWhiteList (host u));
    destruct (MatchMIMEWhiteList (mime_type info));
    destruct (SchemeIsSecure u);
    destruct (g_perimeter_log_enabled b) eqn:El;
    cbn [andb orb negb returned]; rewrite ?E204;
    cbn [andb orb negb returned g_perimeter_check_enabled
         g_perimeter_log_enabled];
    rewrite ?El, ?Hoff;
    cbn [andb orb negb returned g_perimeter_check_enabled
         g_perimeter_log_enabled];
    rewrite ?El, ?Hoff;
    reflexivity.
Qed.

Ltac run_convert :=
  unfold OnResponseStarted, ConvertRequestParamsForFileOverHTTPIfNeeded,
    ConvertResponseInfoForFileOverHTTPIfNeeded, set_members, headers_response_code, output_error, DCHECK,
    bind, ret, undefined.

(** A file request over HTTP and back: when file over HTTP is allowed with a
    template that is not empty, the URL of a file request holds the template,
    and [GURL] keeps the text of the URLs under the HTTP prefix, then the
    response to the converted request is converted back for the very URL
    that was asked for: with status 200 the MIME type is the one of that
    file, the headers are dropped and no failure is noted. *)
Theorem file_over_HTTP_round_trip (params : RequestParams GURL)
        (info : ResourceResponseInfo) (h : HttpResponseHeaders)
        (g : FileOverHTTPParams GURL) (b : Bridge GURL) (found : nat) :
  g_file_over_http_params b = Some g ->
  SchemeIsFile (url params) = true ->
  file_path_template g <> EmptyString ->
  find (spec (url params)) (file_path_template g) = Some found ->
  (forall rest, spec (newGURL (append (spec (http_prefix g)) rest))
                = append (spec (http_prefix g)) rest) ->
  headers info = Some h ->
  response_code h = 200 ->
  exists b',
    bind (ConvertRequest params)
         (fun params' => ConvertResponse (url params') info) b
    = Ret (true,
           mkInfo None (content_length info)
                  (GetMimeTypeFromFile
                     (snd (FileURLToFilePath (newGURL (spec (url params)))))
                     ""))
          b' /\
    file_url_prefix_ b'
    = substring 0 (found + length (file_path_template g)) (spec (url params)) /\
    failed_file_request_status_ b' = None /\
    errors b' = errors b.
Proof.
  intros Hg Hfile Ht Hfound Hspec Hh H200.
  assert (Hs : forall k,
             spec (newGURL (replace_front k (spec (http_prefix g))
                                          (spec (url params))))
             = replace_front k (spec (http_prefix g)) (spec (url params)))
    by (intros k; unfold replace_front; apply Hspec).
  run_convert. cbn [g_file_over_http_params]. rewrite Hg, Hfile.
  cbn [negb url method]. 
  destruct (eqb (method params) "GET" || eqb (method params) "POST"
            || eqb (method params) "");
    destruct (negb (download_to_file params));
    cbn [g_file_over_http_params file_url_prefix_ url]; rewrite ?Hg;
    rewrite Hfound;
    cbn [g_file_over_http_params file_url_prefix_ url]; rewrite ?Hg;
    rewrite (found_prefix_not_empty _ _ _ Ht Hfound);
    rewrite ?Hs, ?round_trip_text, Hh, H200; cbn [Z.eqb Pos.eqb];
    match goal with
    | |- context [if ?c then _ else _] => destruct c
    end;
    try match goal with
    | |- context [if ?c then _ else _] => destruct c
    end;
    eexists; (split; [reflexivity|]); cbn; auto.
Qed.

(** A request that is not converted (file over HTTP is not allowed, or the
    URL is not a file URL) keeps its parameters, and what becomes of its
    response is the security check alone: the response is handed on as it
    came when it passes, and the request is cancelled when it does not. *)
Theorem plain_request_meets_SecurityCheck (params : RequestParams GURL)
        (b : Bridge GURL) :
  g_file_over_http_params b = None \/ SchemeIsFile (url params) = false ->
  exists b1,
    ConvertRequest params b = Ret params b1 /\
    forall (u : GURL) (info : ResourceResponseInfo),
      ResponseStarted true u info b1
      = bind (SecurityCheck u info)
             (fun pass => ret (if pass
                               then OnReceivedResponse_AsyncReadData info
                               else AsyncCancel)) b1.
Proof.
  intros Hplain.
  exists (mkBridge (g_perimeter_log_enabled b) (g_perimeter_check_enabled b)
                   (g_file_over_http_params b) "" None (errors b)
                   (violated b)).
  split.
  - run_convert. cbn [g_file_over_http_params].
    destruct Hplain as [-> | ->]; [|destruct (g_file_over_http_params b)];
      reflexivity.
  - intros u info. run_convert.
    cbn [g_file_over_http_params file_url_prefix_ eqb].
    destruct (g_file_over_http_params b);
      cbn [failed_file_request_status_ andb];
      match goal with
      | |- context [SecurityCheck u info ?b1] =>
          destruct (SecurityCheck u info b1) as [[] ?| |]
      end; reflexivity.
Qed.

(** A file request over HTTP that is not answered with 200 is cancelled,
    whatever the white lists hold: 404 is noted as a file that was not
    found, every other status as a denied access, and one error is put
    out. *)
Theorem failed_file_request_is_cancelled (u : GURL)
        (info : ResourceResponseInfo) (h : HttpResponseHeaders)
        (g : FileOverHTTPParams GURL) (b : Bridge GURL) :
  g_file_over_http_params b = Some g ->
  file_url_prefix_ b <> EmptyString ->
  headers info = Some h ->
  response_code h <> 200 ->
  exists b',
    ResponseStarted true u info b = Ret AsyncCancel b' /\
    failed_file_request_status_ b'
    = Some (if response_code h =? 404 then ERR_FILE_NOT_FOUND
            else ERR_ACCESS_DENIED) /\
    errors b' = errors b ++ [file_request_status_failed (spec u)].
Proof.
  intros Hg Hp Hh Hcode. run_convert. rewrite Hg.
  apply eqb_neq in Hp. rewrite Hp, Hh.
  assert (E : (200 =? response_code h) = false) by (apply Z.eqb_neq; congruence).
  destruct (negb (eqb (spec u) "")
            && prefix (spec (http_prefix g)) (spec u));
    match goal with
    | |- context [if fst ?c then _ else _] => destruct (fst c)
    end;
    rewrite E;
    destruct ((response_code h =? 404) || (response_code h =? 403));
    cbn [failed_file_request_status_ andb];
    eexists; (split; [reflexivity|]); cbn; auto.
Qed.

(** A file request over HTTP that is answered with 200: the conversion of
    the response drops the headers, and the security check that follows
    reads the status through them for every URL that is not local, so the
    run ends in a read through a null pointer. *)
Theorem served_file_reads_null_headers (u : GURL)
        (info : ResourceResponseInfo) (h : HttpResponseHeaders)
        (g : FileOverHTTPParams GURL) (b : Bridge GURL) :
  g_file_over_http_params b = Some g ->
  file_url_prefix_ b <> EmptyString ->
  failed_file_request_status_ b = None ->
  headers info = Some h ->
  response_code h = 200 ->
  SchemeIs u "local" = false ->
  exists b', ResponseStarted true u info b = Undefined b'.
Proof.
  intros Hg Hp Hf Hh Hcode Hlocal. run_convert.
  unfold DoesHttpResponsePassSecurityCheck, is_204, headers_response_code,
    bind, undefined.
  rewrite Hg. apply eqb_neq in Hp. rewrite Hp, Hh, Hcode, Hlocal.
  cbn [Z.eqb Pos.eqb].
  destruct (negb (eqb (spec u) "")
            && prefix (spec (http_prefix g)) (spec u));
    match goal with
    | |- context [if fst ?c then _ else _] => destruct (fst c)
    end;
    cbn [failed_file_request_status_]; rewrite Hf;
    cbn [andb headers]; eexists; reflexivity.
Qed.

End Facts.

Local Open Scope string_scope.

(** [Plain.serving] is the state after file over HTTP was allowed and a
    request for a file under the template was converted. *)
Lemma serving_is_reached :
  let asked := "file:///content/a.css" in
  bind (AllowFileOverHTTP Plain.SchemeIs (fun _ => true) "/content/"
                          "http://dev.example/")
       (fun _ => ConvertRequestParamsForFileOverHTTPIfNeeded
                   Plain.newGURL Plain.spec Plain.SchemeIsFile
                   Plain.LOAD_BYPASS_CACHE (mkParams asked "" false asked 0))
       Plain.start
  = Ret (mkParams "http://dev.example/a.css" "GET" false
                  "http://dev.example/a.css" Plain.LOAD_BYPASS_CACHE)
        Plain.serving.
Proof. reflexivity. Qed.

Lemma SecurityCheck_enforced_witness :
  let u := "http://listed.example/app.js" in
  let info := Plain.html 200 10 in
  negb false || g_perimeter_check_enabled Plain.start = true /\
  headers info = Some (mkHeaders 200) /\
  returned (DoesHttpResponsePassSecurityCheck
              Plain.spec Plain.host Plain.SchemeIs Plain.SchemeIsSecure
              Plain.MatchDomainWhiteList Plain.MatchMIMEWhiteList false
              u info Plain.start)
  = Some false.
Proof.
  intros u info. split; [reflexivity|]. split; [reflexivity|].
  exact (proj1 (SecurityCheck_enforced
                  Plain.GURL Plain.spec Plain.host Plain.SchemeIs
                  Plain.SchemeIsSecure Plain.MatchDomainWhiteList
                  Plain.MatchMIMEWhiteList false u info (mkHeaders 200)
                  Plain.start eq_refl eq_refl)).
Defined.

Lemma SecurityCheck_not_enforced_witness :
  let u := "https://listed.example/ping" in
  let info := Plain.html 204 5 in
  let b := mkBridge true false None "" None [] [] in
  true = true /\ g_perimeter_check_enabled b = false /\
  headers info = Some (mkHeaders 204) /\
  returned (DoesHttpResponsePassSecurityCheck
              Plain.spec Plain.host Plain.SchemeIs Plain.SchemeIsSecure
              Plain.MatchDomainWhiteList Plain.MatchMIMEWhiteList true
              u info b)
  = Some false.
Proof.
  intros u info b. repeat (split; [reflexivity|]).
  exact (SecurityCheck_not_enforced
           Plain.GURL Plain.spec Plain.host Plain.SchemeIs
           Plain.SchemeIsSecure Plain.MatchDomainWhiteList
           Plain.MatchMIMEWhiteList true u info (mkHeaders 204) b
           eq_refl eq_refl eq_refl).
Defined.

Lemma file_over_HTTP_round_trip_witness :
  let asked := "file:///content/a.css" in
  let params := mkParams asked "" false asked 0 in
  let g := mkFileOverHTTP "/content/" "http://dev.example/" in
  let b := mkBridge true true (Some g) "" None [] [] in
  let info := Plain.html 200 10 in
  g_file_over_http_params b = Some g /\
  Plain.SchemeIsFile (url params) = true /\
  file_path_template g <> "" /\
  find (Plain.spec (url params)) (file_path_template g) = Some 7%nat /\
  (forall rest, Plain.spec (Plain.newGURL (Plain.spec (http_prefix g) ++ rest))
                = Plain.spec (http_prefix g) ++ rest) /\
  headers info = Some (mkHeaders 200) /\
  exists b',
    bind (ConvertRequestParamsForFileOverHTTPIfNeeded
            Plain.newGURL Plain.spec Plain.SchemeIsFile Plain.LOAD_BYPASS_CACHE
            params)
         (fun params' =>
            ConvertResponseInfoForFileOverHTTPIfNeeded
              Plain.newGURL Plain.spec Plain.FileURLToFilePath
              Plain.GetMimeTypeFromFile Plain.ERR_FILE_NOT_FOUND
              Plain.ERR_ACCESS_DENIED (url params') info) b
    = Ret (true, mkInfo None 10 "text/css") b' /\
    file_url_prefix_ b' = "file:///content/" /\
    failed_file_request_status_ b' = None /\
    errors b' = [].
Proof.
  intros asked params g b info.
  split; [reflexivity|]. split; [reflexivity|]. split; [discriminate|].
  split; [reflexivity|]. split; [reflexivity|]. split; [reflexivity|].
  apply (file_over_HTTP_round_trip
           Plain.GURL Plain.newGURL Plain.spec Plain.SchemeIsFile
           string Plain.FileURLToFilePath Plain.GetMimeTypeFromFile
           Plain.LOAD_BYPASS_CACHE Plain.ERR_FILE_NOT_FOUND
           Plain.ERR_ACCESS_DENIED params info (mkHeaders 200) g b 7).
  - reflexivity.
  - reflexivity.
  - discriminate.
  - reflexivity.
  - reflexivity.
  - reflexivity.
  - reflexivity.
Defined.

Lemma plain_request_meets_SecurityCheck_witness :
  let asked := "https://listed.example/app.js" in
  let params := mkParams asked "GET" false asked 0 in
  (g_file_over_http_params Plain.start = None \/
   Plain.SchemeIsFile (url params) = false) /\
  exists b1,
    ConvertRequestParamsForFileOverHTTPIfNeeded
      Plain.newGURL Plain.spec Plain.SchemeIsFile Plain.LOAD_BYPASS_CACHE
      params Plain.start
    = Ret params b1 /\
    forall u info,
      OnResponseStarted
        Plain.newGURL Plain.spec Plain.host Plain.SchemeIs
        Plain.SchemeIsSecure Plain.MatchDomainWhiteList
        Plain.MatchMIMEWhiteList Plain.FileURLToFilePath
        Plain.GetMimeTypeFromFile Plain.ERR_FILE_NOT_FOUND
        Plain.ERR_ACCESS_DENIED false true u info b1
      = bind (DoesHttpResponsePassSecurityCheck
                Plain.spec Plain.host Plain.SchemeIs Plain.SchemeIsSecure
                Plain.MatchDomainWhiteList Plain.MatchMIMEWhiteList false
                u info)
             (fun pass => ret (if pass
                               then OnReceivedResponse_AsyncReadData info
                               else AsyncCancel)) b1.
Proof.
  intros asked params. split; [left; reflexivity|].
  apply (plain_request_meets_SecurityCheck
           Plain.GURL Plain.newGURL Plain.spec Plain.host Plain.SchemeIs
           Plain.SchemeIsSecure Plain.SchemeIsFile Plain.MatchDomainWhiteList
           Plain.MatchMIMEWhiteList string Plain.FileURLToFilePath
           Plain.GetMimeTypeFromFile Plain.LOAD_BYPASS_CACHE
           Plain.ERR_FILE_NOT_FOUND Plain.ERR_ACCESS_DENIED false params
           Plain.start).
  left; reflexivity.
Defined.

Lemma failed_file_request_is_cancelled_witness :
  let u := "http://dev.example/a.css" in
  let info := Plain.html 404 0 in
  g_file_over_http_params Plain.serving
  = Some (mkFileOverHTTP "/content/" "http://dev.example/") /\
  file_url_prefix_ Plain.serving <> "" /\
  headers info = Some (mkHeaders 404) /\
  response_code (mkHeaders 404) <> 200 /\
  exists b',
    OnResponseStarted
      Plain.newGURL Plain.spec Plain.host Plain.SchemeIs
      Plain.SchemeIsSecure Plain.MatchDomainWhiteList
      Plain.MatchMIMEWhiteList Plain.FileURLToFilePath
      Plain.GetMimeTypeFromFile Plain.ERR_FILE_NOT_FOUND
      Plain.ERR_ACCESS_DENIED false true u info Plain.serving
    = Ret AsyncCancel b' /\
    failed_file_request_status_ b' = Some Plain.ERR_FILE_NOT_FOUND /\
    errors b' = [file_request_status_failed u].
Proof.
  intros u info.
  split; [reflexivity|]. split; [discriminate|]. split; [reflexivity|].
  split; [discriminate|].
  apply (failed_file_request_is_cancelled
           Plain.GURL Plain.newGURL Plain.spec Plain.host Plain.SchemeIs
           Plain.SchemeIsSecure Plain.MatchDomainWhiteList
           Plain.MatchMIMEWhiteList string Plain.FileURLToFilePath
           Plain.GetMimeTypeFromFile Plain.ERR_FILE_NOT_FOUND
           Plain.ERR_ACCESS_DENIED false u info (mkHeaders 404)
           (mkFileOverHTTP "/content/" "http://dev.example/") Plain.serving).
  - reflexivity.
  - discriminate.
  - reflexivity.
  - discriminate.
Defined.

Lemma served_file_reads_null_headers_witness :
  let u := "http://dev.example/a.css" in
  let info := Plain.html 200 10 in
  g_file_over_http_params Plain.serving
  = Some (mkFileOverHTTP "/content/" "http://dev.example/") /\
  file_url_prefix_ Plain.serving <> "" /\
  failed_file_request_status_ Plain.serving = None /\
  headers info = Some (mkHeaders 200) /\
  Plain.SchemeIs u "local" = false /\
  exists b',
    OnResponseStarted
      Plain.newGURL Plain.spec Plain.host Plain.SchemeIs
      Plain.SchemeIsSecure Plain.MatchDomainWhiteList
      Plain.MatchMIMEWhiteList Plain.FileURLToFilePath
      Plain.GetMimeTypeFromFile Plain.ERR_FILE_NOT_FOUND
      Plain.ERR_ACCESS_DENIED false true u info Plain.serving
    = Undefined b'.
Proof.
  intros u info.
  split; [reflexivity|]. split; [discriminate|]. split; [reflexivity|].
  split; [reflexivity|]. split; [reflexivity|].
  apply (served_file_reads_null_headers
           Plain.GURL Plain.newGURL Plain.spec Plain.host Plain.SchemeIs
           Plain.SchemeIsSecure Plain.MatchDomainWhiteList
           Plain.MatchMIMEWhiteList string Plain.FileURLToFilePath
           Plain.GetMimeTypeFromFile Plain.ERR_FILE_NOT_FOUND
           Plain.ERR_ACCESS_DENIED false u info (mkHeaders 200)
           (mkFileOverHTTP "/content/" "http://dev.example/") Plain.serving).
  - reflexivity.
  - discriminate.
  - reflexivity.
  - reflexivity.
  - reflexivity.
  - reflexivity.
Defined.

End LoaderFacts.

(** ** The flag of [bridgeOp] *)

Module ClosableFacts.

Import ShapeOps.

Section Facts.

Variables (Contour Segment Span Angle World SkScalar : Type).
Variable H : Simplify Contour Segment Span Angle World SkScalar.

Section Flag.

Variables (bound : nat) (op : ShapeOp) (xm xom : Z).

(** A relation between the flag and the path that every traced contour
    hands on: holding of the flag and the path a contour starts with, it
    holds of the flag and the path the contour leaves. *)
Variable Phi : bool -> SkPath SkScalar -> Prop.
Hypothesis Phi_contour :
  forall chase uns clos current index endIndex m r m',
    Phi clos (simple m) ->
    bridgeOp_contour H bound op xm xom chase uns clos current index endIndex m
    = Ret r m' ->
    Phi (snd (fst (fst r))) (simple m').

Lemma bridgeOp_spans_flag (n : nat) :
  forall chase uns clos current index endIndex m u c m',
    Phi clos (simple m) ->
    bridgeOp_spans H bound op xm xom n chase uns clos current index endIndex m
    = Ret (u, c) m' ->
    Phi c (simple m').
Proof.
  induction n as [|n IH];
    intros chase uns clos current index endIndex m u c m' Hm Hrun.
  - discriminate Hrun.
  - cbn [bridgeOp_spans] in Hrun. rewrite ChaseFacts.bind_call in Hrun.
    set (m1 := mkMem _ (simple m) (asserts m)) in Hrun.
    assert (Hm1 : Phi clos (simple m1)) by exact Hm.
    unfold bind at 1 in Hrun.
    match type of Hrun with
    | match ?body with _ => _ end = _ =>
        destruct body as [[[[[chase1 uns1] clos1] index1] endIndex1] m2|m2|m2]
                           eqn:Eb; try discriminate Hrun
    end.
    assert (Body : Phi clos1 (simple m2)).
    { destruct (fst (activeOp H current index endIndex xm xom op (heap m))).
      - exact (Phi_contour _ _ _ _ _ _ _ _ _ Hm1 Eb).
      - rewrite ChaseFacts.bind_call in Eb. injection Eb as <- <- <- <- <- <-.
        exact Hm1. }
    unfold bind at 1 in Hrun.
    pose proof (ShapeOpsFacts.keeps_findChaseOp _ _ _ _ _ _ H
                  (fun p => p = simple m2) chase1 index1 endIndex1 m2 eq_refl)
      as Hc.
    destruct (findChaseOp H chase1 index1 endIndex1 m2)
      as [[[[cur' chase'] index'] endIndex'] m3|m3|m3];
      try discriminate Hrun.
    unfold onSimple in Hc. cbn [final] in Hc.
    destruct cur' as [cur'|].
    + apply (IH _ _ _ _ _ _ _ _ _ _ (eq_ind_r (Phi clos1) Body Hc) Hrun).
    + injection Hrun as <- <- <-. rewrite Hc. exact Body.
Qed.

Lemma bridgeOp_loop_flag (contourList : list Contour) (n : nat) :
  forall fr m b m',
    Phi (closable fr) (simple m) ->
    bridgeOp_loop H bound contourList op xm xom n fr m = Ret b m' ->
    Phi b (simple m').
Proof.
  induction n as [|n IH]; intros fr m b m' Hm Hrun.
  - discriminate Hrun.
  - cbn [bridgeOp_loop] in Hrun. unfold bind at 1 in Hrun.
    pose proof (ShapeOpsFacts.keeps_findSortableTopNew _ _ _ _ _ _ H
                  (fun p => p = simple m) bound contourList (firstContour fr)
                  (topLeft fr) (topUnsortable fr) m eq_refl) as Ht.
    destruct (findSortableTopNew H bound contourList (firstContour fr)
                                 (topLeft fr) (topUnsortable fr) m)
      as [t m1|m1|m1]; try discriminate Hrun.
    unfold onSimple in Ht. cbn [final] in Ht.
    destruct (new_current t) as [current|].
    + unfold bind at 1 in Hrun.
      destruct (bridgeOp_spans H bound op xm xom bound [] (unsortable fr)
                               (closable fr) current (new_index t)
                               (new_endIndex t) m1)
        as [[u c] m2|m2|m2] eqn:Es; try discriminate Hrun.
      assert (Hm1 : Phi (closable fr) (simple m1)) by (rewrite Ht; exact Hm).
      pose proof (bridgeOp_spans_flag _ _ _ _ _ _ _ _ _ _ _ Hm1 Es) as Hm2.
      refine (IH _ _ _ _ _ Hrun). exact Hm2.
    + destruct (new_unsortable t).
      * rewrite ChaseFacts.bind_SkASSERT in Hrun.
        refine (IH _ _ _ _ _ Hrun).
        cbn [closable]. destruct (negb (firstRetry fr)); cbn [simple noting];
          rewrite Ht; exact Hm.
      * injection Hrun as <- <-. rewrite Ht. exact Hm.
Qed.

End Flag.

(** What a traced contour hands on: the flag is cleared exactly when the
    trace loop was left, not by [break], with the path not closed, and the
    last thing done is [simple.close()]. *)
Lemma bridgeOp_contour_flag (bound : nat) (op : ShapeOp) (xm xom : Z)
      chase uns clos current index endIndex (m : Mem World SkScalar) t m1 :
  bridgeOp_trace H op xm xom bound chase uns current index endIndex m
  = Ret t m1 ->
  exists m2,
    bridgeOp_contour H bound op xm xom chase uns clos current index endIndex m
    = Ret (tr_chase t, tr_unsortable t,
           clos && negb (tr_active t
                         && negb (isClosed H (heap m1) (simple m1))),
           tr_index t, tr_endIndex t)
          (mkMem (fst (close H (heap m2) (simple m2)))
                 (snd (close H (heap m2) (simple m2))) (asserts m2)).
Proof.
  intros Ht.
  unfold bridgeOp_contour. unfold bind at 1. rewrite Ht.
  unfold bind, readPath, ret, SkASSERT, read, onPath, exec.
  destruct (tr_active t && negb (isClosed H (heap m1) (simple m1))) eqn:Eopen.
  - rewrite Bool.andb_false_r.
    set (m1' := if tr_unsortable t then m1 else _).
    destruct (negb (doneAt H (tr_current t) (Z.min (tr_index t) (tr_endIndex t))
                          (heap m1'))).
    + destruct (addCurveTo H (tr_current t) (tr_index t) (tr_endIndex t) true
                           (heap m1') (simple m1')) as [w2 p2].
      exists (mkMem (markDoneBinary H (tr_current t)
                                    (Z.min (tr_index t) (tr_endIndex t)) w2)
                    p2 (asserts m1')).
      cbn [heap simple asserts].
      destruct (close H _ p2). reflexivity.
    + exists m1'. destruct (close H (heap m1') (simple m1')). reflexivity.
  - rewrite Bool.andb_true_r. exists m1.
    destruct (close H (heap m1) (simple m1)). reflexivity.
Qed.

Lemma bridgeOp_contour_closes (bound : nat) (op : ShapeOp) (xm xom : Z)
      chase uns clos current index endIndex (m : Mem World SkScalar) r m' :
  bridgeOp_contour H bound op xm xom chase uns clos current index endIndex m
  = Ret r m' ->
  exists m2, simple m' = snd (close H (heap m2) (simple m2)).
Proof.
  intros Hrun.
  destruct (bridgeOp_trace H op xm xom bound chase uns current index endIndex m)
    as [t m1|m1|m1] eqn:Ht.
  - destruct (bridgeOp_contour_flag bound op xm xom chase uns clos current
                index endIndex m t m1 Ht) as [m2 E].
    rewrite E in Hrun. injection Hrun as _ <-. exists m2. reflexivity.
  - unfold bridgeOp_contour in Hrun. unfold bind at 1 in Hrun.
    rewrite Ht in Hrun. discriminate Hrun.
  - unfold bridgeOp_contour in Hrun. unfold bind at 1 in Hrun.
    rewrite Ht in Hrun. discriminate Hrun.
Qed.

(** C1, as the code has it. [bridgeOp] computes the flag: it starts true;
    a traced contour ends with [simple.close()] in every case and hands the
    flag on, cleared exactly when the trace loop was left, not by [break],
    with the path not closed; the flag goes from contour to contour and
    what the last one handed on is what [bridgeOp] returns, so that
    whatever ties the flag to the path, once it holds at the start and
    every contour hands it on, holds of the returned flag and the final
    path; once cleared the flag stays cleared. But [operate] does not use
    the value: it ends as the run of [bridgeOp] ends, in the same state
    whichever the flag, and hands back the path alone. *)
Theorem operate_drops_closable (bound : nat) (one two result : SkPath SkScalar)
        (op : ShapeOp) :
  closable (bridgeOp_init H) = true /\
  (forall b m,
     operate_closable H bound one two op result = Ret b m ->
     operate H bound one two op result = Ret tt m) /\
  (forall xm xom chase uns clos current index endIndex m t m1,
     bridgeOp_trace H op xm xom bound chase uns current index endIndex m
     = Ret t m1 ->
     exists m2,
       bridgeOp_contour H bound op xm xom chase uns clos
                        current index endIndex m
       = Ret (tr_chase t, tr_unsortable t,
              clos && negb (tr_active t
                            && negb (isClosed H (heap m1) (simple m1))),
              tr_index t, tr_endIndex t)
             (mkMem (fst (close H (heap m2) (simple m2)))
                    (snd (close H (heap m2) (simple m2))) (asserts m2))) /\
  (forall (Phi : bool -> SkPath SkScalar -> Prop) contourList xm xom,
     (forall chase uns clos current index endIndex m r m',
         Phi clos (simple m) ->
         bridgeOp_contour H bound op xm xom chase uns clos
                          current index endIndex m = Ret r m' ->
         Phi (snd (fst (fst r))) (simple m')) ->
     forall m b m',
       Phi true (simple m) ->
       bridgeOp H bound contourList op xm xom m = Ret b m' ->
       Phi b (simple m')) /\
  (forall contourList xm xom n fr b m m',
     closable fr = false ->
     bridgeOp_loop H bound contourList op xm xom n fr m = Ret b m' ->
     b = false).
Proof.
  split; [reflexivity|]. split; [|split; [|split]].
  - intros b m E. rewrite ShapeOpsFacts.operate_as_closable, E. reflexivity.
  - intros xm xom chase uns clos current index endIndex m t m1 Ht.
    apply bridgeOp_contour_flag with (1 := Ht).
  - intros Phi contourList xm xom Hcontour m b m' Hm Hrun.
    exact (bridgeOp_loop_flag bound op xm xom Phi Hcontour contourList bound
             (bridgeOp_init H) m b m' Hm Hrun).
  - intros contourList xm xom n fr b m m' Hfr Hrun.
    exact (ShapeOpsFacts.bridgeOp_loop_stays_false _ _ _ _ _ _ H bound
             contourList op xm xom n fr Hfr m b m' Hrun).
Qed.

End Facts.

Lemma operate_drops_closable_witness :
  let run := operate_closable (Toy.env true) 5 Toy.stalling Toy.empty
                              kUnion_Op Toy.stale in
  let Phi := fun (b : bool) (p : SkPath Z) => b = false -> fVerbs p <> [] in
  let m := mkMem (Toy.mkStore [moveTo (mkPoint 7 0); lineTo (mkPoint 8 2)]
                              [0] [] [] [] false)
                 (mkPath kEvenOdd_FillType []) [] in
  (run = Ret (Some false) (final run) /\
   operate (Toy.env true) 5 Toy.stalling Toy.empty kUnion_Op Toy.stale
   = Ret tt (final run)) /\
  (Phi true (simple m) /\
   bridgeOp (Toy.env true) 5 [0%nat] kUnion_Op (-1) (-1) m
   = Ret false (final (bridgeOp (Toy.env true) 5 [0%nat] kUnion_Op (-1) (-1) m)) /\
   fVerbs (simple (final (bridgeOp (Toy.env true) 5 [0%nat] kUnion_Op (-1) (-1)
                                   m))) <> []).
Proof.
  intros run Phi m. split.
  - split; [reflexivity|].
    apply (proj1 (proj2 (operate_drops_closable _ _ _ _ _ _ (Toy.env true) 5
                           Toy.stalling Toy.empty Toy.stale kUnion_Op))
             (Some false)).
    reflexivity.
  - assert (P0 : Phi true (simple m)) by discriminate.
    assert (E : bridgeOp (Toy.env true) 5 [0%nat] kUnion_Op (-1) (-1) m
                = Ret false (final (bridgeOp (Toy.env true) 5 [0%nat] kUnion_Op
                                             (-1) (-1) m)))
      by reflexivity.
    split; [exact P0|]. split; [exact E|].
    refine (proj1 (proj2 (proj2 (proj2
              (operate_drops_closable _ _ _ _ _ _ (Toy.env true) 5
                 Toy.stalling Toy.empty Toy.stale kUnion_Op)))) Phi [0%nat]
              (-1) (-1) _ m false _ P0 E eq_refl).
    intros chase uns clos current index endIndex m0 r m' _ Hrun _.
    destruct (bridgeOp_contour_closes _ _ _ _ _ _ (Toy.env true)
                _ _ _ _ _ _ _ _ _ _ _ _ _ Hrun) as [m2 ->].
    cbn [close Toy.env]. unfold Toy.shutPath. cbn [snd fVerbs].
    destruct (fVerbs (simple m2)); discriminate.
Defined.

End ClosableFacts.

(** ** The fallback that is not written *)

Module UnsortableFacts.

Import ShapeOps.

Section Facts.

Variables (Contour Segment Span Angle World SkScalar : Type).
Variable H : Simplify Contour Segment Span Angle World SkScalar.

(** C2. The fallback that the comment above [SkASSERT(0)] asks for is not
    written. A top segment found with [firstContour] off, whose winding sum
    [computeSum] does not derive (or that has one already) and for which
    one of the two containment checks answers [SK_MinS32], sends
    [findSortableTopNew] round its loop; when the search without ties then
    finds no segment, the function breaks out, violates [SkASSERT(0)] and
    returns no segment: the ambiguity is not handled in place. *)
Theorem unresolved_top_reaches_SkASSERT_0 (bound : nat)
        (contourList : list Contour) (topLeft : SkPoint SkScalar)
        (uns : bool) (m : Mem World SkScalar) (current : Segment) :
  let found := findSortableTop H contourList topLeft uns true true (heap m) in
  let index := top_index (fst found) in
  let endIndex := top_endIndex (fst found) in
  let unset :=
    windSum H current (Z.min index endIndex) (snd found) =? SK_MinS32 H in
  let summed := computeSum H current index endIndex true (snd found) in
  let w2 := if unset then snd summed else snd found in
  let c := innerContourCheck H contourList current index endIndex false w2 in
  let o := innerContourCheck H contourList current index endIndex true (snd c) in
  let w3 := if fst c =? SK_MinS32 H then snd c else snd o in
  let again := findSortableTop H contourList (top_topLeft (fst found))
                               (top_unsortable (fst found)) false true w3 in
  top_current (fst found) = Some current ->
  (unset = true -> fst summed = SK_MinS32 H) ->
  fst c = SK_MinS32 H \/ fst o = SK_MinS32 H ->
  top_current (fst again) = None ->
  findSortableTopNew H (S (S bound)) contourList false topLeft uns m
  = Ret (mkTopNew None false (top_index (fst again)) (top_endIndex (fst again))
                  (top_topLeft (fst again)) (top_unsortable (fst again)))
        (mkMem (snd again) (simple m) (asserts m ++ [findSortableTopNew_0])).
Proof.
  intros found index endIndex unset summed w2 c o w3 again Hcur Hsum Hchk Hnone.
  unfold findSortableTopNew. cbn [findSortableTopNew_loop].
  unfold bind at 1. unfold call at 1. fold found.
  destruct found as [t w1] eqn:Efound. cbn [fst snd] in *. rewrite Hcur.
  cbn [negb]. unfold bind at 1. unfold read at 1. cbn [heap].
  fold index endIndex. fold unset.
  assert (Hnot :
             (if unset
              then bind (call (computeSum H current index endIndex true))
                        (fun sum => ret (negb (sum =? SK_MinS32 H)))
              else ret false) (mkMem w1 (simple m) (asserts m))
             = Ret false (mkMem w2 (simple m) (asserts m))).
  { unfold w2. destruct unset.
    - unfold bind, call, ret. cbn [heap simple asserts]. fold summed.
      specialize (Hsum eq_refl). destruct summed as [sum ws]. cbn [fst snd] in *.
      subst sum. rewrite Z.eqb_refl. reflexivity.
    - reflexivity. }
  unfold bind at 1. rewrite Hnot.
  unfold bind at 1. unfold call at 1. cbn [heap simple asserts]. fold c.
  assert (Hagain : findSortableTopNew_loop H (S bound) contourList false
                     (top_topLeft t) (top_unsortable t) false false
                     (mkMem w3 (simple m) (asserts m))
                   = Ret (mkTopNew None false (top_index (fst again))
                                   (top_endIndex (fst again))
                                   (top_topLeft (fst again))
                                   (top_unsortable (fst again)))
                         (mkMem (snd again) (simple m)
                                (asserts m ++ [findSortableTopNew_0]))).
  { cbn [findSortableTopNew_loop]. unfold bind at 1. unfold call at 1.
    cbn [heap simple asserts]. fold again.
    destruct again as [t2 w4]. cbn [fst snd] in *. rewrite Hnone.
    reflexivity. }
  unfold w3 in Hagain.
  destruct c as [cw wc] eqn:Ec. cbn [fst snd] in *.
  destruct (cw =? SK_MinS32 H) eqn:Ecw.
  - exact Hagain.
  - unfold bind at 1. unfold call at 1. cbn [heap simple asserts]. fold o.
    destruct o as [ow wo] eqn:Eo. cbn [fst snd] in *.
    destruct Hchk as [Hc|Ho].
    + apply Z.eqb_neq in Ecw. contradiction.
    + subst ow. rewrite Z.eqb_refl. exact Hagain.
Qed.

End Facts.

Lemma unresolved_top_reaches_SkASSERT_0_witness :
  let m := mkMem (Toy.mkStore [moveTo (mkPoint (-3) 4)] [0; 4] [] [(7, 0, 0)] []
                              false)
                 (mkPath kEvenOdd_FillType []) [] in
  top_current (fst (findSortableTop (Toy.env true) [0; 1]%nat (mkPoint 0 0)
                                    false true true (heap m))) = Some (-3) /\
  asserts (final (findSortableTopNew (Toy.env true) 2 [0; 1]%nat false
                                     (mkPoint 0 0) false m))
  = [findSortableTopNew_0].
Proof.
  intros m. split; [reflexivity|].
  rewrite (unresolved_top_reaches_SkASSERT_0 _ _ _ _ _ _ (Toy.env true) 0
             [0; 1]%nat (mkPoint 0 0) false m (-3)).
  - reflexivity.
  - reflexivity.
  - intros _. reflexivity.
  - left. reflexivity.
  - reflexivity.
Defined.

(** The same inside a whole call of [operate]: the second contour of the
    first operand is the unresolved one. *)
Lemma operate_reaches_SkASSERT_0 :
  asserts (final (operate (Toy.env true) 5
                    (Toy.path [moveTo (mkPoint 7 0); lineTo (mkPoint 8 1);
                               moveTo (mkPoint (-3) 4)])
                    Toy.empty kUnion_Op Toy.stale))
  = [findSortableTopNew_0].
Proof. reflexivity. Qed.

End UnsortableFacts.

(** ** Seeding and derivation of the winding *)

Module WindingFacts.

Import ShapeOps.

Section Facts.

Variables (Contour Segment Span Angle World SkScalar : Type).
Variable H : Simplify Contour Segment Span Angle World SkScalar.

Section Derived.

Variable contourList : list Contour.

(** A property of the store that the searches, [computeSum] and the
    containment checks leave standing, and that [initWinding] leaves
    standing when it is given the answers of the two containment checks on
    the store they left, both of them other than [SK_MinS32]. *)
Variable P : World -> Prop.
Hypothesis P_findSortableTop : forall tl u ties w,
    P w -> P (snd (findSortableTop H contourList tl u ties true w)).
Hypothesis P_computeSum : forall s i e w,
    P w -> P (snd (computeSum H s i e true w)).
Hypothesis P_innerContourCheck : forall s i e opp w,
    P w -> P (snd (innerContourCheck H contourList s i e opp w)).
Hypothesis P_initWinding : forall s i e w,
    P w ->
    let c := innerContourCheck H contourList s i e false w in
    let o := innerContourCheck H contourList s i e true (snd c) in
    fst c <> SK_MinS32 H -> fst o <> SK_MinS32 H ->
    P (initWinding H s i e (fst c) (fst o) (snd o)).


End Derived.




End Facts.


End WindingFacts.

(** ** The pairs of the intersection phase *)

Module IntersectionFacts.

Import ShapeOps Intersections.

Section Merge.

Variable T : Type.
Variable closer : T * T -> T * T -> bool.

Lemma keepFirst_prefix (computed kept : list (T * T)) :
  exists more, fold_left (keepFirst closer) computed kept = kept ++ more.
Proof.
  revert kept. induction computed as [|p l IH]; intros kept; cbn [fold_left].
  - exists []. now rewrite app_nil_r.
  - unfold keepFirst at 2. destruct (existsb (closer p) kept).
    + apply IH.
    + destruct (IH (kept ++ [p])) as [more E]. exists (p :: more).
      rewrite E, <- app_assoc. reflexivity.
Qed.

(** Every root computed is kept or is closer than the tolerance to one
    that was kept before it. *)
Lemma mergeRoots_covers (computed kept : list (T * T)) (p : T * T) :
  In p computed ->
  In p (fold_left (keepFirst closer) computed kept) \/
  exists q, In q (fold_left (keepFirst closer) computed kept) /\
            closer p q = true.
Proof.
  revert kept. induction computed as [|p0 l IH]; intros kept Hin;
    [destruct Hin|].
  cbn [fold_left]. destruct Hin as [->|Hin]; [|apply IH; exact Hin].
  destruct (keepFirst_prefix l (keepFirst closer kept p)) as [more E].
  rewrite E. unfold keepFirst.
  destruct (existsb (closer p) kept) eqn:Ex.
  - right. apply existsb_exists in Ex. destruct Ex as (q & Hq & Hc).
    exists q. split; [apply in_or_app; left; exact Hq | exact Hc].
  - left. apply in_or_app. left. apply in_or_app. right. left. reflexivity.
Qed.

Lemma ForallOrdPairs_snoc {A} (R : A -> A -> Prop) (l : list A) (x : A) :
  ForallOrdPairs R l -> Forall (fun y => R y x) l ->
  ForallOrdPairs R (l ++ [x]).
Proof.
  induction 1 as [|a l Ha Hl IH]; intros Hx; cbn.
  - constructor; constructor.
  - inversion Hx as [|? ? Hax Hlx]; subst. constructor.
    + apply Forall_app. split; [exact Ha | constructor; [exact Hax|constructor]].
    + apply IH. exact Hlx.
Qed.

(** No root that is kept is closer than the tolerance to one kept before
    it. *)
Lemma mergeRoots_apart (computed kept : list (T * T)) :
  ForallOrdPairs (fun q p => closer p q = false) kept ->
  ForallOrdPairs (fun q p => closer p q = false)
                 (fold_left (keepFirst closer) computed kept).
Proof.
  revert kept. induction computed as [|p0 l IH]; intros kept Hk; cbn [fold_left].
  - exact Hk.
  - apply IH. unfold keepFirst.
    destruct (existsb (closer p0) kept) eqn:Ex; [exact Hk|].
    apply ForallOrdPairs_snoc; [exact Hk|].
    apply Forall_forall. intros q Hq.
    destruct (closer p0 q) eqn:Ec; [|reflexivity].
    assert (existsb (closer p0) kept = true)
      by (apply existsb_exists; exists q; auto).
    congruence.
Qed.

(** Only roots that were computed are kept. *)
Lemma mergeRoots_incl (computed kept : list (T * T)) (p : T * T) :
  In p (fold_left (keepFirst closer) computed kept) ->
  In p kept \/ In p computed.
Proof.
  revert kept. induction computed as [|p0 l IH]; intros kept Hin;
    cbn [fold_left] in Hin; [left; exact Hin|].
  destruct (IH _ Hin) as [Hk|Hl]; [|right; right; exact Hl].
  unfold keepFirst in Hk. destruct (existsb (closer p0) kept).
  - left; exact Hk.
  - apply in_app_or in Hk. destruct Hk as [Hk|[<-|[]]].
    + left; exact Hk.
    + right; left; reflexivity.
Qed.

End Merge.

Section Facts.

Variables (Contour Segment Span Angle World SkScalar : Type).
Variable H : Simplify Contour Segment Span Angle World SkScalar.

Lemma addAll_cons (p : Contour * Contour) (l : list (Contour * Contour))
      (w : World) :
  addAll H (p :: l) w = addAll H l (snd (addIntersectTs H (fst p) (snd p) w)).
Proof. reflexivity. Qed.

(** A row, whatever [addIntersectTs] answers: the contours it is handed are
    a start of the list, a true answer goes on to the next contour and the
    first false answer is the last of the row. *)
Lemma intersectFrom_row (current : Contour) (nexts : list Contour) :
  forall m : Mem World SkScalar,
  exists k,
    (k <= length nexts)%nat /\
    intersectFrom H current nexts m
    = Ret tt (mkMem (addAll H (map (pair current) (firstn k nexts)) (heap m))
                    (simple m) (asserts m)) /\
    (forall j next,
        (S j < k)%nat -> nth_error nexts j = Some next ->
        fst (addIntersectTs H current next
               (addAll H (map (pair current) (firstn j nexts)) (heap m)))
        = true) /\
    ((k < length nexts)%nat ->
     exists j next,
       k = S j /\ nth_error nexts j = Some next /\
       fst (addIntersectTs H current next
              (addAll H (map (pair current) (firstn j nexts)) (heap m)))
       = false).
Proof.
  induction nexts as [|next rest IH]; intros m.
  - exists 0%nat. split; [reflexivity|]. split; [destruct m; reflexivity|].
    split; [intros j n Hj; lia | cbn; lia].
  - cbn [intersectFrom]. unfold bind at 1. unfold call at 1.
    destruct (addIntersectTs H current next (heap m)) as [more w'] eqn:E.
    destruct more.
    + destruct (IH (mkMem w' (simple m) (asserts m)))
        as (k & Hk & Hrun & Htrue & Hfalse).
      exists (S k). cbn [length firstn map heap simple asserts] in *.
      split; [lia|]. split; [|split].
      * rewrite Hrun, addAll_cons. cbn [fst snd]. rewrite E. reflexivity.
      * intros [|j] n Hj Hn.
        -- injection Hn as <-. cbn. rewrite E. reflexivity.
        -- cbn [nth_error] in Hn. cbn [firstn map]. rewrite addAll_cons.
           cbn [fst snd]. rewrite E. apply Htrue; [lia|exact Hn].
      * intros Hlt. destruct Hfalse as (j & n & -> & Hn & Hf); [lia|].
        exists (S j), n. split; [reflexivity|]. split; [exact Hn|].
        cbn [firstn map]. rewrite addAll_cons. cbn [fst snd]. rewrite E.
        exact Hf.
    + exists 1%nat. cbn [length firstn map heap]. split; [lia|].
      split; [|split].
      * rewrite addAll_cons. cbn [fst snd]. rewrite E. reflexivity.
      * intros j n Hj. lia.
      * intros _. exists 0%nat, next. split; [reflexivity|].
        split; [reflexivity|]. cbn. rewrite E. reflexivity.
Qed.

(** A row in which every answer of the run is true. *)
Lemma intersectFrom_true (current : Contour) (nexts : list Contour) :
  forall m : Mem World SkScalar,
    (forall l1 next l2,
        nexts = l1 ++ next :: l2 ->
        fst (addIntersectTs H current next
               (addAll H (map (pair current) l1) (heap m))) = true) ->
    intersectFrom H current nexts m
    = Ret tt (mkMem (addAll H (map (pair current) nexts) (heap m))
                    (simple m) (asserts m)).
Proof.
  induction nexts as [|next rest IH]; intros m Htrue.
  - destruct m; reflexivity.
  - cbn [intersectFrom]. unfold bind at 1. unfold call at 1.
    pose proof (Htrue [] next rest eq_refl) as H0. cbn in H0.
    destruct (addIntersectTs H current next (heap m)) as [more w'] eqn:E.
    cbn [fst] in H0. subst more.
    rewrite IH.
    + cbn [map heap simple asserts]. rewrite addAll_cons. cbn [fst snd].
      rewrite E. reflexivity.
    + intros l1 n l2 ->. cbn [heap].
      specialize (Htrue (next :: l1) n l2 eq_refl).
      cbn [map] in Htrue. rewrite addAll_cons in Htrue. cbn [fst snd] in Htrue.
      rewrite E in Htrue. exact Htrue.
Qed.

Lemma findIntersections_true (contourList : list Contour) :
  forall m : Mem World SkScalar,
    (forall l1 p l2,
        pairsFrom contourList = l1 ++ p :: l2 ->
        fst (addIntersectTs H (fst p) (snd p) (addAll H l1 (heap m))) = true) ->
    findIntersections H contourList m
    = Ret tt (mkMem (addAll H (pairsFrom contourList) (heap m))
                    (simple m) (asserts m)).
Proof.
  induction contourList as [|current rest IH]; intros m Htrue.
  - destruct m; reflexivity.
  - cbn [findIntersections pairsFrom]. unfold bind.
    rewrite intersectFrom_true.
    + rewrite IH.
      * cbn [heap simple asserts].
        rewrite (ShapeOpsFacts.addAll_app _ _ _ _ _ _ H). reflexivity.
      * intros l1 p l2 E. cbn [heap].
        rewrite <- (ShapeOpsFacts.addAll_app _ _ _ _ _ _ H
                      (map (pair current) (current :: rest)) l1).
        apply (Htrue (map (pair current) (current :: rest) ++ l1) p l2).
        cbn [pairsFrom]. rewrite E, <- app_assoc. reflexivity.
    + intros l1 next l2 E.
      apply (Htrue (map (pair current) l1) (current, next)
                   (map (pair current) l2 ++ pairsFrom rest)).
      cbn [pairsFrom]. rewrite E, map_app, <- app_assoc. reflexivity.
Qed.

Section Tests.

Variable T : Type.
Variable segments : Contour -> list Segment.
Variable roots : Segment -> Segment -> list (T * T).
Variable closer : T * T -> T * T -> bool.
Variable same : Contour -> Contour -> bool.
Variable tests : World -> list (Test Segment T).

Hypothesis addIntersectTs_tests : forall current next w,
    tests (snd (addIntersectTs H current next w))
    = tests w ++ contourTests segments roots closer (same current next)
                              current next.

Lemma addAll_tests (pairs : list (Contour * Contour)) :
  forall w, tests (addAll H pairs w)
            = tests w ++ pairTests segments roots closer same pairs.
Proof.
  induction pairs as [|p l IH]; intros w.
  - cbn. now rewrite app_nil_r.
  - rewrite addAll_cons, IH, addIntersectTs_tests.
    unfold pairTests. cbn [flat_map]. now rewrite app_assoc.
Qed.

Lemma pairTests_two (pairs : list (Contour * Contour)) (ci cj : Contour)
      (sa sb : Segment) :
  In (ci, cj) pairs -> same ci cj = false ->
  In sa (segments ci) -> In sb (segments cj) ->
  In (test roots closer (sa, sb)) (pairTests segments roots closer same pairs).
Proof.
  intros Hp Hs Ha Hb. unfold pairTests. apply in_flat_map.
  exists (ci, cj). split; [exact Hp|]. cbn [fst snd]. rewrite Hs.
  unfold contourTests. apply in_map. apply in_prod; assumption.
Qed.

Lemma pairTests_self (pairs : list (Contour * Contour)) (c : Contour)
      (a b : nat) (sa sb : Segment) :
  In (c, c) pairs -> same c c = true -> (a <= b)%nat ->
  nth_error (segments c) a = Some sa -> nth_error (segments c) b = Some sb ->
  In (test roots closer (sa, sb)) (pairTests segments roots closer same pairs).
Proof.
  intros Hp Hs Hab Ha Hb. unfold pairTests. apply in_flat_map.
  exists (c, c). split; [exact Hp|]. cbn [fst snd]. rewrite Hs.
  unfold contourTests. apply in_map.
  exact (ShapeOpsFacts.pairsFrom_complete Segment (segments c) a b sa sb
           Hab Ha Hb).
Qed.

End Tests.

(** C5, as the code has it. The intersection phase hands pairs of contours
    to [addIntersectTs], row by row: each contour with itself first, then
    with the contours after it in the list. In a row a true answer goes on
    to the next contour and the first false answer ends the row, so that the
    contours after that one are not paired with the current one. In a run
    in which every answer is true, every unordered pair of contours of the
    list, a contour with itself included, is handed over, once and in list
    order. With [addIntersectTs] testing the segments of a pair of contours
    as section 4.2 has it, such a run tests every unordered pair of segments
    of the contour list, a segment with itself included, and the
    intersections recorded for a pair are the computed roots merged within
    the tolerance: every root is kept or is closer than the tolerance to
    one kept before it, and no two kept roots are that close. *)
Theorem findIntersections_pairs (T : Type) (segments : Contour -> list Segment)
        (roots : Segment -> Segment -> list (T * T))
        (closer : T * T -> T * T -> bool)
        (same : Contour -> Contour -> bool)
        (tests : World -> list (Test Segment T))
        (contourList : list Contour) (m : Mem World SkScalar) :
  (forall current rest,
     findIntersections H (current :: rest) m
     = bind (intersectFrom H current (current :: rest))
            (fun _ => findIntersections H rest) m) /\
  (forall current nexts (m0 : Mem World SkScalar),
     exists k,
       (k <= length nexts)%nat /\
       intersectFrom H current nexts m0
       = Ret tt (mkMem (addAll H (map (pair current) (firstn k nexts)) (heap m0))
                       (simple m0) (asserts m0)) /\
       (forall j next,
           (S j < k)%nat -> nth_error nexts j = Some next ->
           fst (addIntersectTs H current next
                  (addAll H (map (pair current) (firstn j nexts)) (heap m0)))
           = true) /\
       ((k < length nexts)%nat ->
        exists j next,
          k = S j /\ nth_error nexts j = Some next /\
          fst (addIntersectTs H current next
                 (addAll H (map (pair current) (firstn j nexts)) (heap m0)))
          = false)) /\
  ((forall l1 p l2,
       pairsFrom contourList = l1 ++ p :: l2 ->
       fst (addIntersectTs H (fst p) (snd p) (addAll H l1 (heap m))) = true) ->
   findIntersections H contourList m
   = Ret tt (mkMem (addAll H (pairsFrom contourList) (heap m))
                   (simple m) (asserts m)) /\
   (forall i j ci cj, (i <= j)%nat ->
      nth_error contourList i = Some ci -> nth_error contourList j = Some cj ->
      In (ci, cj) (pairsFrom contourList)) /\
   ((forall current next w,
        tests (snd (addIntersectTs H current next w))
        = tests w ++ contourTests segments roots closer (same current next)
                                  current next) ->
    (forall a b, same a b = true <-> a = b) ->
    NoDup contourList ->
    let tested := tests (heap (final (findIntersections H contourList m))) in
    tested = tests (heap m)
             ++ pairTests segments roots closer same (pairsFrom contourList) /\
    (forall i j ci cj sa sb, (i < j)%nat ->
       nth_error contourList i = Some ci -> nth_error contourList j = Some cj ->
       In sa (segments ci) -> In sb (segments cj) ->
       In (test roots closer (sa, sb)) tested) /\
    (forall i ci a b sa sb, (a <= b)%nat ->
       nth_error contourList i = Some ci ->
       nth_error (segments ci) a = Some sa ->
       nth_error (segments ci) b = Some sb ->
       In (test roots closer (sa, sb)) tested))) /\
  (forall a b,
     let computed := roots a b in
     let kept := crossings (test roots closer (a, b)) in
     (forall p, In p computed ->
                In p kept \/ exists q, In q kept /\ closer p q = true) /\
     ForallOrdPairs (fun q p => closer p q = false) kept /\
     (forall p, In p kept -> In p computed)).
Proof.
  split; [reflexivity|]. split; [intros; apply intersectFrom_row|].
  split.
  - intros Htrue.
    pose proof (findIntersections_true contourList m Htrue) as Hrun.
    split; [exact Hrun|]. split; [apply ShapeOpsFacts.pairsFrom_complete|].
    intros Hspec Hsame Hnodup tested. subst tested. rewrite Hrun.
    cbn [final heap].
    rewrite (addAll_tests T segments roots closer same tests Hspec).
    split; [reflexivity|]. split.
    + intros i j ci cj sa sb Hij Hi Hj Ha Hb. apply in_or_app. right.
      apply (pairTests_two T segments roots closer same _ ci cj);
        [| |exact Ha|exact Hb].
      * apply (ShapeOpsFacts.pairsFrom_complete Contour contourList i j);
          [lia|exact Hi|exact Hj].
      * destruct (same ci cj) eqn:Es; [|reflexivity].
        apply Hsame in Es. subst cj.
        assert (i = j); [|lia].
        apply (proj1 (NoDup_nth_error contourList) Hnodup).
        -- apply nth_error_Some. congruence.
        -- congruence.
    + intros i ci a b sa sb Hab Hi Ha Hb. apply in_or_app. right.
      apply (pairTests_self T segments roots closer same _ ci a b);
        [| |exact Hab|exact Ha|exact Hb].
      * apply (ShapeOpsFacts.pairsFrom_complete Contour contourList i i);
          [lia|exact Hi|exact Hi].
      * apply Hsame. reflexivity.
  - intros a b computed kept. subst computed kept.
    cbn [test crossings fst snd]. unfold FindIntersections, mergeRoots.
    split; [|split].
    + intros p Hp. apply mergeRoots_covers. exact Hp.
    + apply mergeRoots_apart. constructor.
    + intros p Hp. destruct (mergeRoots_incl T closer _ _ p Hp) as [[]|Hc]. exact Hc.
Qed.

End Facts.

Lemma heights_addAll (b : bool) (pairs : list (nat * nat)) :
  forall w, Toy.heights (addAll (Toy.env b) pairs w) = Toy.heights w.
Proof.
  induction pairs as [|p l IH]; intros w; [reflexivity|].
  rewrite addAll_cons, IH. reflexivity.
Qed.

Lemma findIntersections_pairs_witness :
  let m := operate_entry (Toy.env true) descending Toy.stale in
  (forall l1 p l2,
      pairsFrom [0; 1; 2]%nat = l1 ++ p :: l2 ->
      fst (addIntersectTs (Toy.env true) (fst p) (snd p)
             (addAll (Toy.env true) l1 (heap m))) = true) /\
  Toy.tested (heap (final (findIntersections (Toy.env true) [0; 1; 2]%nat m)))
  = [(0, 0); (0, 1); (0, 2); (1, 1); (1, 2); (2, 2)]%nat /\
  In (mkTest 0 2 [(0, 0); (5, 5)])
     (testsOf (heap (final (findIntersections (Toy.env true) [0; 1; 2]%nat m)))).
Proof.
  intros m.
  assert (Htrue : forall l1 p l2,
             pairsFrom [0; 1; 2]%nat = l1 ++ p :: l2 ->
             fst (addIntersectTs (Toy.env true) (fst p) (snd p)
                    (addAll (Toy.env true) l1 (heap m))) = true).
  { intros l1 p l2 E. cbn [addIntersectTs Toy.env]. unfold Toy.intersect.
    cbn [fst]. rewrite heights_addAll.
    assert (Hin : In p (pairsFrom [0; 1; 2]%nat))
      by (rewrite E; apply in_or_app; right; left; reflexivity).
    cbn in Hin.
    repeat (destruct Hin as [<-|Hin]; [reflexivity|]). destruct Hin. }
  split; [exact Htrue|].
  destruct (proj1 (proj2 (proj2
              (findIntersections_pairs _ _ _ _ _ _ (Toy.env true) Z
                 soleSegment sampleRoots within2 Nat.eqb testsOf
                 [0; 1; 2]%nat m))) Htrue) as (Hrun & _ & Htests).
  split; [rewrite Hrun; reflexivity|].
  refine (proj1 (proj2 (Htests _ _ _)) 0%nat 2%nat 0%nat 2%nat 0 2 _ _ _ _ _).
  - intros current next w. unfold testsOf, pairTests.
    cbn [addIntersectTs Toy.env]. unfold Toy.intersect. cbn [snd Toy.tested].
    rewrite flat_map_app. cbn [flat_map fst snd]. now rewrite app_nil_r.
  - intros a b. apply Nat.eqb_eq.
  - repeat constructor; cbn; intuition discriminate.
  - lia.
  - reflexivity.
  - reflexivity.
  - left; reflexivity.
  - left; reflexivity.
Defined.

End IntersectionFacts.

(** ** Calls on the caller's objects *)

Module CallerFacts.

Import ShapeOps Caller.

Section Facts.

Variables (Contour Segment Span Angle World SkScalar : Type).
Variable H : Simplify Contour Segment Span Angle World SkScalar.



End Facts.



End CallerFacts.
